(** * AssemblyLine: k-mer graph assembly ([assembler.py])

    A shallow embedding of [assemblyline/lib/assemble/assembler.py] and the
    properties of it that the specification states.

    Modelling conventions.
    - Python tuples and lists of splice-graph nodes are [list Exon]; the
      nodes of the splice graph are the [Exon] values themselves (the code
      reads [.start] and [.end] off them in [expand_path_chains]).
    - [networkx.DiGraph] is a record of a node-attribute dictionary and an
      edge set; dictionaries are [gmap], sets are [gset].
    - Scores are Python floats.  They are modelled in exact rational
      arithmetic ([Qc]); no property below depends on rounding.  Python's
      [ZeroDivisionError] on a float division by zero is explicit.
    - Exceptions are values of [exn]; a function that can raise returns a
      [result].
    - Dictionary and set iteration order is the one of [map_to_list] and
      [elements]; in exact arithmetic none of the results depends on it. *)

From Stdlib Require Import ZArith QArith Qcanon Lia.
From stdpp Require Import gmap list numbers fin_sets.

Local Open Scope Z_scope.

(** ** Exceptions *)

Inductive exn :=
  ZeroDivisionError | IndexError | KeyError | TypeError | ValueError.

Inductive result (A : Type) :=
  | Ok (a : A)
  | Raise (e : exn).
Arguments Ok {A} a.
Arguments Raise {A} e.

#[global] Instance result_ret : MRet result := λ A a, Ok a.
#[global] Instance result_bind : MBind result := λ A B f m,
  match m with Ok a => f a | Raise e => Raise e end.
#[global] Instance result_fmap : FMap result := λ A B f m,
  match m with Ok a => Ok (f a) | Raise e => Raise e end.

Definition is_Ok {A} (r : result A) : Prop := ∃ a, r = Ok a.

(** ** Python sequence operations *)

Module Py.

(** [xrange(a, b)] *)
Definition xrange (a b : Z) : list Z :=
  (λ i : nat, a + Z.of_nat i) <$> seq 0 (Z.to_nat (b - a)).

(** Normalisation of one bound of a slice of a sequence of length [len]. *)
Definition slice_index (len i : Z) : Z :=
  if i <? 0 then Z.max 0 (i + len) else Z.min i len.

(** [l[i:j]] *)
Definition slice {A} (l : list A) (i j : Z) : list A :=
  let n := Z.of_nat (length l) in
  let a := slice_index n i in
  let b := slice_index n j in
  take (Z.to_nat (b - a)) (drop (Z.to_nat a) l).

(** [l[i]], for [i] of either sign *)
Definition index {A} (l : list A) (i : Z) : result A :=
  let n := Z.of_nat (length l) in
  let j := if i <? 0 then i + n else i in
  if j <? 0 then Raise IndexError
  else match l !! Z.to_nat j with
       | Some x => Ok x
       | None => Raise IndexError
       end.

(** [d[k]] on a dictionary *)
Definition getitem `{Countable K} {V} (d : gmap K V) (k : K) : result V :=
  match d !! k with
  | Some v => Ok v
  | None => Raise KeyError
  end.

(** [sum(xs)] on scores *)
Definition sum (xs : list Qc) : Qc := foldr Qcplus 0%Qc xs.

(** [x / y] on floats *)
Definition div (x y : Qc) : result Qc :=
  if decide (y = 0%Qc) then Raise ZeroDivisionError else Ok (x / y)%Qc.

(** [float(len(xs))] *)
Definition len {A} (xs : list A) : Qc := Qc_of_Z (Z.of_nat (length xs)).

End Py.

(** ** Exons and [networkx.DiGraph] *)

Record Exon := mkExon { start : Z; end_ : Z }.

#[global] Instance Exon_eq_dec : EqDecision Exon.
Proof. solve_decision. Defined.

#[global] Program Instance Exon_countable : Countable Exon :=
  inj_countable' (λ e, (start e, end_ e)) (λ p, mkExon p.1 p.2) _.
Next Obligation. by intros []. Qed.

Inductive Strand := POS_STRAND | NEG_STRAND.

#[global] Instance Strand_eq_dec : EqDecision Strand.
Proof. solve_decision. Defined.

Section DiGraph.
Context {N : Type} `{Countable N} {A GA : Type}.

(** [graph] is the graph-attribute dictionary [G.graph], [node] is
    [G.node] and [edge] the set of directed edges. *)
Record DiGraph := mkDiGraph {
  graph : GA;
  node : gmap N A;
  edge : gset (N * N)
}.

Definition nodes (G : DiGraph) : gset N := dom (node G).

Definition predecessors (G : DiGraph) (n : N) : gset N :=
  set_map fst (filter (λ e : N * N, e.2 = n) (edge G)).

Definition successors (G : DiGraph) (n : N) : gset N :=
  set_map snd (filter (λ e : N * N, e.1 = n) (edge G)).

Definition in_degree (G : DiGraph) (n : N) : nat := size (predecessors G n).
Definition out_degree (G : DiGraph) (n : N) : nat := size (successors G n).

(** [G.add_node(n, attr_dict=a)] for a node that is not in the graph
    (the only use the code makes of it). *)
Definition add_node (G : DiGraph) (n : N) (a : A) : DiGraph :=
  mkDiGraph (graph G) (<[n := a]> (node G)) (edge G).

(** [G.add_edge(u, v)] between two nodes of the graph. *)
Definition add_edge (G : DiGraph) (u v : N) : DiGraph :=
  mkDiGraph (graph G) (node G) ({[ (u, v) ]} ∪ edge G).

(** [G.remove_nodes_from(S)]: the nodes and their incident edges go. *)
Definition remove_nodes_from (G : DiGraph) (S : gset N) : DiGraph :=
  mkDiGraph (graph G)
    (filter (λ kv : N * A, kv.1 ∉ S) (node G))
    (filter (λ e : N * N, (e.1 ∉ S) ∧ (e.2 ∉ S)) (edge G)).

(** The representation invariant networkx maintains: an edge joins two
    nodes of the graph. *)
Definition DiGraph_wf (G : DiGraph) : Prop :=
  ∀ u v, (u, v) ∈ edge G → u ∈ nodes G ∧ v ∈ nodes G.

End DiGraph.
Arguments DiGraph N {_ _} A GA.

(** ** The splice graph and the k-mer graph *)

(** Attribute dictionary of a splice-graph node: [CHAIN_NODES] is present
    on a node that stands for a collapsed chain of exons. *)
Record SpliceAttrs := mkSpliceAttrs { CHAIN_NODES : option (list Exon) }.

Abbreviation SpliceGraph := (DiGraph Exon SpliceAttrs unit).

(** Attribute dictionary of a k-mer vertex. *)
Record NodeAttrs := mkNodeAttrs {
  NODE_SCORE : Qc;
  SMOOTH_FWD : Qc;
  SMOOTH_REV : Qc;
  SMOOTH_TMP : Qc
}.

#[global] Instance NodeAttrs_eq_dec : EqDecision NodeAttrs.
Proof. solve_decision. Defined.

(** [K.graph] of a k-mer graph. *)
Record KmerAttrs := mkKmerAttrs {
  attr_id_kmer_map : gmap Z (list Exon);
  attr_source : Z;
  attr_sink : Z
}.

Abbreviation KmerGraph := (DiGraph Z NodeAttrs KmerAttrs).

(** A partial path with its score, and a path of k-mer ids with its score. *)
Abbreviation PartialPath := (list Exon * Qc)%type.
Abbreviation KmerPath := (list Z * Qc)%type.

Definition SOURCE : Z := -1.
Definition SINK : Z := -2.

Definition get_start_end_nodes (G : SpliceGraph) : gset Exon * gset Exon :=
  (filter (λ n, in_degree G n = 0%nat) (nodes G),
   filter (λ n, out_degree G n = 0%nat) (nodes G)).

Definition init_node_attrs : NodeAttrs :=
  mkNodeAttrs 0%Qc 0%Qc 0%Qc 0%Qc.

(** [attrs[NODE_SCORE] += s] and the like, on the attribute dictionary of
    vertex [n]. *)
Definition add_NODE_SCORE (s : Qc) (a : NodeAttrs) : NodeAttrs :=
  mkNodeAttrs (NODE_SCORE a + s)%Qc (SMOOTH_FWD a) (SMOOTH_REV a) (SMOOTH_TMP a).
Definition add_SMOOTH_FWD (s : Qc) (a : NodeAttrs) : NodeAttrs :=
  mkNodeAttrs (NODE_SCORE a) (SMOOTH_FWD a + s)%Qc (SMOOTH_REV a) (SMOOTH_TMP a).
Definition add_SMOOTH_REV (s : Qc) (a : NodeAttrs) : NodeAttrs :=
  mkNodeAttrs (NODE_SCORE a) (SMOOTH_FWD a) (SMOOTH_REV a + s)%Qc (SMOOTH_TMP a).

Definition update_attrs (K : KmerGraph) (n : Z) (f : NodeAttrs → NodeAttrs)
  : KmerGraph :=
  mkDiGraph (graph K) (alter f n (node K)) (edge K).

(** [if n not in K: K.add_node(n, attr_dict=init_node_attrs())] *)
Definition touch_node (K : KmerGraph) (n : Z) : KmerGraph :=
  if decide (n ∈ nodes K) then K else add_node K n init_node_attrs.

(** The [for to_id in path[1:]] loop of [add_path]; it returns the graph
    and the vertex whose attributes [kmerattrs] is bound to at the end. *)
Fixpoint add_path_loop (K : KmerGraph) (from_id : Z) (rest : list Z)
    (score : Qc) : KmerGraph * Z :=
  match rest with
  | [] => (K, from_id)
  | to_id :: rest' =>
      let K1 := touch_node K to_id in
      let K2 := update_attrs K1 to_id (add_NODE_SCORE score) in
      let K3 := add_edge K2 from_id to_id in
      add_path_loop K3 to_id rest' score
  end.

Definition add_path (K : KmerGraph) (path : list Z) (score : Qc)
  : result KmerGraph :=
  match path with
  | [] => Raise IndexError
  | from_id :: rest =>
      let K1 := touch_node K from_id in
      let K2 := update_attrs K1 from_id (add_NODE_SCORE score) in
      let K3 := update_attrs K2 from_id (add_SMOOTH_REV score) in
      let '(K4, last_id) := add_path_loop K3 from_id rest score in
      Ok (update_attrs K4 last_id (add_SMOOTH_FWD score))
  end.

(** [for path, score in kmer_paths: add_path(K, path, score)] *)
Fixpoint add_paths (K : KmerGraph) (kmer_paths : list KmerPath)
  : result KmerGraph :=
  match kmer_paths with
  | [] => Ok K
  | (path, score) :: rest => K' ← add_path K path score; add_paths K' rest
  end.

(** [kmer_hash[key].add(kmer_id)] on a [defaultdict] of sets. *)
Definition hash_add (kmer_hash : gmap (list Exon) (gset Z))
    (key : list Exon) (kmer_id : Z) : gmap (list Exon) (gset Z) :=
  <[key := {[kmer_id]} ∪ default ∅ (kmer_hash !! key)]> kmer_hash.

Definition hash_kmers (id_kmer_map : gmap Z (list Exon)) (k ksmall : Z)
  : gmap (list Exon) (gset Z) :=
  foldl (λ kmer_hash '(kmer_id, kmer),
           foldl (λ kmer_hash i,
                    hash_add kmer_hash (Py.slice kmer i (i + ksmall)) kmer_id)
                 kmer_hash (Py.xrange 0 (k - (ksmall - 1))))
        ∅ (map_to_list id_kmer_map).

(** The generator [find_short_path_kmers], consumed to the end as
    [create_kmer_graph] does with [list(...)]. *)
Definition find_short_path_kmers (kmer_hash : gmap (list Exon) (gset Z))
    (K : KmerGraph) (path : list Exon) (score : Qc)
  : result (list KmerPath) :=
  match kmer_hash !! path with
  | None => Ok []
  | Some ids =>
      matching_kmers ← mapM (λ kmer_id,
          attrs ← Py.getitem (node K) kmer_id;
          Ok (kmer_id, NODE_SCORE attrs)) (elements ids);
      let total_score := Py.sum (matching_kmers.*2) in
      mapM (λ '(kmer_id, kmer_score),
          frac ← Py.div kmer_score total_score;
          Ok ([kmer_id], (score * frac)%Qc)) matching_kmers
  end.

(** *** [clip_dangling_ends] *)

(** The variables of the [while] loop. *)
Record ClipState := mkClipState {
  clip_K : KmerGraph;
  test_nodes : gset Z;
  clip_nodes : gset Z;
  clip_score : Qc
}.

(** A vertex the [for n in test_nodes] loop puts in [new_clip_nodes]. *)
Definition dangling (K : KmerGraph) (n : Z) : Prop :=
  n ≠ attr_source (graph K) ∧ n ≠ attr_sink (graph K) ∧
  (in_degree K n = 0%nat ∨ out_degree K n = 0%nat).

#[global] Instance dangling_dec K n : Decision (dangling K n).
Proof. unfold dangling. apply _. Defined.

(** [K.node[n][NODE_SCORE]] of a vertex of the graph. *)
Definition score_of (K : KmerGraph) (n : Z) : Qc :=
  from_option NODE_SCORE 0%Qc (node K !! n).

(** One iteration of the [while] loop. *)
Definition clip_step (st : ClipState) : ClipState :=
  let K := clip_K st in
  let new_clip_nodes := filter (dangling K) (test_nodes st) in
  let new_test_nodes : gset Z :=
    set_bind (λ n, if decide (in_degree K n = 0%nat)
                   then successors K n else predecessors K n)
             new_clip_nodes in
  mkClipState
    (remove_nodes_from K new_clip_nodes)
    (new_test_nodes ∖ new_clip_nodes)
    (clip_nodes st ∪ new_clip_nodes)
    (clip_score st + Py.sum (score_of K <$> elements new_clip_nodes))%Qc.

(** [while len(test_nodes) > 0: ...], run for at most [fuel] iterations. *)
Fixpoint clip_loop (fuel : nat) (st : ClipState) : ClipState :=
  match fuel with
  | O => st
  | S fuel' =>
      if decide (test_nodes st = ∅) then st
      else clip_loop fuel' (clip_step st)
  end.

(** Every iteration but the last removes a vertex, so one iteration more
    than there are vertices is enough ([clip_dangling_ends_exits]). *)
Definition clip_dangling_ends (K : KmerGraph) : KmerGraph * gset Z * Qc :=
  let st := clip_loop (S (size (nodes K)))
              (mkClipState K (nodes K) ∅ 0%Qc) in
  (clip_K st, clip_nodes st, clip_score st).

(** *** [create_kmer_graph] *)

(** [get_kmers(path, k)], the windows of [k] nodes of [path], in order. *)
Definition get_kmers (path : list Exon) (k : Z) : list (list Exon) :=
  (λ i, Py.slice path i (i + k))
    <$> Py.xrange 0 (Z.of_nat (length path) - (k - 1)).

(** The variables of the first loop of [create_kmer_graph]. *)
Record KmerTables := mkKmerTables {
  kmer_id_map : gmap (list Exon) Z;
  id_kmer_map : gmap Z (list Exon);
  kmer_paths : list KmerPath;
  current_id : Z;
  short_partial_path_dict : gmap nat (list PartialPath)
}.

Definition empty_tables : KmerTables := mkKmerTables ∅ ∅ [] 0 ∅.

(** The body of [for kmer in kmers]: look the k-mer up, give it the next
    id when it is new, and append its id to [kmerpath]. *)
Definition intern_kmer (st : KmerTables * list Z) (kmer : list Exon)
  : KmerTables * list Z :=
  let '(t, kmerpath) := st in
  match kmer_id_map t !! kmer with
  | None =>
      (mkKmerTables (<[kmer := current_id t]> (kmer_id_map t))
                    (<[current_id t := kmer]> (id_kmer_map t))
                    (kmer_paths t) (current_id t + 1)
                    (short_partial_path_dict t),
       kmerpath ++ [current_id t])
  | Some kmer_id => (t, kmerpath ++ [kmer_id])
  end.

(** The k-mers a path that is not deferred is cut into. *)
Definition path_kmers (path : list Exon) (k : Z) : list (list Exon) :=
  if Z.of_nat (length path) <? k then [path] else get_kmers path k.

(** The body of [for path, score in partial_paths]. *)
Definition convert_path (start_nodes end_nodes : gset Exon) (k : Z)
    (t : KmerTables) (p : PartialPath) : result KmerTables :=
  let '(path, score) := p in
  first ← Py.index path 0;
  let is_start := bool_decide (first ∈ start_nodes) in
  last ← Py.index path (-1);
  let is_end := bool_decide (last ∈ end_nodes) in
  let full_length := is_start && is_end in
  if (Z.of_nat (length path) <? k) && negb full_length then
    let bucket := default [] (short_partial_path_dict t !! length path) in
    Ok (mkKmerTables (kmer_id_map t) (id_kmer_map t) (kmer_paths t)
          (current_id t)
          (<[length path := bucket ++ [(path, score)]]>
             (short_partial_path_dict t)))
  else
    let kmerpath := if is_start then [SOURCE] else [] in
    let '(t', kmerpath) :=
      foldl intern_kmer (t, kmerpath) (path_kmers path k) in
    let kmerpath := if is_end then kmerpath ++ [SINK] else kmerpath in
    Ok (mkKmerTables (kmer_id_map t') (id_kmer_map t')
          (kmer_paths t' ++ [(kmerpath, score)]) (current_id t')
          (short_partial_path_dict t')).

Fixpoint convert_paths (start_nodes end_nodes : gset Exon) (k : Z)
    (t : KmerTables) (partial_paths : list PartialPath)
  : result KmerTables :=
  match partial_paths with
  | [] => Ok t
  | p :: rest =>
      t' ← convert_path start_nodes end_nodes k t p;
      convert_paths start_nodes end_nodes k t' rest
  end.

(** The body of [for path, score in short_partial_paths]; the state is
    [(kmer_paths, lost_paths)]. *)
Definition resolve_short_path (kmer_hash : gmap (list Exon) (gset Z))
    (K : KmerGraph) (acc : list KmerPath * list PartialPath)
    (p : PartialPath) : result (list KmerPath * list PartialPath) :=
  let '(kmer_paths, lost_paths) := acc in
  let '(path, score) := p in
  matching_paths ← find_short_path_kmers kmer_hash K path score;
  let lost_paths :=
    if decide (length matching_paths = 0%nat)
    then lost_paths ++ [(path, score)] else lost_paths in
  Ok (kmer_paths ++ matching_paths, lost_paths).

Fixpoint resolve_bucket (kmer_hash : gmap (list Exon) (gset Z))
    (K : KmerGraph) (acc : list KmerPath * list PartialPath)
    (short_partial_paths : list PartialPath)
  : result (list KmerPath * list PartialPath) :=
  match short_partial_paths with
  | [] => Ok acc
  | p :: rest =>
      acc' ← resolve_short_path kmer_hash K acc p;
      resolve_bucket kmer_hash K acc' rest
  end.

(** [for ksmall, short_partial_paths in short_partial_path_dict.iteritems()] *)
Fixpoint resolve_buckets (id_kmer_map : gmap Z (list Exon)) (k : Z)
    (K : KmerGraph) (acc : list KmerPath * list PartialPath)
    (buckets : list (nat * list PartialPath))
  : result (list KmerPath * list PartialPath) :=
  match buckets with
  | [] => Ok acc
  | (ksmall, short_partial_paths) :: rest =>
      let kmer_hash := hash_kmers id_kmer_map k (Z.of_nat ksmall) in
      acc' ← resolve_bucket kmer_hash K acc short_partial_paths;
      resolve_buckets id_kmer_map k K acc' rest
  end.

(** [K = nx.DiGraph()] with its three graph attributes set. *)
Definition new_kmer_graph (id_kmer_map : gmap Z (list Exon)) : KmerGraph :=
  mkDiGraph (mkKmerAttrs id_kmer_map SOURCE SINK) ∅ ∅.

(** The graph as it is before [clip_dangling_ends] is called, with the
    lost paths. *)
Definition build_kmer_graph (G : SpliceGraph)
    (partial_paths : list PartialPath) (k : Z)
  : result (KmerGraph * list PartialPath) :=
  let '(start_nodes, end_nodes) := get_start_end_nodes G in
  t ← convert_paths start_nodes end_nodes k empty_tables partial_paths;
  K ← add_paths (new_kmer_graph (id_kmer_map t)) (kmer_paths t);
  '(kmer_paths, lost_paths) ←
    resolve_buckets (id_kmer_map t) k K ([], [])
      (map_to_list (short_partial_path_dict t));
  K ← add_paths K kmer_paths;
  Ok (K, lost_paths).

Definition create_kmer_graph (G : SpliceGraph)
    (partial_paths : list PartialPath) (k : Z)
  : result (KmerGraph * list PartialPath * gset Z * Qc) :=
  '(K, lost_paths) ← build_kmer_graph G partial_paths k;
  let '(K, clip_nodes, clip_score) := clip_dangling_ends K in
  Ok (K, lost_paths, clip_nodes, clip_score).

(** *** [optimize_k] *)

(** [sum(len(path)*score for path,score in paths)] *)
Definition weighted_score (paths : list PartialPath) : Qc :=
  Py.sum ((λ p : PartialPath, Py.len p.1 * p.2)%Qc <$> paths).

(** The body of the [for k] loop up to and including the call of
    [logging.debug], whose arguments are computed whatever the logging
    level is.  It returns the graph and [score_sensitivity]. *)
Definition optimize_k_body (G : SpliceGraph)
    (partial_paths : list PartialPath) (total_score : Qc) (k : Z)
  : result (KmerGraph * Qc) :=
  '(K, lost_paths, clip_nodes, clip_score) ←
    create_kmer_graph G partial_paths k;
  let lost_path_score := weighted_score lost_paths in
  let total_lost_score := (lost_path_score + clip_score)%Qc in
  let kept_score := (total_score - total_lost_score)%Qc in
  score_sensitivity ← Py.div kept_score total_score;
  let hundred := Qc_of_Z 100 in
  _ ← Py.div (hundred * Qc_of_Z (Z.of_nat (size clip_nodes)))%Qc
             (Qc_of_Z (Z.of_nat (size (nodes K))));
  _ ← Py.div (hundred * clip_score)%Qc total_score;
  _ ← Py.div (hundred * Py.len lost_paths)%Qc (Py.len partial_paths);
  _ ← Py.div (hundred * lost_path_score)%Qc total_score;
  _ ← Py.div (hundred * total_lost_score)%Qc total_score;
  Ok (K, score_sensitivity).

(** The [for k in xrange(kmin, kmax+1)] loop.  [log] lists the values of
    [k] of the messages given to [logging.debug], one per iteration that
    got that far. *)
Fixpoint optimize_k_loop (G : SpliceGraph) (partial_paths : list PartialPath)
    (total_score sensitivity_threshold : Qc) (ks : list Z)
    (last : option (KmerGraph * Z)) (log : list Z)
  : list Z * result (option (KmerGraph * Z)) :=
  match ks with
  | [] => (log, Ok last)
  | k :: ks' =>
      match optimize_k_body G partial_paths total_score k with
      | Raise e => (log, Raise e)
      | Ok (K, score_sensitivity) =>
          if decide (score_sensitivity < sensitivity_threshold)%Qc
          then (log ++ [k], Ok last)
          else optimize_k_loop G partial_paths total_score
                 sensitivity_threshold ks' (Some (K, k)) (log ++ [k])
      end
  end.

Definition optimize_k_run (G : SpliceGraph) (partial_paths : list PartialPath)
    (kmin kmax : Z) (sensitivity_threshold : Qc)
  : list Z * result (option (KmerGraph * Z)) :=
  optimize_k_loop G partial_paths (weighted_score partial_paths)
    sensitivity_threshold (Py.xrange kmin (kmax + 1)) None [].

(** What [optimize_k] returns, and the values of [k] it evaluated. *)
Definition optimize_k (G : SpliceGraph) (partial_paths : list PartialPath)
    (kmin kmax : Z) (sensitivity_threshold : Qc)
  : result (option (KmerGraph * Z)) :=
  (optimize_k_run G partial_paths kmin kmax sensitivity_threshold).2.

Definition optimize_k_log (G : SpliceGraph) (partial_paths : list PartialPath)
    (kmin kmax : Z) (sensitivity_threshold : Qc) : list Z :=
  (optimize_k_run G partial_paths kmin kmax sensitivity_threshold).1.

(** *** [expand_path_chains] *)

(** [Exon(chain[0].start, chain[-1].end)] *)
Definition merge_chain (chain : list Exon) : result Exon :=
  c0 ← Py.index chain 0;
  c1 ← Py.index chain (-1);
  Ok (mkExon (start c0) (end_ c1)).

(** The [for v in path[1:]] loop and the statement after it. *)
Fixpoint collapse_loop (chain newpath rest : list Exon)
  : result (list Exon) :=
  match rest with
  | [] => e ← merge_chain chain; Ok (newpath ++ [e])
  | v :: rest' =>
      c1 ← Py.index chain (-1);
      if decide (end_ c1 ≠ start v) then
        e ← merge_chain chain;
        collapse_loop [v] (newpath ++ [e]) rest'
      else collapse_loop (chain ++ [v]) newpath rest'
  end.

(** The first loop: a node with a chain is replaced by its chain. *)
Fixpoint expand_chains (G : SpliceGraph) (path : list Exon)
  : result (list Exon) :=
  match path with
  | [] => Ok []
  | n :: rest =>
      nd ← Py.getitem (node G) n;
      let here := match CHAIN_NODES nd with Some c => c | None => [n] end in
      newpath ← expand_chains G rest;
      Ok (here ++ newpath)
  end.

Definition expand_path_chains (G : SpliceGraph) (strand : Strand)
    (path : list Exon) : result (list Exon) :=
  let path := if decide (strand = NEG_STRAND) then reverse path else path in
  path ← expand_chains G path;
  first ← Py.index path 0;
  collapse_loop [first] [] (Py.slice path 1 (Z.of_nat (length path))).

(** *** [assemble_transcript_graph] *)

Record PathInfo := mkPathInfo { info_score : Qc; info_path : list Exon }.

(** [path = list(id_kmer_map[kmer_path[1]])] followed by
    [path.extend(id_kmer_map[n][-1] for n in kmer_path[2:-1])] *)
Definition reconstruct_path (id_kmer_map : gmap Z (list Exon))
    (kmer_path : list Z) : result (list Exon) :=
  n1 ← Py.index kmer_path 1;
  path ← Py.getitem id_kmer_map n1;
  more ← mapM (λ n, kmer ← Py.getitem id_kmer_map n; Py.index kmer (-1))
              (Py.slice kmer_path 2 (-1));
  Ok (path ++ more).

(** Python's [max(x, y)] and [min(x, y)] on floats. *)
Definition py_max (x y : Qc) : Qc := if decide (x < y)%Qc then y else x.
Definition py_min (x y : Qc) : Qc := if decide (y < x)%Qc then y else x.

(** [max(len(x[0]) for x in partial_paths)] *)
Definition max_path_length (partial_paths : list PartialPath) : result Z :=
  match partial_paths with
  | [] => Raise ValueError
  | p :: rest =>
      Ok (foldl (λ m q : Z, if m <? q then q else m)
                (Z.of_nat (length p.1))
                ((λ q : PartialPath, Z.of_nat (length q.1)) <$> rest))
  end.

Section assemble.

(** The two collaborators, from the modules [smooth] and [path_finder]. *)
Variable smooth_graph : KmerGraph → KmerGraph.
Variable find_suboptimal_paths :
  KmerGraph → Z → Z → Qc → Z → list (list Z * Qc).

Definition assemble_transcript_graph (G : SpliceGraph) (strand : Strand)
    (partial_paths : list PartialPath) (user_kmax : Z)
    (ksensitivity fraction_major_path : Qc) (max_paths : Z)
  : result (list PathInfo) :=
  let ksensitivity := py_min (py_max 0%Qc ksensitivity) 1%Qc in
  let fraction_major_path := py_min (py_max 0%Qc fraction_major_path) 1%Qc in
  kmax ← (if 0 <? user_kmax then Ok user_kmax
          else max_path_length partial_paths);
  let kmin := if decide (0 < ksensitivity)%Qc then 1 else kmax in
  best ← optimize_k G partial_paths kmin kmax ksensitivity;
  match best with
  | None => Raise TypeError
  | Some (K, k) =>
      let K := smooth_graph K in
      let id_kmer_map := attr_id_kmer_map (graph K) in
      mapM (λ '(kmer_path, score),
              path ← reconstruct_path id_kmer_map kmer_path;
              path ← expand_path_chains G strand path;
              Ok (mkPathInfo score path))
           (find_suboptimal_paths K (attr_source (graph K))
              (attr_sink (graph K)) fraction_major_path max_paths)
  end.

End assemble.

(** ** Definitions used to state the properties *)

(** The collapse loop of [expand_path_chains] reads only [chain[0].start]
    and [chain[-1].end]: [merge_from s e rest] is what the loop appends to
    [newpath] when the current chain starts at [s] and ends at [e]. *)
Fixpoint merge_from (s e : Z) (rest : list Exon) : list Exon :=
  match rest with
  | [] => [mkExon s e]
  | v :: rest' =>
      if decide (e ≠ start v) then mkExon s e :: merge_from (start v) (end_ v) rest'
      else merge_from s (end_ v) rest'
  end.

(** A run of exons in which each one's end equals the next one's start. *)
Fixpoint touching_run (l : list Exon) : Prop :=
  match l with
  | e1 :: ((e2 :: _) as l') => end_ e1 = start e2 ∧ touching_run l'
  | _ => True
  end.

(** No exon's end equals the next exon's start. *)
Fixpoint no_touching (l : list Exon) : Prop :=
  match l with
  | e1 :: ((e2 :: _) as l') => end_ e1 ≠ start e2 ∧ no_touching l'
  | _ => True
  end.

(** Exons strictly increasing in coordinate. *)
Fixpoint strictly_increasing (l : list Exon) : Prop :=
  match l with
  | e1 :: ((e2 :: _) as l') => start e1 < start e2 ∧ strictly_increasing l'
  | _ => True
  end.

(** Every node of [path] is a node of [G] without a chain attribute. *)
Definition unchained (G : SpliceGraph) (path : list Exon) : Prop :=
  Forall (λ n, node G !! n = Some (mkSpliceAttrs None)) path.

(** Scenario D of the specification. *)
Definition scenario_D_path : list Exon :=
  [mkExon 100 120; mkExon 120 140; mkExon 140 160].

Definition scenario_D_graph : SpliceGraph :=
  mkDiGraph ()
    (list_to_map ((λ e, (e, mkSpliceAttrs None)) <$> scenario_D_path))
    {[ (mkExon 140 160, mkExon 120 140); (mkExon 120 140, mkExon 100 120) ]}.

(** [k] is accepted by the loop of [optimize_k] with graph [K]: the
    iteration completes and the sensitivity is not below the threshold. *)
Definition accepted (G : SpliceGraph) (partial_paths : list PartialPath)
    (threshold : Qc) (k : Z) (K : KmerGraph) : Prop :=
  ∃ s, optimize_k_body G partial_paths (weighted_score partial_paths) k
       = Ok (K, s) ∧ ¬ (s < threshold)%Qc.

(** [k] is rejected: the iteration completes with a sensitivity below the
    threshold. *)
Definition rejected (G : SpliceGraph) (partial_paths : list PartialPath)
    (threshold : Qc) (k : Z) : Prop :=
  ∃ K s, optimize_k_body G partial_paths (weighted_score partial_paths) k
         = Ok (K, s) ∧ (s < threshold)%Qc.

(** The value of [last] after the values [ks] have all been accepted. *)
Definition last_accepted (G : SpliceGraph) (partial_paths : list PartialPath)
    (ks : list Z) (last : option (KmerGraph * Z)) : option (KmerGraph * Z) :=
  foldl (λ last k,
           match optimize_k_body G partial_paths
                   (weighted_score partial_paths) k with
           | Ok (K, _) => Some (K, k)
           | Raise _ => last
           end) last ks.

(** A locus with an edge [x → a] and an isolated node [d]; the path [(a)]
    does not start at a leaf, the path [(d)] is full-length. *)
Definition fragment_graph : SpliceGraph :=
  mkDiGraph ()
    (list_to_map ((λ e, (e, mkSpliceAttrs None))
                    <$> [mkExon 0 10; mkExon 20 30; mkExon 40 50]))
    {[ (mkExon 0 10, mkExon 20 30) ]}.

Definition fragment_paths : list PartialPath :=
  [([mkExon 20 30], Qc_of_Z 3); ([mkExon 40 50], Qc_of_Z 1)].

Definition one_half : Qc := Q2Qc (1 # 2).

(** A locus [a → b] with a full-length path of score 0 and the short
    path [(a)] of score 1. *)
Definition zero_score_graph : SpliceGraph :=
  mkDiGraph ()
    (list_to_map ((λ e, (e, mkSpliceAttrs None))
                    <$> [mkExon 0 10; mkExon 20 30]))
    {[ (mkExon 0 10, mkExon 20 30) ]}.

Definition zero_score_paths : list PartialPath :=
  [([mkExon 0 10; mkExon 20 30], Qc_of_Z 0); ([mkExon 0 10], Qc_of_Z 1)].

(** A locus [a → b → c] covered by the two overlapping fragments [(a, b)]
    and [(b, c)]. *)
Definition overlap_graph : SpliceGraph :=
  mkDiGraph ()
    (list_to_map ((λ e, (e, mkSpliceAttrs None))
                    <$> [mkExon 0 10; mkExon 20 30; mkExon 40 50]))
    {[ (mkExon 0 10, mkExon 20 30); (mkExon 20 30, mkExon 40 50) ]}.

Definition overlap_paths : list PartialPath :=
  [([mkExon 0 10; mkExon 20 30], Qc_of_Z 1);
   ([mkExon 20 30; mkExon 40 50], Qc_of_Z 1)].

Definition three_quarters : Qc := Q2Qc (3 # 4).

(** The invariant of the [while] loop of [clip_dangling_ends]: the graph
    is well formed, the vertices still to test are vertices of the graph,
    and a vertex that is not to be tested again is not dangling. *)
Definition clip_inv (st : ClipState) : Prop :=
  DiGraph_wf (clip_K st)
  ∧ test_nodes st ⊆ nodes (clip_K st)
  ∧ ∀ n, n ∈ nodes (clip_K st) → n ∉ test_nodes st → ¬ dangling (clip_K st) n.

(** A small k-mer graph [SOURCE → 0 → 1 → SINK] with a dangling branch
    [1 → 2 → 3]: clipping removes 3, then 2. *)
Definition branch_graph : KmerGraph :=
  mkDiGraph (mkKmerAttrs ∅ SOURCE SINK)
    (list_to_map [(SOURCE, mkNodeAttrs (Qc_of_Z 1) 0%Qc 0%Qc 0%Qc);
                  (0, mkNodeAttrs (Qc_of_Z 1) 0%Qc 0%Qc 0%Qc);
                  (1, mkNodeAttrs (Qc_of_Z 1) 0%Qc 0%Qc 0%Qc);
                  (2, mkNodeAttrs (Qc_of_Z 2) 0%Qc 0%Qc 0%Qc);
                  (3, mkNodeAttrs (Qc_of_Z 3) 0%Qc 0%Qc 0%Qc);
                  (SINK, mkNodeAttrs (Qc_of_Z 1) 0%Qc 0%Qc 0%Qc)])
    {[ (SOURCE, 0); (0, 1); (1, SINK); (1, 2); (2, 3) ]}.

(** The invariant of the two dictionaries of [create_kmer_graph]: they are
    inverse to each other and the ids in use are [0, ..., current_id - 1]. *)
Definition tables_inv (t : KmerTables) : Prop :=
  (∀ kmer kmer_id,
     kmer_id_map t !! kmer = Some kmer_id ↔ id_kmer_map t !! kmer_id = Some kmer)
  ∧ (∀ kmer_id, is_Some (id_kmer_map t !! kmer_id) → 0 ≤ kmer_id < current_id t)
  ∧ 0 ≤ current_id t.

(** [ids] are the ids of [kmers] in the dictionary [id_kmer_map]. *)
Definition ids_of (id_kmer_map : gmap Z (list Exon))
    (kmers : list (list Exon)) (ids : list Z) : Prop :=
  Forall2 (λ kmer kmer_id, id_kmer_map !! kmer_id = Some kmer) kmers ids.

(** The tests of the first loop of [create_kmer_graph] on a path. *)
Definition is_start (start_nodes : gset Exon) (path : list Exon) : bool :=
  match head path with
  | Some n => bool_decide (n ∈ start_nodes)
  | None => false
  end.

Definition is_end (end_nodes : gset Exon) (path : list Exon) : bool :=
  match last path with
  | Some n => bool_decide (n ∈ end_nodes)
  | None => false
  end.

Definition full_length (start_nodes end_nodes : gset Exon)
    (path : list Exon) : bool :=
  is_start start_nodes path && is_end end_nodes path.

(** The path goes to [short_partial_path_dict]. *)
Definition deferred (start_nodes end_nodes : gset Exon) (k : Z)
    (path : list Exon) : bool :=
  (Z.of_nat (length path) <? k) && negb (full_length start_nodes end_nodes path).

(** [kmerpath] of a path that is not deferred, from the ids of its k-mers. *)
Definition kmerpath_of (start_nodes end_nodes : gset Exon)
    (path : list Exon) (ids : list Z) : list Z :=
  (if is_start start_nodes path then [SOURCE] else [])
  ++ ids ++ (if is_end end_nodes path then [SINK] else []).

(** [kp] is the entry of [kmer_paths] made for the partial path [p]. *)
Definition kmer_path_of (id_kmer_map : gmap Z (list Exon))
    (start_nodes end_nodes : gset Exon) (k : Z)
    (p : PartialPath) (kp : KmerPath) : Prop :=
  kp.2 = p.2
  ∧ ∃ ids, ids_of id_kmer_map (path_kmers p.1 k) ids
           ∧ kp.1 = kmerpath_of start_nodes end_nodes p.1 ids.

(** The pairs of consecutive elements of a path of k-mer ids: the edges
    [add_path] adds. *)
Fixpoint consecutive (l : list Z) : list (Z * Z) :=
  match l with
  | x :: ((y :: _) as l') => (x, y) :: consecutive l'
  | _ => []
  end.

(** The score [add_path] deposits on vertex [n]: [score] once for every
    occurrence of [n] in the path. *)
Definition credit (n : Z) (path : list Z) (score : Qc) : Qc :=
  Py.sum ((λ m, if decide (m = n) then score else 0%Qc) <$> path).

(** The score a list of k-mer paths deposits on vertex [n]. *)
Definition total_credit (n : Z) (kmer_paths : list KmerPath) : Qc :=
  Py.sum ((λ kp : KmerPath, credit n kp.1 kp.2) <$> kmer_paths).

(** A vertex with an edge from the source and an edge to the sink. *)
Definition protected (K : KmerGraph) (n : Z) : Prop :=
  (attr_source (graph K), n) ∈ edge K ∧ (n, attr_sink (graph K)) ∈ edge K.

(** How often the k-mer [w] occurs in a list of k-mers. *)
Definition occurrences (w : list Exon) (kmers : list (list Exon)) : Qc :=
  Qc_of_Z (Z.of_nat (length (filter (λ kmer, kmer = w) kmers))).

(** Scenario A of the specification: a locus [a → b → c], [b → d] and
    the two paths [(a, b, c)] and [(a, b, d)], which share the window
    [(a, b)]. *)
Definition scenario_A_graph : SpliceGraph :=
  mkDiGraph ()
    (list_to_map ((λ e, (e, mkSpliceAttrs None))
       <$> [mkExon 0 10; mkExon 20 30; mkExon 40 50; mkExon 60 70]))
    {[ (mkExon 0 10, mkExon 20 30); (mkExon 20 30, mkExon 40 50);
       (mkExon 20 30, mkExon 60 70) ]}.

Definition scenario_A_path1 : list Exon :=
  [mkExon 0 10; mkExon 20 30; mkExon 40 50].
Definition scenario_A_path2 : list Exon :=
  [mkExon 0 10; mkExon 20 30; mkExon 60 70].

(** Scenario B of the specification: a locus of one node, which is both
    a leaf source and a leaf sink. *)
Definition scenario_B_graph : SpliceGraph :=
  mkDiGraph () {[ mkExon 40 50 := mkSpliceAttrs None ]} ∅.

(** The windows of [kk] consecutive elements of a list, in order. *)
Fixpoint windows {A} (kk : nat) (l : list A) : list (list A) :=
  match l with
  | [] => []
  | _ :: l' =>
      if decide (length l < kk)%nat then [] else take kk l :: windows kk l'
  end.

(** Two k-mers of [kk] nodes that overlap in all but one position: the
    second is the first shifted by one node. *)
Definition overlapping (kk : nat) (u v : list Exon) : Prop :=
  length u = kk ∧ length v = kk ∧ drop 1 u = take (kk - 1) v.

(** Each k-mer of the list overlaps with the next one. *)
Fixpoint chained (kk : nat) (kmers : list (list Exon)) : Prop :=
  match kmers with
  | u :: ((v :: _) as rest) => overlapping kk u v ∧ chained kk rest
  | _ => True
  end.

(** What an edge of the k-mer graph joins: the source and a k-mer (or the
    sink), a k-mer and the sink, or two overlapping k-mers. *)
Definition edge_ok (id_kmer_map : gmap Z (list Exon)) (kk : nat)
    (e : Z * Z) : Prop :=
  (e.1 = SOURCE ∧ (e.2 = SINK ∨ is_Some (id_kmer_map !! e.2)))
  ∨ (is_Some (id_kmer_map !! e.1) ∧ e.2 = SINK)
  ∨ ∃ u v, id_kmer_map !! e.1 = Some u ∧ id_kmer_map !! e.2 = Some v
           ∧ overlapping kk u v.

(** The graph of Scenario A at [k = 2], with two scores. *)
Definition scenario_A_paths : list PartialPath :=
  [(scenario_A_path1, Qc_of_Z 2); (scenario_A_path2, Qc_of_Z 5)].

Definition scenario_A_built : KmerGraph * list PartialPath * gset Z * Qc :=
  Eval vm_compute in
    match create_kmer_graph scenario_A_graph scenario_A_paths 2 with
    | Ok r => r
    | Raise _ => (new_kmer_graph ∅, [], ∅, 0%Qc)
    end.

(** What the loop of [clip_dangling_ends], started on [K0], has done so
    far: the graph is [K0] without the clipped vertices, which are vertices
    of [K0] other than its sentinels, and the clipped score is the sum of
    their scores in [K0]. *)
Definition clip_acc (K0 : KmerGraph) (st : ClipState) : Prop :=
  clip_K st = remove_nodes_from K0 (clip_nodes st)
  ∧ clip_nodes st ⊆ nodes K0
  ∧ (∀ n, n ∈ clip_nodes st →
          n ≠ attr_source (graph K0) ∧ n ≠ attr_sink (graph K0))
  ∧ clip_score st = Py.sum (score_of K0 <$> elements (clip_nodes st)).

(** *** [connect_dangling_ends] *)

(** The list [edges_to_add], collected on the unchanged graph. *)
Definition edges_to_add (K : KmerGraph) : list (Z * Z) :=
  let source := attr_source (graph K) in
  let sink := attr_sink (graph K) in
  elements (nodes K) ≫= λ n,
    if decide (n = source ∨ n = sink) then []
    else (if decide (in_degree K n = 0%nat) then [(source, n)] else [])
         ++ (if decide (out_degree K n = 0%nat) then [(n, sink)] else []).

(** [connect_dangling_ends(K)], for a graph that has its source and its
    sink among its vertices (networkx would add a missing end of an edge
    as a vertex without attributes). *)
Definition connect_dangling_ends (K : KmerGraph) : KmerGraph :=
  foldl (λ K e, add_edge K e.1 e.2) K (edges_to_add K).

(** The graph [optimize_k] returns for the overlapping fragments with
    [kmin = 1], [kmax = 3] and the threshold 3/4. *)
Definition overlap_best : KmerGraph :=
  Eval vm_compute in
    match optimize_k overlap_graph overlap_paths 1 3 three_quarters with
    | Ok (Some (K, _)) => K
    | _ => new_kmer_graph ∅
    end.

(** A non-empty run of exons, given by its first exon and the others, and
    the exon [expand_path_chains] makes of it. *)
Definition run_list (run : Exon * list Exon) : list Exon := run.1 :: run.2.

Definition span (run : Exon * list Exon) : Exon :=
  mkExon (start run.1) (end_ (List.last run.2 run.1)).

(** The path as [expand_path_chains] reads it. *)
Definition oriented (strand : Strand) (path : list Exon) : list Exon :=
  if decide (strand = NEG_STRAND) then reverse path else path.


(** The part of the body of the [for k] loop that comes before the call of
    [logging.debug]: the graph and [score_sensitivity] as computed at
    [k]. *)
Definition score_sensitivity (G : SpliceGraph)
    (partial_paths : list PartialPath) (total_score : Qc) (k : Z)
  : result (KmerGraph * Qc) :=
  '(K, lost_paths, clip_nodes, clip_score) ←
    create_kmer_graph G partial_paths k;
  let lost_path_score := weighted_score lost_paths in
  let total_lost_score := (lost_path_score + clip_score)%Qc in
  let kept_score := (total_score - total_lost_score)%Qc in
  score_sensitivity ← Py.div kept_score total_score;
  Ok (K, score_sensitivity).

Definition two_fifths : Qc := Q2Qc (2 # 5).

(** A locus [x → a → y] with the single fragment [(a)], which touches no
    leaf of the graph. *)
Definition chain_graph : SpliceGraph :=
  mkDiGraph ()
    (list_to_map ((λ e, (e, mkSpliceAttrs None))
                    <$> [mkExon 0 10; mkExon 20 30; mkExon 40 50]))
    {[ (mkExon 0 10, mkExon 20 30); (mkExon 20 30, mkExon 40 50) ]}.

Definition chain_paths : list PartialPath := [([mkExon 20 30], Qc_of_Z 1)].

(** The overlapping fragments at [k = 1] and [k = 2]: the graph and the
    sensitivity of an iteration that completes. *)
Definition overlap_at_1 : KmerGraph * Qc :=
  Eval vm_compute in
    match optimize_k_body overlap_graph overlap_paths
            (weighted_score overlap_paths) 1 with
    | Ok r => r
    | Raise _ => (new_kmer_graph ∅, 0%Qc)
    end.

Definition overlap_at_2 : KmerGraph * Qc :=
  Eval vm_compute in
    match optimize_k_body overlap_graph overlap_paths
            (weighted_score overlap_paths) 2 with
    | Ok r => r
    | Raise _ => (new_kmer_graph ∅, 0%Qc)
    end.

Definition overlap_at_3 : KmerGraph * Qc :=
  Eval vm_compute in
    match score_sensitivity overlap_graph overlap_paths
            (weighted_score overlap_paths) 3 with
    | Ok r => r
    | Raise _ => (new_kmer_graph ∅, 1%Qc)
    end.

(** The fragment [(a)] of the locus [x → a → y] at [k = 1]. *)
Definition chain_at_1 : KmerGraph * Qc :=
  Eval vm_compute in
    match score_sensitivity chain_graph chain_paths
            (weighted_score chain_paths) 1 with
    | Ok r => r
    | Raise _ => (new_kmer_graph ∅, 1%Qc)
    end.


(** * Properties *)

(** ** Python sequences *)

Lemma index_0_cons {A} (x : A) l : Py.index (x :: l) 0 = Ok x.
Proof. reflexivity. Qed.

Lemma index_last_snoc {A} (l : list A) x : Py.index (l ++ [x]) (-1) = Ok x.
Proof.
  unfold Py.index. rewrite length_app. simpl length.
  replace (-1 <? 0) with true by reflexivity.
  replace (-1 + Z.of_nat (length l + 1)) with (Z.of_nat (length l)) by lia.
  destruct (Z.ltb_spec (Z.of_nat (length l)) 0) as [|_]; [lia|].
  rewrite Nat2Z.id, lookup_app_r, Nat.sub_diag by lia. reflexivity.
Qed.

Lemma index_0_inv {A} (l : list A) x :
  Py.index l 0 = Ok x → ∃ l', l = x :: l'.
Proof.
  destruct l as [|y l]; [discriminate|].
  intros [= ->]. by exists l.
Qed.

Lemma index_0_nil {A} : Py.index (@nil A) 0 = Raise IndexError.
Proof. reflexivity. Qed.

Lemma slice_tail {A} (l : list A) :
  Py.slice l 1 (Z.of_nat (length l)) = drop 1 l.
Proof.
  unfold Py.slice, Py.slice_index.
  destruct l as [|x l]; [reflexivity|].
  change (1 <? 0) with false. cbv beta iota.
  destruct (Z.ltb_spec (Z.of_nat (length (x :: l))) 0) as [|_]; [lia|].
  rewrite Z.min_id. simpl length.
  replace (Z.to_nat (Z.min 1 (Z.of_nat (S (length l))))) with 1%nat by lia.
  replace (Z.to_nat (Z.of_nat (S (length l)) - Z.min 1 (Z.of_nat (S (length l)))))
    with (length l) by lia.
  simpl. by rewrite drop_0, take_ge.
Qed.

Lemma getitem_Some `{Countable K} {V} (d : gmap K V) k v :
  d !! k = Some v → Py.getitem d k = Ok v.
Proof. unfold Py.getitem. by intros ->. Qed.

Lemma getitem_Ok `{Countable K} {V} (d : gmap K V) k v :
  Py.getitem d k = Ok v → d !! k = Some v.
Proof. unfold Py.getitem. by destruct (d !! k); intros [= ->]. Qed.

Lemma index_0_head {A} (l : list A) :
  Py.index l 0
  = match head l with Some x => Ok x | None => Raise IndexError end.
Proof. by destruct l. Qed.

Lemma index_last {A} (l : list A) :
  Py.index l (-1)
  = match last l with Some x => Ok x | None => Raise IndexError end.
Proof.
  destruct l as [|x l] using rev_ind; [reflexivity|].
  by rewrite index_last_snoc, last_snoc.
Qed.

(** ** [expand_path_chains] *)

Lemma merge_chain_bounds chain c0 c1 :
  Py.index chain 0 = Ok c0 → Py.index chain (-1) = Ok c1 →
  merge_chain chain = Ok (mkExon (start c0) (end_ c1)).
Proof. unfold merge_chain. by intros -> ->. Qed.

Lemma collapse_loop_merge_from rest : ∀ chain newpath c0 c1,
  Py.index chain 0 = Ok c0 → Py.index chain (-1) = Ok c1 →
  collapse_loop chain newpath rest
  = Ok (newpath ++ merge_from (start c0) (end_ c1) rest).
Proof.
  induction rest as [|v rest IH]; intros chain newpath c0 c1 H0 H1; simpl.
  - by rewrite (merge_chain_bounds _ _ _ H0 H1).
  - rewrite H1. simpl. destruct (decide (end_ c1 ≠ start v)) as [Hne|Heq].
    + rewrite (merge_chain_bounds _ _ _ H0 H1). simpl.
      rewrite (IH [v] _ v v) by reflexivity.
      by rewrite <- app_assoc.
    + apply index_0_inv in H0 as [l' ->].
      by rewrite (IH ((c0 :: l') ++ [v]) newpath c0 v)
        by (reflexivity || apply index_last_snoc).
Qed.

Lemma expand_chains_unchained G path :
  unchained G path → expand_chains G path = Ok path.
Proof.
  induction 1 as [|n path Hn _ IH]; [reflexivity|].
  simpl. unfold Py.getitem. rewrite Hn. simpl. by rewrite IH.
Qed.

(** The collapse applied to an exon sequence (after chain expansion). *)
Lemma expand_path_chains_pos G path l :
  expand_chains G path = Ok l →
  expand_path_chains G POS_STRAND path =
    match l with
    | [] => Raise IndexError
    | v :: rest => Ok (merge_from (start v) (end_ v) rest)
    end.
Proof.
  intros Hl. unfold expand_path_chains.
  destruct (decide (POS_STRAND = NEG_STRAND)); [discriminate|].
  rewrite Hl. simpl. destruct l as [|v rest]; [reflexivity|].
  rewrite slice_tail, index_0_cons. simpl drop. rewrite drop_0.
  exact (collapse_loop_merge_from rest [v] [] v v eq_refl eq_refl).
Qed.

Lemma expand_path_chains_neg G path :
  expand_path_chains G NEG_STRAND path
  = expand_path_chains G POS_STRAND (reverse path).
Proof.
  unfold expand_path_chains.
  destruct (decide (NEG_STRAND = NEG_STRAND)); [|done].
  by destruct (decide (POS_STRAND = NEG_STRAND)).
Qed.

Lemma merge_from_no_touching rest : ∀ v,
  no_touching (v :: rest) → merge_from (start v) (end_ v) rest = v :: rest.
Proof.
  induction rest as [|w rest IH]; intros [s e] Hnt; simpl.
  - reflexivity.
  - destruct Hnt as [Hne Hnt]. simpl in Hne.
    destruct (decide (e ≠ start w)); [|done].
    by rewrite IH.
Qed.

Lemma last_cons_default {A} (l : list A) : ∀ x d d',
  List.last (x :: l) d = List.last (x :: l) d'.
Proof.
  induction l as [|y l IH]; intros x d d'; [reflexivity|].
  change (List.last (y :: l) d = List.last (y :: l) d'). apply IH.
Qed.

Lemma last_cons_cons {A} (l : list A) x y d :
  List.last (x :: y :: l) d = List.last (y :: l) x.
Proof.
  change (List.last (y :: l) d = List.last (y :: l) x).
  apply last_cons_default.
Qed.

Lemma merge_from_touching rest : ∀ s v,
  touching_run (v :: rest) →
  merge_from s (end_ v) rest = [mkExon s (end_ (List.last rest v))].
Proof.
  induction rest as [|w rest IH]; intros s v Hrun.
  - reflexivity.
  - destruct Hrun as [Heq Hrun]. cbn [merge_from].
    destruct (decide (end_ v ≠ start w)); [done|].
    rewrite (IH s w Hrun). do 2 f_equal.
    destruct rest as [|z rest]; [reflexivity|].
    by rewrite last_cons_cons.
Qed.

Lemma merge_from_app l1 : ∀ s e v2 l2,
  end_ (List.last l1 (mkExon s e)) ≠ start v2 →
  merge_from s e (l1 ++ v2 :: l2)
  = merge_from s e l1 ++ merge_from (start v2) (end_ v2) l2.
Proof.
  induction l1 as [|w l1 IH]; intros s e v2 l2 Hne.
  - simpl in *. by destruct (decide (e ≠ start v2)).
  - cbn [merge_from app].
    assert (∀ s', end_ (List.last l1 (mkExon s' (end_ w))) ≠ start v2)
      as Hne'.
    { intros s'. destruct l1 as [|z l1]; [exact Hne|].
      by rewrite (last_cons_default l1 z _ (mkExon s e)). }
    destruct (decide (e ≠ start w)).
    + rewrite (IH (start w) (end_ w) v2 l2 (Hne' _)). reflexivity.
    + apply IH, Hne'.
Qed.

Lemma expand_chains_app G p1 : ∀ p2 l1 l2,
  expand_chains G p1 = Ok l1 → expand_chains G p2 = Ok l2 →
  expand_chains G (p1 ++ p2) = Ok (l1 ++ l2).
Proof.
  induction p1 as [|n p1 IH]; intros p2 l1 l2 H1 H2.
  - injection H1 as <-. exact H2.
  - simpl in *. destruct (Py.getitem (node G) n) as [nd|]; [|discriminate].
    simpl in *. destruct (expand_chains G p1) as [l1'|] eqn:E; [|discriminate].
    injection H1 as <-. rewrite (IH p2 l1' l2 eq_refl H2). simpl.
    by rewrite app_assoc.
Qed.

Lemma Exon_eta (v : Exon) : mkExon (start v) (end_ v) = v.
Proof. by destruct v. Qed.

(** A run of touching exons collapses into one exon. *)
Lemma expand_path_chains_run G path v rest :
  expand_chains G path = Ok (v :: rest) → touching_run (v :: rest) →
  expand_path_chains G POS_STRAND path
  = Ok [mkExon (start v) (end_ (List.last rest v))].
Proof.
  intros Hl Hrun. rewrite (expand_path_chains_pos _ _ _ Hl).
  by rewrite (merge_from_touching rest (start v) v Hrun).
Qed.

(** Two sequences that do not touch where they meet collapse separately. *)
Lemma expand_path_chains_split G p1 p2 v1 t1 v2 t2 r1 r2 :
  expand_chains G p1 = Ok (v1 :: t1) → expand_chains G p2 = Ok (v2 :: t2) →
  end_ (List.last t1 v1) ≠ start v2 →
  expand_path_chains G POS_STRAND p1 = Ok r1 →
  expand_path_chains G POS_STRAND p2 = Ok r2 →
  expand_path_chains G POS_STRAND (p1 ++ p2) = Ok (r1 ++ r2).
Proof.
  intros H1 H2 Hne Hr1 Hr2.
  rewrite (expand_path_chains_pos _ _ _ H1) in Hr1.
  rewrite (expand_path_chains_pos _ _ _ H2) in Hr2.
  injection Hr1 as <-. injection Hr2 as <-.
  rewrite (expand_path_chains_pos _ _ _ (expand_chains_app _ _ _ _ _ H1 H2)).
  simpl. f_equal. apply merge_from_app. by rewrite Exon_eta.
Qed.

Lemma scenario_D_unchained : unchained scenario_D_graph scenario_D_path.
Proof. repeat constructor. Qed.

(** C3, as stated, fails: the negative-strand path
    [(100,120),(120,140),(140,160)] is reversed and then returned as three
    exons; it is not collapsed into [(100,160)]. *)
Lemma scenario_D_not_collapsed :
  expand_path_chains scenario_D_graph NEG_STRAND scenario_D_path
    = Ok [mkExon 140 160; mkExon 120 140; mkExon 100 120]
  ∧ expand_path_chains scenario_D_graph NEG_STRAND scenario_D_path
    ≠ Ok [mkExon 100 160].
Proof.
  assert (expand_path_chains scenario_D_graph NEG_STRAND scenario_D_path
          = Ok [mkExon 140 160; mkExon 120 140; mkExon 100 120]) as E.
  { rewrite expand_path_chains_neg.
    rewrite (expand_path_chains_pos _ _ (reverse scenario_D_path)).
    - reflexivity.
    - apply expand_chains_unchained. repeat constructor. }
  split; [exact E|]. rewrite E. discriminate.
Qed.

(** C3 (amended): for a negative-strand input [expand_path_chains]
    reverses the node sequence before merging.  The path
    [(100,120),(120,140),(140,160)] with negative strand is reversed to
    [(140,160),(120,140),(100,120)] and returned as these three exons, as
    in that order no exon's end equals the next one's start; the same exons
    given in descending order are reversed and collapsed into the single
    exon [(100,160)].  The merge rule: a run of exons where each one's end
    equals the next one's start is merged into one exon, and sequences that
    do not touch where they meet are merged separately, so the merged runs
    are maximal. *)
Theorem expand_path_chains_negative_strand :
  (∀ G path,
     expand_path_chains G NEG_STRAND path
     = expand_path_chains G POS_STRAND (reverse path))
  ∧ (∀ G, unchained G scenario_D_path →
       expand_path_chains G NEG_STRAND scenario_D_path
         = Ok (reverse scenario_D_path)
       ∧ expand_path_chains G NEG_STRAND (reverse scenario_D_path)
         = Ok [mkExon 100 160])
  ∧ (∀ G path v rest,
       expand_chains G path = Ok (v :: rest) → touching_run (v :: rest) →
       expand_path_chains G POS_STRAND path
       = Ok [mkExon (start v) (end_ (List.last rest v))])
  ∧ (∀ G p1 p2 v1 t1 v2 t2 r1 r2,
       expand_chains G p1 = Ok (v1 :: t1) →
       expand_chains G p2 = Ok (v2 :: t2) →
       end_ (List.last t1 v1) ≠ start v2 →
       expand_path_chains G POS_STRAND p1 = Ok r1 →
       expand_path_chains G POS_STRAND p2 = Ok r2 →
       expand_path_chains G POS_STRAND (p1 ++ p2) = Ok (r1 ++ r2)).
Proof.
  split; [exact expand_path_chains_neg|].
  split; [|split; [exact expand_path_chains_run|exact expand_path_chains_split]].
  intros G HG. rewrite !expand_path_chains_neg. split.
  - rewrite (expand_path_chains_pos _ _ (reverse scenario_D_path));
      [reflexivity|].
    apply expand_chains_unchained.
    apply Forall_reverse, HG.
  - rewrite reverse_involutive.
    rewrite (expand_path_chains_pos _ _ scenario_D_path); [reflexivity|].
    by apply expand_chains_unchained.
Qed.

Lemma expand_path_chains_negative_strand_witness :
  (expand_path_chains scenario_D_graph NEG_STRAND scenario_D_path
     = Ok (reverse scenario_D_path)
   ∧ expand_path_chains scenario_D_graph NEG_STRAND (reverse scenario_D_path)
     = Ok [mkExon 100 160])
  ∧ expand_path_chains scenario_D_graph POS_STRAND
      [mkExon 100 120; mkExon 120 140]
    = Ok [mkExon 100 140]
  ∧ expand_path_chains scenario_D_graph POS_STRAND
      ([mkExon 120 140; mkExon 140 160] ++ [mkExon 100 120; mkExon 120 140])
    = Ok ([mkExon 120 160] ++ [mkExon 100 140]).
Proof.
  destruct expand_path_chains_negative_strand as (_ & HD & Hrun & Hsplit).
  split; [exact (HD scenario_D_graph scenario_D_unchained)|].
  split.
  - apply (Hrun scenario_D_graph _ (mkExon 100 120) [mkExon 120 140]).
    + reflexivity.
    + simpl. done.
  - apply (Hsplit scenario_D_graph _ _
             (mkExon 120 140) [mkExon 140 160]
             (mkExon 100 120) [mkExon 120 140]).
    + reflexivity.
    + reflexivity.
    + simpl. lia.
    + reflexivity.
    + reflexivity.
Defined.

(** C10: on the positive strand, a non-empty path of nodes without a chain
    attribute, strictly increasing and with no exon ending where the next
    one starts, is returned unchanged. *)
Theorem expand_path_chains_identity (G : SpliceGraph) (path : list Exon) :
  path ≠ [] → unchained G path → strictly_increasing path →
  no_touching path →
  expand_path_chains G POS_STRAND path = Ok path.
Proof.
  intros Hne HG _ Hnt.
  rewrite (expand_path_chains_pos _ _ path (expand_chains_unchained _ _ HG)).
  destruct path as [|v rest]; [done|].
  by rewrite merge_from_no_touching.
Qed.

Lemma expand_path_chains_identity_witness :
  expand_path_chains scenario_D_graph POS_STRAND
    [mkExon 100 120; mkExon 140 160]
  = Ok [mkExon 100 120; mkExon 140 160].
Proof.
  apply expand_path_chains_identity.
  - discriminate.
  - repeat constructor.
  - simpl. lia.
  - simpl. lia.
Defined.

(** ** [optimize_k] *)

Lemma xrange_nil a b : b ≤ a → Py.xrange a b = [].
Proof.
  intros Hle. unfold Py.xrange.
  by replace (Z.to_nat (b - a)) with 0%nat by lia.
Qed.

Lemma xrange_cons a b : a < b → Py.xrange a b = a :: Py.xrange (a + 1) b.
Proof.
  intros Hlt. unfold Py.xrange.
  replace (Z.to_nat (b - a)) with (S (Z.to_nat (b - (a + 1)))) by lia.
  cbn [seq fmap list_fmap]. f_equal; [lia|].
  rewrite <- seq_shift, <- list_fmap_compose.
  apply list_fmap_ext. intros _ i _. simpl. lia.
Qed.

Lemma xrange_split ks1 : ∀ a b k ks2,
  Py.xrange a b = ks1 ++ k :: ks2 →
  ks1 = Py.xrange a k ∧ ks2 = Py.xrange (k + 1) b ∧ a ≤ k < b.
Proof.
  induction ks1 as [|k1 ks1 IH]; intros a b k ks2 Hx.
  - destruct (Z.lt_ge_cases a b) as [Hlt|Hge].
    + rewrite xrange_cons in Hx by done. simpl in Hx.
      injection Hx as <- <-. rewrite xrange_nil by lia. split; [done|].
      split; [done|lia].
    + rewrite xrange_nil in Hx by done. discriminate.
  - destruct (Z.lt_ge_cases a b) as [Hlt|Hge].
    + rewrite xrange_cons in Hx by done. simpl in Hx.
      injection Hx as <- Hx. apply IH in Hx as (-> & -> & Hk).
      rewrite (xrange_cons a k) by lia. split; [done|]. split; [done|lia].
    + rewrite xrange_nil in Hx by done. discriminate.
Qed.

Lemma xrange_snoc a b : a ≤ b → Py.xrange a (b + 1) = Py.xrange a b ++ [b].
Proof.
  intros Hle. unfold Py.xrange.
  replace (Z.to_nat (b + 1 - a)) with (Z.to_nat (b - a) + 1)%nat by lia.
  rewrite seq_app, fmap_app. simpl. do 2 f_equal. lia.
Qed.

Lemma elem_of_xrange a b k : k ∈ Py.xrange a b ↔ a ≤ k < b.
Proof.
  unfold Py.xrange. rewrite list_elem_of_fmap. split.
  - intros (i & -> & Hi). apply elem_of_seq in Hi. lia.
  - intros Hk. exists (Z.to_nat (k - a)). split; [lia|].
    apply elem_of_seq. lia.
Qed.

Section optimize_k.
Context (G : SpliceGraph) (partial_paths : list PartialPath) (threshold : Qc).

Local Abbreviation body :=
  (optimize_k_body G partial_paths (weighted_score partial_paths)).
Local Abbreviation loop :=
  (optimize_k_loop G partial_paths (weighted_score partial_paths) threshold).

Lemma accepted_not_rejected k K :
  accepted G partial_paths threshold k K →
  ¬ rejected G partial_paths threshold k.
Proof.
  intros (s & Hs & Hge) (K' & s' & Hs' & Hlt).
  rewrite Hs in Hs'. by injection Hs' as <- <-.
Qed.

Lemma loop_accepted ks : ∀ last log,
  Forall (λ k, ∃ K, accepted G partial_paths threshold k K) ks →
  loop ks last log
  = (log ++ ks, Ok (last_accepted G partial_paths ks last)).
Proof.
  induction ks as [|k ks IH]; intros last log Hall; simpl.
  - by rewrite app_nil_r.
  - apply Forall_cons in Hall as [(K & s & Hs & Hge) Hall].
    unfold last_accepted. simpl. rewrite Hs.
    destruct (decide (s < threshold)%Qc); [done|].
    rewrite (IH _ _ Hall). by rewrite <- app_assoc.
Qed.

Lemma loop_rejected ks1 k ks2 last log :
  Forall (λ k, ∃ K, accepted G partial_paths threshold k K) ks1 →
  rejected G partial_paths threshold k →
  loop (ks1 ++ k :: ks2) last log
  = (log ++ ks1 ++ [k], Ok (last_accepted G partial_paths ks1 last)).
Proof.
  revert last log. induction ks1 as [|k1 ks1 IH]; intros last log Hall Hrej.
  - destruct Hrej as (K & s & Hs & Hlt). simpl. rewrite Hs.
    by destruct (decide (s < threshold)%Qc).
  - apply Forall_cons in Hall as [(K & s & Hs & Hge) Hall].
    unfold last_accepted. simpl. rewrite Hs.
    destruct (decide (s < threshold)%Qc); [done|].
    rewrite (IH _ _ Hall Hrej). by rewrite <- app_assoc.
Qed.

Lemma loop_raised ks1 k ks2 e last log :
  Forall (λ k, ∃ K, accepted G partial_paths threshold k K) ks1 →
  body k = Raise e →
  loop (ks1 ++ k :: ks2) last log = (log ++ ks1, Raise e).
Proof.
  revert last log. induction ks1 as [|k1 ks1 IH]; intros last log Hall He.
  - simpl. rewrite He. by rewrite app_nil_r.
  - apply Forall_cons in Hall as [(K & s & Hs & Hge) Hall].
    simpl. rewrite Hs.
    destruct (decide (s < threshold)%Qc); [done|].
    rewrite (IH _ _ Hall He). by rewrite <- app_assoc.
Qed.

(** The three ways the loop can end. *)
Lemma loop_cases ks :
  Forall (λ k, ∃ K, accepted G partial_paths threshold k K) ks
  ∨ ∃ ks1 k ks2, ks = ks1 ++ k :: ks2 ∧
      Forall (λ k, ∃ K, accepted G partial_paths threshold k K) ks1 ∧
      (rejected G partial_paths threshold k ∨ ∃ e, body k = Raise e).
Proof.
  induction ks as [|k ks IH]; [by left|].
  destruct (body k) as [[K s]|e] eqn:Hk.
  - destruct (decide (s < threshold)%Qc) as [Hlt|Hge].
    + right. exists [], k, ks. split; [done|]. split; [done|].
      left. by exists K, s.
    + assert (∃ K, accepted G partial_paths threshold k K) as Hacc
        by (exists K, s; done).
      destruct IH as [Hall|(ks1 & k' & ks2 & -> & Hall & Hk')].
      * left. by constructor.
      * right. exists (k :: ks1), k', ks2. split; [done|].
        split; [by constructor|done].
  - right. exists [], k, ks. split; [done|]. split; [done|].
    right. by exists e.
Qed.

Lemma last_accepted_snoc ks k K last :
  accepted G partial_paths threshold k K →
  last_accepted G partial_paths (ks ++ [k]) last = Some (K, k).
Proof.
  intros (s & Hs & _). unfold last_accepted. rewrite foldl_app. simpl.
  by rewrite Hs.
Qed.

End optimize_k.

(** X15: when the iteration at some evaluated [k] completes (the graph is
    built and all arguments of the log message are computed) with a
    sensitivity below the threshold, the loop stops there: the values of
    [k] evaluated are exactly [kmin, ..., k], every value before [k] was
    accepted, [k] is not returned, and the result is the pair of the graph
    and [k - 1] when [kmin < k], and [None] when [k = kmin]. *)
Theorem optimize_k_early_stop (G : SpliceGraph)
    (partial_paths : list PartialPath) (kmin kmax : Z) (threshold : Qc)
    (k : Z) (K : KmerGraph) (s : Qc) :
  k ∈ optimize_k_log G partial_paths kmin kmax threshold →
  optimize_k_body G partial_paths (weighted_score partial_paths) k
    = Ok (K, s) →
  (s < threshold)%Qc →
  optimize_k_log G partial_paths kmin kmax threshold = Py.xrange kmin (k + 1)
  ∧ (∀ k', k' ∈ optimize_k_log G partial_paths kmin kmax threshold → k' ≤ k)
  ∧ (∀ k', kmin ≤ k' < k → ∃ K', accepted G partial_paths threshold k' K')
  ∧ ∃ last,
      optimize_k G partial_paths kmin kmax threshold = Ok last
      ∧ (∀ K', last ≠ Some (K', k))
      ∧ (k = kmin → last = None)
      ∧ (kmin < k →
         ∃ K', accepted G partial_paths threshold (k - 1) K'
               ∧ last = Some (K', k - 1)).
Proof.
  intros Hin Hk Hlt.
  assert (rejected G partial_paths threshold k) as Hrej by (by exists K, s).
  unfold optimize_k_log, optimize_k, optimize_k_run in *.
  destruct (loop_cases G partial_paths threshold (Py.xrange kmin (kmax + 1)))
    as [Hall|(ks1 & k0 & ks2 & Hx & Hall & [Hrej0|[e He]])].
  - rewrite (loop_accepted _ _ _ _ _ _ Hall) in Hin. simpl in Hin.
    rewrite Forall_forall in Hall. destruct (Hall k Hin) as [K' HK'].
    by destruct (accepted_not_rejected _ _ _ _ _ HK').
  - rewrite Hx in *. rewrite (loop_rejected _ _ _ _ _ _ _ _ Hall Hrej0) in *.
    simpl in *. apply elem_of_app in Hin as [Hin|Hin].
    { rewrite Forall_forall in Hall. destruct (Hall k Hin) as [K' HK'].
      by destruct (accepted_not_rejected _ _ _ _ _ HK'). }
    apply list_elem_of_singleton in Hin as <-.
    apply xrange_split in Hx as (-> & -> & Hk0).
    rewrite <- xrange_snoc by lia. split; [done|].
    split; [intros k' Hk'; apply elem_of_xrange in Hk'; lia|].
    split.
    { intros k' Hk'. rewrite Forall_forall in Hall. apply Hall.
      by apply elem_of_xrange. }
    eexists. split; [reflexivity|].
    destruct (decide (k = kmin)) as [->|Hne].
    + rewrite xrange_nil by lia. simpl. split; [done|]. split; [done|lia].
    + assert (Py.xrange kmin k = Py.xrange kmin (k - 1) ++ [k - 1]) as Hsnoc.
      { rewrite <- xrange_snoc by lia. f_equal. lia. }
      rewrite Hsnoc in *.
      apply Forall_app in Hall as [_ Hlast].
      apply Forall_singleton in Hlast as [K' HK'].
      rewrite (last_accepted_snoc _ _ _ _ _ K' _ HK').
      split; [intros K'' HK''; injection HK''; lia|]. split; [done|].
      intros _. by exists K'.
  - rewrite Hx in *. rewrite (loop_raised _ _ _ _ _ _ _ _ _ Hall He) in Hin.
    simpl in Hin. rewrite Forall_forall in Hall.
    destruct (Hall k Hin) as [K' HK'].
    by destruct (accepted_not_rejected _ _ _ _ _ HK').
Qed.

Lemma optimize_k_early_stop_witness :
  optimize_k_log overlap_graph overlap_paths 1 3 three_quarters
    = Py.xrange 1 (2 + 1)
  ∧ ∃ K', optimize_k overlap_graph overlap_paths 1 3 three_quarters
          = Ok (Some (K', 2 - 1)).
Proof.
  destruct (optimize_k_body overlap_graph overlap_paths
              (weighted_score overlap_paths) 2) as [[K s]|e] eqn:E;
    [|vm_compute in E; discriminate].
  assert (s < three_quarters)%Qc as Hs.
  { vm_compute in E. injection E as _ <-. reflexivity. }
  assert (2 ∈ optimize_k_log overlap_graph overlap_paths 1 3 three_quarters)
    as Hin.
  { replace (optimize_k_log overlap_graph overlap_paths 1 3 three_quarters)
      with [1; 2] by (vm_compute; reflexivity).
    apply list_elem_of_In. simpl. tauto. }
  destruct (optimize_k_early_stop _ _ _ _ _ _ _ _ Hin E Hs)
    as (Hlog & _ & _ & last & Hlast & _ & _ & Hprev).
  split; [exact Hlog|].
  destruct Hprev as (K' & _ & ->); [lia|]. by exists K'.
Defined.

Lemma optimize_k_single_iteration (G : SpliceGraph)
    (partial_paths : list PartialPath) (k : Z) (threshold : Qc)
    (K : KmerGraph) (s : Qc) :
  optimize_k_body G partial_paths (weighted_score partial_paths) k
    = Ok (K, s) →
  optimize_k_run G partial_paths k k threshold
  = ([k], Ok (if decide (s < threshold)%Qc then None else Some (K, k))).
Proof.
  intros Hk. unfold optimize_k_run.
  rewrite xrange_cons, xrange_nil by lia. simpl. rewrite Hk.
  by destruct (decide (s < threshold)%Qc).
Qed.

(** C1 fails on the code: when the sensitivity at [kmin] is below the
    threshold, [optimize_k] returns [None] without raising, and
    [assemble_transcript_graph], which unpacks the result as a pair, then
    fails with a [TypeError]. *)
Theorem optimize_k_unmet_threshold :
  (∀ G partial_paths kmin kmax threshold,
     kmin ≤ kmax → rejected G partial_paths threshold kmin →
     optimize_k G partial_paths kmin kmax threshold = Ok None)
  ∧ rejected fragment_graph fragment_paths one_half 1
  ∧ optimize_k fragment_graph fragment_paths 1 1 one_half = Ok None
  ∧ ∀ smooth_graph find_suboptimal_paths strand fraction_major_path
      max_paths,
      assemble_transcript_graph smooth_graph find_suboptimal_paths
        fragment_graph strand fragment_paths 1 one_half
        fraction_major_path max_paths
      = Raise TypeError.
Proof.
  split; [|split; [|split]].
  - intros G partial_paths kmin kmax threshold Hle Hrej.
    unfold optimize_k, optimize_k_run.
    rewrite xrange_cons by lia.
    by rewrite (loop_rejected G partial_paths threshold [] kmin
                  (Py.xrange (kmin + 1) (kmax + 1)) None []
                  (Forall_nil_2 _) Hrej : optimize_k_loop _ _ _ _
                    (kmin :: _) _ _ = _).
  - destruct (optimize_k_body fragment_graph fragment_paths
                (weighted_score fragment_paths) 1) as [[K s]|e] eqn:E;
      [|vm_compute in E; discriminate].
    exists K, s. split; [exact E|].
    vm_compute in E. injection E as _ <-. reflexivity.
  - vm_compute. reflexivity.
  - intros. vm_compute. reflexivity.
Qed.

Lemma optimize_k_unmet_threshold_witness :
  optimize_k fragment_graph fragment_paths 1 3 one_half = Ok None.
Proof.
  destruct optimize_k_unmet_threshold as (Hgen & Hrej & _).
  apply Hgen; [lia|exact Hrej].
Defined.

(** ** [find_short_path_kmers] *)

Lemma mapM_zero_scores (K : KmerGraph) (ids : list Z) :
  (∀ kmer_id, kmer_id ∈ ids →
     ∃ a, node K !! kmer_id = Some a ∧ NODE_SCORE a = 0%Qc) →
  mapM (λ kmer_id,
          attrs ← Py.getitem (node K) kmer_id;
          Ok (kmer_id, NODE_SCORE attrs)) ids
  = Ok ((λ kmer_id, (kmer_id, 0%Qc)) <$> ids).
Proof.
  induction ids as [|kmer_id ids IH]; intros Hz; [reflexivity|].
  cbn [mapM]. destruct (Hz kmer_id) as (a & Ha & Hs); [by left|].
  rewrite (getitem_Some _ _ _ Ha). cbn [mbind result_bind].
  rewrite Hs.
  rewrite IH by (intros ??; apply Hz; by right). reflexivity.
Qed.

Lemma sum_zero_scores (ids : list Z) :
  Py.sum (((λ kmer_id : Z, (kmer_id, 0%Qc)) <$> ids).*2) = 0%Qc.
Proof.
  induction ids as [|kmer_id ids IH]; [reflexivity|].
  cbn [fmap list_fmap Py.sum foldr snd]. fold (Py.sum) in *.
  change (0 + Py.sum (((λ kmer_id : Z, (kmer_id, 0%Qc)) <$> ids).*2) = 0)%Qc.
  by rewrite IH.
Qed.

(** C7 fails on the code: when the match set of a short path is not empty
    and every matching k-mer has score zero, [find_short_path_kmers]
    divides by the zero total and raises [ZeroDivisionError]; so does
    [create_kmer_graph] on a locus [a → b] with the path [(a, b)] of score
    0 and the short path [(a)], at [k = 2]. *)
Theorem find_short_path_kmers_zero_total :
  (∀ kmer_hash (K : KmerGraph) path score ids,
     kmer_hash !! path = Some ids → ids ≠ ∅ →
     (∀ kmer_id, kmer_id ∈ ids →
        ∃ a, node K !! kmer_id = Some a ∧ NODE_SCORE a = 0%Qc) →
     find_short_path_kmers kmer_hash K path score = Raise ZeroDivisionError)
  ∧ create_kmer_graph zero_score_graph zero_score_paths 2
    = Raise ZeroDivisionError.
Proof.
  split; [|vm_compute; reflexivity].
  intros kmer_hash K path score ids Hpath Hne Hz.
  unfold find_short_path_kmers. rewrite Hpath.
  rewrite mapM_zero_scores
    by (intros kmer_id Hin; apply Hz; by apply elem_of_elements).
  cbn [mbind result_bind]. rewrite sum_zero_scores.
  destruct (elements ids) as [|kmer_id l] eqn:El.
  - apply elements_empty_inv in El. by apply leibniz_equiv in El.
  - reflexivity.
Qed.

Lemma find_short_path_kmers_zero_total_witness :
  find_short_path_kmers {[ [mkExon 0 10] := {[ 0 ]} ]}
    (mkDiGraph (mkKmerAttrs {[ 0 := [mkExon 0 10; mkExon 20 30] ]} SOURCE SINK)
               {[ 0 := init_node_attrs ]} ∅)
    [mkExon 0 10] (Qc_of_Z 1)
  = Raise ZeroDivisionError.
Proof.
  destruct find_short_path_kmers_zero_total as [Hgen _].
  apply (Hgen _ _ _ _ {[ 0 ]}).
  - reflexivity.
  - apply (bool_decide_unpack _). vm_compute. reflexivity.
  - intros kmer_id Hin. apply elem_of_singleton in Hin as ->.
    exists init_node_attrs. split; reflexivity.
Defined.

(** ** [networkx.DiGraph] *)

Section DiGraph_facts.
Context {N : Type} {EqN : EqDecision N} {CountN : Countable N} {A GA : Type}.
Implicit Types (G : DiGraph N A GA) (n u v : N) (S : gset N).

Lemma elem_of_predecessors G u n : u ∈ predecessors G n ↔ (u, n) ∈ edge G.
Proof.
  unfold predecessors. rewrite elem_of_map. split.
  - intros ([u' n'] & -> & [Hn Hin]%elem_of_filter). simpl in *. by subst.
  - intros Hin. exists (u, n). split; [done|]. by apply elem_of_filter.
Qed.

Lemma elem_of_successors G n v : v ∈ successors G n ↔ (n, v) ∈ edge G.
Proof.
  unfold successors. rewrite elem_of_map. split.
  - intros ([n' v'] & -> & [Hn Hin]%elem_of_filter). simpl in *. by subst.
  - intros Hin. exists (n, v). split; [done|]. by apply elem_of_filter.
Qed.

Lemma in_degree_0 G n : in_degree G n = 0%nat ↔ ∀ u, (u, n) ∉ edge G.
Proof.
  unfold in_degree. rewrite size_empty_iff. split.
  - intros He u Hu. apply elem_of_predecessors, He in Hu.
    by apply not_elem_of_empty in Hu.
  - intros Hno. apply elem_of_equiv_empty. intros u Hu.
    apply elem_of_predecessors in Hu. by apply (Hno u).
Qed.

Lemma out_degree_0 G n : out_degree G n = 0%nat ↔ ∀ v, (n, v) ∉ edge G.
Proof.
  unfold out_degree. rewrite size_empty_iff. split.
  - intros He v Hv. apply elem_of_successors, He in Hv.
    by apply not_elem_of_empty in Hv.
  - intros Hno. apply elem_of_equiv_empty. intros v Hv.
    apply elem_of_successors in Hv. by apply (Hno v).
Qed.

Lemma in_degree_pos G n : (0 < in_degree G n)%nat ↔ ∃ u, (u, n) ∈ edge G.
Proof.
  split.
  - intros [u Hu]%size_pos_elem_of. exists u. by apply elem_of_predecessors.
  - intros [u Hu]. destruct (in_degree G n) eqn:E; [|lia].
    by destruct (proj1 (in_degree_0 G n) E u).
Qed.

Lemma out_degree_pos G n : (0 < out_degree G n)%nat ↔ ∃ v, (n, v) ∈ edge G.
Proof.
  split.
  - intros [v Hv]%size_pos_elem_of. exists v. by apply elem_of_successors.
  - intros [v Hv]. destruct (out_degree G n) eqn:E; [|lia].
    by destruct (proj1 (out_degree_0 G n) E v).
Qed.

Lemma nodes_remove_nodes_from G S :
  nodes (remove_nodes_from G S) = nodes G ∖ S.
Proof.
  unfold nodes. simpl. apply dom_filter_L. intros n.
  rewrite elem_of_difference, elem_of_dom. unfold is_Some. naive_solver.
Qed.

Lemma elem_of_edge_remove_nodes_from G S u v :
  (u, v) ∈ edge (remove_nodes_from G S)
  ↔ (u, v) ∈ edge G ∧ (u ∉ S) ∧ (v ∉ S).
Proof. simpl. rewrite elem_of_filter. simpl. tauto. Qed.

Lemma remove_nodes_from_wf G S :
  DiGraph_wf G → DiGraph_wf (remove_nodes_from G S).
Proof.
  intros Hwf u v (Huv & Hu & Hv)%elem_of_edge_remove_nodes_from.
  rewrite nodes_remove_nodes_from. destruct (Hwf u v Huv). set_solver.
Qed.

Lemma remove_nodes_from_empty G : remove_nodes_from G ∅ = G.
Proof.
  destruct G as [g nd ed]. unfold remove_nodes_from. simpl. f_equal.
  - apply map_filter_id. intros ???. set_solver.
  - apply set_eq. intros e. rewrite elem_of_filter. set_solver.
Qed.

#[global] Instance DiGraph_wf_dec G : Decision (DiGraph_wf G).
Proof.
  refine (cast_if (decide (set_Forall
            (λ e : N * N, e.1 ∈ nodes G ∧ e.2 ∈ nodes G) (edge G)))).
  - intros u v Huv. exact (s (u, v) Huv).
  - intros Hwf. apply n. intros [u v] Huv. exact (Hwf u v Huv).
Defined.

End DiGraph_facts.

(** ** [clip_dangling_ends] *)

Lemma clip_step_graph st : graph (clip_K (clip_step st)) = graph (clip_K st).
Proof. reflexivity. Qed.

Lemma clip_step_inv st : clip_inv st → clip_inv (clip_step st).
Proof.
  intros (Hwf & Hsub & Hok). unfold clip_inv, clip_step. cbn [clip_K test_nodes].
  set (K := clip_K st) in *.
  set (new_clip := filter (dangling K) (test_nodes st)).
  set (new_test := set_bind _ new_clip).
  split; [by apply remove_nodes_from_wf|].
  rewrite nodes_remove_nodes_from. split.
  - intros n [Hn Hnc]%elem_of_difference. apply elem_of_difference.
    split; [|done]. apply elem_of_set_bind in Hn as (m & Hm & Hn).
    destruct (decide (in_degree K m = 0%nat)).
    + apply elem_of_successors in Hn. by destruct (Hwf _ _ Hn).
    + apply elem_of_predecessors in Hn. by destruct (Hwf _ _ Hn).
  - intros n [Hn Hnc]%elem_of_difference Hnt.
    assert (n ∉ new_test) as Hnt'
      by (intros ?; apply Hnt, elem_of_difference; done).
    assert (¬ dangling K n) as HnK.
    { destruct (decide (n ∈ test_nodes st)) as [Hin|Hnin]; [|by apply Hok].
      intros Hd. apply Hnc, elem_of_filter. done. }
    intros (Hsrc & Hsnk & Hdeg). apply HnK.
    split; [done|]. split; [done|].
    destruct Hdeg as [Hin|Hout]; [left|right].
    + apply in_degree_0. intros u Hu.
      destruct (decide (u ∈ new_clip)) as [Huc|Huc].
      * apply Hnt'. apply elem_of_set_bind. exists u. split; [done|].
        apply elem_of_filter in Huc as [(_ & _ & [Hu0|Hu0]) _].
        -- rewrite decide_True by done. by apply elem_of_successors.
        -- by destruct (proj1 (out_degree_0 K u) Hu0 n).
      * apply (proj1 (in_degree_0 _ n) Hin u).
        by apply elem_of_edge_remove_nodes_from.
    + apply out_degree_0. intros v Hv.
      destruct (decide (v ∈ new_clip)) as [Hvc|Hvc].
      * apply Hnt'. apply elem_of_set_bind. exists v. split; [done|].
        apply elem_of_filter in Hvc as [(_ & _ & Hv0) _].
        destruct (decide (in_degree K v = 0%nat)) as [Hv1|Hv1].
        -- by destruct (proj1 (in_degree_0 K v) Hv1 n).
        -- by apply elem_of_predecessors.
      * apply (proj1 (out_degree_0 _ n) Hout v).
        by apply elem_of_edge_remove_nodes_from.
Qed.

Lemma clip_loop_inv fuel : ∀ st, clip_inv st → clip_inv (clip_loop fuel st).
Proof.
  induction fuel as [|fuel IH]; intros st Hinv; simpl; [done|].
  destruct (decide (test_nodes st = ∅)); [done|].
  by apply IH, clip_step_inv.
Qed.

Lemma clip_loop_graph fuel : ∀ st,
  graph (clip_K (clip_loop fuel st)) = graph (clip_K st).
Proof.
  induction fuel as [|fuel IH]; intros st; simpl; [done|].
  destruct (decide (test_nodes st = ∅)); [done|].
  by rewrite IH.
Qed.

(** The loop is left through its condition: the fuel is never used up. *)
Lemma clip_loop_exits fuel : ∀ st,
  clip_inv st →
  test_nodes st = ∅ ∨ (size (nodes (clip_K st)) < fuel)%nat →
  test_nodes (clip_loop fuel st) = ∅.
Proof.
  induction fuel as [|fuel IH]; intros st Hinv Hfuel; simpl.
  - destruct Hfuel; [done|lia].
  - destruct (decide (test_nodes st = ∅)) as [|Hne]; [done|].
    destruct Hfuel as [|Hfuel]; [done|].
    apply IH; [by apply clip_step_inv|].
    destruct Hinv as (Hwf & Hsub & Hok).
    unfold clip_step. cbn [clip_K test_nodes].
    set (new_clip := filter (dangling (clip_K st)) (test_nodes st)).
    destruct (decide (new_clip = ∅)) as [He|Hne'].
    + left. rewrite He. apply set_eq. intros n.
      rewrite elem_of_difference, elem_of_set_bind.
      split; [|by intros ?%not_elem_of_empty].
      by intros [(m & Hm%not_elem_of_empty & _) _].
    + right. rewrite nodes_remove_nodes_from.
      apply set_choose_L in Hne' as [m Hm].
      assert (m ∈ nodes (clip_K st)) as Hmn.
      { apply Hsub. by apply elem_of_filter in Hm as [_ ?]. }
      assert (nodes (clip_K st) ∖ new_clip ⊂ nodes (clip_K st)) as Hlt.
      { split; [set_solver|]. intros Hsub'.
        specialize (Hsub' m Hmn). set_solver. }
      apply subset_size in Hlt. lia.
Qed.

Lemma clip_initial_inv (K : KmerGraph) :
  DiGraph_wf K → clip_inv (mkClipState K (nodes K) ∅ 0%Qc).
Proof. intros Hwf. split; [done|]. split; [done|]. by intros n Hn []. Qed.

(** Nothing is dangling after [clip_dangling_ends]. *)
Lemma clip_dangling_ends_no_dangling (K : KmerGraph) :
  DiGraph_wf K →
  let K' := (clip_dangling_ends K).1.1 in
  DiGraph_wf K' ∧ graph K' = graph K ∧ ∀ n, n ∈ nodes K' → ¬ dangling K' n.
Proof.
  intros Hwf. unfold clip_dangling_ends. cbn [fst].
  set (st0 := mkClipState K (nodes K) ∅ 0%Qc).
  pose proof (clip_initial_inv K Hwf) as Hinv0. fold st0 in Hinv0.
  pose proof (clip_loop_inv (S (size (nodes K))) st0 Hinv0) as (Hwf' & _ & Hok).
  pose proof (clip_loop_exits (S (size (nodes K))) st0 Hinv0) as Hexit.
  rewrite Hexit in Hok by (right; simpl; lia).
  split; [done|]. split; [apply clip_loop_graph|].
  intros n Hn. apply Hok; [done|]. apply not_elem_of_empty.
Qed.

(** Clipping a graph in which nothing is dangling changes nothing. *)
Lemma clip_dangling_ends_noop (K : KmerGraph) :
  (∀ n, n ∈ nodes K → ¬ dangling K n) →
  clip_dangling_ends K = (K, ∅, 0%Qc).
Proof.
  intros Hok. unfold clip_dangling_ends. cbn [clip_loop].
  destruct (decide (test_nodes (mkClipState K (nodes K) ∅ 0%Qc) = ∅));
    [done|].
  assert (filter (dangling K) (nodes K) = ∅) as He.
  { apply set_eq. intros m. rewrite elem_of_filter.
    split; [|by intros ?%not_elem_of_empty]. intros [Hd Hm].
    by destruct (Hok m Hm). }
  assert (clip_step (mkClipState K (nodes K) ∅ 0%Qc)
          = mkClipState K ∅ ∅ 0%Qc) as Hstep.
  { unfold clip_step. cbn [clip_K test_nodes clip_nodes clip_score].
    rewrite He, remove_nodes_from_empty, elements_empty. by f_equal. }
  rewrite Hstep. by destruct (size (nodes K)).
Qed.

(** C2: after [clip_dangling_ends] every vertex of the graph other than
    the source and the sink has a predecessor and a successor in the graph,
    and clipping the result again removes nothing and gives the clipped
    score 0. *)
Theorem clip_dangling_ends_fixpoint (K : KmerGraph) :
  DiGraph_wf K →
  let K' := (clip_dangling_ends K).1.1 in
  (∀ n, n ∈ nodes K' →
        n ≠ attr_source (graph K') → n ≠ attr_sink (graph K') →
        (0 < in_degree K' n)%nat ∧ (0 < out_degree K' n)%nat
        ∧ (∃ u, u ∈ nodes K' ∧ (u, n) ∈ edge K')
        ∧ (∃ v, v ∈ nodes K' ∧ (n, v) ∈ edge K'))
  ∧ clip_dangling_ends K' = (K', ∅, 0%Qc).
Proof.
  intros Hwf K'.
  destruct (clip_dangling_ends_no_dangling K Hwf) as (Hwf' & _ & Hok).
  fold K' in Hwf', Hok. split; [|by apply clip_dangling_ends_noop].
  intros n Hn Hsrc Hsnk.
  assert ((0 < in_degree K' n)%nat ∧ (0 < out_degree K' n)%nat) as [Hin Hout].
  { destruct (in_degree K' n) eqn:Ei;
      [destruct (Hok n Hn); unfold dangling; tauto|].
    destruct (out_degree K' n) eqn:Eo;
      [destruct (Hok n Hn); unfold dangling; tauto|]. lia. }
  split; [done|]. split; [done|]. split.
  - apply in_degree_pos in Hin as [u Hu]. exists u.
    by destruct (Hwf' _ _ Hu).
  - apply out_degree_pos in Hout as [v Hv]. exists v.
    by destruct (Hwf' _ _ Hv).
Qed.

Lemma clip_dangling_ends_fixpoint_witness :
  (clip_dangling_ends branch_graph).1.2 = {[ 2; 3 ]}
  ∧ (clip_dangling_ends branch_graph).2 = Qc_of_Z 5
  ∧ clip_dangling_ends (clip_dangling_ends branch_graph).1.1
    = ((clip_dangling_ends branch_graph).1.1, ∅, 0%Qc).
Proof.
  split; [apply (bool_decide_unpack _); vm_compute; reflexivity|].
  split; [apply (bool_decide_unpack _); vm_compute; reflexivity|].
  apply clip_dangling_ends_fixpoint.
  apply (bool_decide_unpack _). vm_compute. reflexivity.
Defined.

(** ** The dictionaries of [create_kmer_graph] *)

Lemma empty_tables_inv : tables_inv empty_tables.
Proof.
  split.
  - intros kmer kmer_id. simpl. by rewrite !lookup_empty.
  - split; [|done].
    intros kmer_id [? Hid]. simpl in Hid. by rewrite lookup_empty in Hid.
Qed.

Lemma tables_inv_inj t i j kmer :
  tables_inv t →
  id_kmer_map t !! i = Some kmer → id_kmer_map t !! j = Some kmer → i = j.
Proof.
  intros (Hbij & _) Hi Hj. apply Hbij in Hi, Hj. congruence.
Qed.

Lemma intern_kmer_spec t kmerpath kmer t' kmerpath' :
  tables_inv t →
  intern_kmer (t, kmerpath) kmer = (t', kmerpath') →
  tables_inv t'
  ∧ id_kmer_map t ⊆ id_kmer_map t'
  ∧ kmer_paths t' = kmer_paths t
  ∧ short_partial_path_dict t' = short_partial_path_dict t
  ∧ (∀ i kmer', id_kmer_map t' !! i = Some kmer' →
       id_kmer_map t !! i = Some kmer' ∨ kmer' = kmer)
  ∧ ∃ kmer_id, kmerpath' = kmerpath ++ [kmer_id]
               ∧ id_kmer_map t' !! kmer_id = Some kmer.
Proof.
  intros (Hbij & Hfresh & Hpos) Hint. unfold intern_kmer in Hint.
  destruct (kmer_id_map t !! kmer) as [kmer_id|] eqn:Hk.
  - injection Hint as <- <-. split; [done|].
    repeat (split; [by auto|]). exists kmer_id. split; [done|].
    by apply Hbij.
  - injection Hint as <- <-. cbn.
    assert (id_kmer_map t !! current_id t = None) as Hnone.
    { destruct (id_kmer_map t !! current_id t) eqn:E; [|done].
      assert (0 ≤ current_id t < current_id t) by (apply Hfresh; eauto).
      lia. }
    split; [split; [|split]|].
    + intros kmer' i. cbn.
      destruct (decide (kmer = kmer')) as [<-|Hne].
      * rewrite lookup_insert_eq.
        destruct (decide (current_id t = i)) as [<-|Hne'].
        -- by rewrite lookup_insert_eq.
        -- rewrite lookup_insert_ne by done. split; [congruence|].
           intros Hi. apply Hbij in Hi. congruence.
      * rewrite lookup_insert_ne by done.
        destruct (decide (current_id t = i)) as [<-|Hne'].
        -- rewrite lookup_insert_eq. split; [|congruence].
           intros Hi. apply Hbij in Hi. congruence.
        -- rewrite lookup_insert_ne by done. apply Hbij.
    + intros i. cbn. intros [kmer' Hi].
      destruct (decide (current_id t = i)) as [<-|Hne']; [lia|].
      rewrite lookup_insert_ne in Hi by done.
      assert (0 ≤ i < current_id t) by (apply Hfresh; eauto). lia.
    + cbn. lia.
    + split; [by apply insert_subseteq|].
      split; [done|]. split; [done|]. split.
      * intros i kmer' Hi.
        destruct (decide (current_id t = i)) as [<-|Hne'].
        -- rewrite lookup_insert_eq in Hi. right. congruence.
        -- rewrite lookup_insert_ne in Hi by done. by left.
      * exists (current_id t). split; [done|]. by rewrite lookup_insert_eq.
Qed.

Lemma foldl_intern_kmer_spec kmers : ∀ t kmerpath t' kmerpath',
  tables_inv t →
  foldl intern_kmer (t, kmerpath) kmers = (t', kmerpath') →
  tables_inv t'
  ∧ id_kmer_map t ⊆ id_kmer_map t'
  ∧ kmer_paths t' = kmer_paths t
  ∧ short_partial_path_dict t' = short_partial_path_dict t
  ∧ (∀ i kmer', id_kmer_map t' !! i = Some kmer' →
       id_kmer_map t !! i = Some kmer' ∨ kmer' ∈ kmers)
  ∧ ∃ ids, kmerpath' = kmerpath ++ ids ∧ ids_of (id_kmer_map t') kmers ids.
Proof.
  induction kmers as [|kmer kmers IH]; intros t kmerpath t' kmerpath' Hinv Hf.
  - injection Hf as <- <-. split; [done|]. repeat (split; [by auto|]).
    exists []. split; [by rewrite app_nil_r|constructor].
  - cbn [foldl] in Hf.
    destruct (intern_kmer (t, kmerpath) kmer) as [t1 kmerpath1] eqn:H1.
    apply intern_kmer_spec in H1
      as (Hinv1 & Hsub1 & Hkp1 & Hsd1 & Hnew1 & kmer_id & -> & Hid); [|done].
    apply IH in Hf
      as (Hinv' & Hsub' & Hkp' & Hsd' & Hnew' & ids & -> & Hids); [|done].
    split; [done|]. split; [by etrans|].
    split; [congruence|]. split; [congruence|]. split.
    + intros i kmer' Hi. destruct (Hnew' i kmer' Hi) as [Hi1|Hin].
      * destruct (Hnew1 i kmer' Hi1) as [?| ->]; [by left|].
        right. by left.
      * right. by right.
    + exists (kmer_id :: ids). split; [by rewrite <- app_assoc|].
      constructor; [|done]. by eapply lookup_weaken.
Qed.

Lemma ids_of_weaken m m' kmers ids :
  m ⊆ m' → ids_of m kmers ids → ids_of m' kmers ids.
Proof.
  intros Hsub Hids. eapply Forall2_impl; [exact Hids|].
  intros kmer i Hi. exact (lookup_weaken _ _ _ _ Hi Hsub).
Qed.

Lemma kmer_path_of_weaken m m' starts ends k p kp :
  m ⊆ m' → kmer_path_of m starts ends k p kp →
  kmer_path_of m' starts ends k p kp.
Proof.
  intros Hsub (Hs & ids & Hids & Hkp). split; [done|].
  exists ids. split; [by eapply ids_of_weaken|done].
Qed.

(** What one iteration of the first loop does. *)
Lemma convert_path_spec starts ends k t path score t' :
  tables_inv t →
  convert_path starts ends k t (path, score) = Ok t' →
  path ≠ [] ∧ tables_inv t' ∧ id_kmer_map t ⊆ id_kmer_map t'
  ∧ if deferred starts ends k path then
      id_kmer_map t' = id_kmer_map t ∧ kmer_paths t' = kmer_paths t
      ∧ short_partial_path_dict t'
        = <[length path :=
              default [] (short_partial_path_dict t !! length path)
              ++ [(path, score)]]> (short_partial_path_dict t)
    else
      short_partial_path_dict t' = short_partial_path_dict t
      ∧ (∀ i kmer, id_kmer_map t' !! i = Some kmer →
           id_kmer_map t !! i = Some kmer ∨ kmer ∈ path_kmers path k)
      ∧ ∃ kp, kmer_paths t' = kmer_paths t ++ [kp]
              ∧ kmer_path_of (id_kmer_map t') starts ends k (path, score) kp.
Proof.
  intros Hinv Hc. unfold convert_path in Hc.
  rewrite index_0_head, index_last in Hc.
  unfold deferred, full_length, is_start, is_end.
  destruct (head path) as [n0|] eqn:Hhead; [|discriminate].
  destruct (last path) as [n1|] eqn:Hlast; [|discriminate].
  cbn [mbind result_bind] in Hc.
  split; [by intros ->|].
  destruct ((Z.of_nat (length path) <? k)
            && negb (bool_decide (n0 ∈ starts) && bool_decide (n1 ∈ ends)))
    eqn:Hdef.
  - injection Hc as <-. cbn. done.
  - destruct (foldl intern_kmer
                (t, if bool_decide (n0 ∈ starts) then [SOURCE] else [])
                (path_kmers path k)) as [t1 kmerpath1] eqn:Hf.
    injection Hc as <-. cbn.
    apply foldl_intern_kmer_spec in Hf
      as (Hinv1 & Hsub1 & Hkp1 & Hsd1 & Hnew1 & ids & -> & Hids); [|done].
    split.
    { destruct Hinv1 as (Hbij & Hfresh & Hpos). by split. }
    split; [done|]. split; [done|]. split; [done|].
    eexists. rewrite Hkp1. split; [reflexivity|].
    split; [done|]. exists ids. split; [done|]. cbn.
    unfold kmerpath_of, is_start, is_end. rewrite Hhead, Hlast.
    destruct (bool_decide (n1 ∈ ends)); [by rewrite <- app_assoc|].
    by rewrite app_nil_r.
Qed.

(** What the first loop of [create_kmer_graph] does. *)
Lemma convert_paths_spec starts ends k pp : ∀ t t',
  tables_inv t →
  convert_paths starts ends k t pp = Ok t' →
  Forall (λ p : PartialPath, p.1 ≠ []) pp
  ∧ tables_inv t' ∧ id_kmer_map t ⊆ id_kmer_map t'
  ∧ (∃ new, kmer_paths t' = kmer_paths t ++ new
            ∧ Forall2 (kmer_path_of (id_kmer_map t') starts ends k)
                (filter (λ p : PartialPath,
                           deferred starts ends k p.1 = false) pp) new)
  ∧ (∀ i kmer, id_kmer_map t' !! i = Some kmer →
       id_kmer_map t !! i = Some kmer
       ∨ ∃ p : PartialPath, p ∈ pp ∧ deferred starts ends k p.1 = false
                            ∧ kmer ∈ path_kmers p.1 k)
  ∧ (∀ n bucket, short_partial_path_dict t' !! n = Some bucket →
       ∃ extra, bucket = default [] (short_partial_path_dict t !! n) ++ extra
                ∧ ∀ q : PartialPath, q ∈ extra →
                    q ∈ pp ∧ deferred starts ends k q.1 = true
                    ∧ length q.1 = n).
Proof.
  induction pp as [|[path score] pp IH]; intros t t' Hinv Hc.
  - injection Hc as <-. split; [constructor|]. split; [done|].
    split; [done|]. split; [exists []; by rewrite app_nil_r|].
    split; [by left|]. intros n bucket Hb. exists [].
    rewrite Hb, app_nil_r. split; [done|]. by intros q ?%elem_of_nil.
  - cbn [convert_paths] in Hc.
    destruct (convert_path starts ends k t (path, score)) as [t1|] eqn:H1;
      [|discriminate].
    cbn [mbind result_bind] in Hc.
    apply convert_path_spec in H1 as (Hne & Hinv1 & Hsub1 & H1); [|done].
    apply IH in Hc
      as (Hnes & Hinv' & Hsub' & (new & Hkp' & Hnew) & Hids' & Hsd'); [|done].
    split; [by constructor|]. split; [done|]. split; [by etrans|].
    destruct (deferred starts ends k path) eqn:Hdef.
    + destruct H1 as (Hidk1 & Hkp1 & Hsd1).
      split; [|split].
      * exists new. rewrite Hkp', Hkp1. split; [done|].
        rewrite filter_cons_False; [done|]. cbn. by rewrite Hdef.
      * intros i kmer Hi. destruct (Hids' i kmer Hi) as [Hi1|(p & Hp & ?)].
        -- left. by rewrite <- Hidk1.
        -- right. exists p. split; [by right|done].
      * intros n bucket Hb. destruct (Hsd' n bucket Hb) as (extra & -> & He).
        rewrite Hsd1. destruct (decide (length path = n)) as [<-|Hn].
        -- rewrite lookup_insert_eq. cbn [default].
           exists ((path, score) :: extra).
           split; [unfold id; by rewrite <- app_assoc|].
           intros q [->|Hq]%elem_of_cons; [split; [by left|done]|].
           destruct (He q Hq) as (? & ? & ?). split; [by right|done].
        -- rewrite lookup_insert_ne by done. exists extra. split; [done|].
           intros q Hq. destruct (He q Hq) as (? & ? & ?).
           split; [by right|done].
    + destruct H1 as (Hsd1 & Hids1 & kp & Hkp1 & Hkp).
      split; [|split].
      * exists (kp :: new). rewrite Hkp', Hkp1, <- app_assoc.
        split; [done|].
        rewrite filter_cons_True by done. constructor; [|done].
        by eapply kmer_path_of_weaken.
      * intros i kmer Hi. destruct (Hids' i kmer Hi) as [Hi1|(p & Hp & ?)].
        -- destruct (Hids1 i kmer Hi1) as [?|Hin]; [by left|].
           right. exists (path, score). split; [by left|done].
        -- right. exists p. split; [by right|done].
      * intros n bucket Hb. destruct (Hsd' n bucket Hb) as (extra & -> & He).
        rewrite Hsd1. exists extra. split; [done|].
        intros q Hq. destruct (He q Hq) as (? & ? & ?).
        split; [by right|done].
Qed.

(** ** [add_path] *)

Lemma nodes_touch_node (K : KmerGraph) n :
  nodes (touch_node K n) = {[n]} ∪ nodes K.
Proof.
  unfold touch_node. destruct (decide (n ∈ nodes K)) as [Hin|Hnin].
  - apply set_eq. intros m. rewrite elem_of_union, elem_of_singleton.
    split; [by right|]. by intros [->|].
  - unfold nodes, add_node. cbn. apply dom_insert_L.
Qed.

Lemma score_of_touch_node (K : KmerGraph) n m :
  score_of (touch_node K n) m = score_of K m.
Proof.
  unfold touch_node. destruct (decide (n ∈ nodes K)) as [Hin|Hnin]; [done|].
  unfold score_of, add_node. cbn.
  destruct (decide (n = m)) as [<-|Hne].
  - rewrite lookup_insert_eq. unfold nodes in Hnin.
    apply not_elem_of_dom in Hnin. by rewrite Hnin.
  - by rewrite lookup_insert_ne.
Qed.

Lemma score_of_add_NODE_SCORE (K : KmerGraph) n s m :
  n ∈ nodes K →
  score_of (update_attrs K n (add_NODE_SCORE s)) m
  = (score_of K m + if decide (n = m) then s else 0)%Qc.
Proof.
  intros Hin. unfold score_of, update_attrs. cbn.
  destruct (decide (n = m)) as [<-|Hne].
  - rewrite lookup_alter_eq. unfold nodes in Hin.
    apply elem_of_dom in Hin as [a Ha]. by rewrite Ha.
  - rewrite lookup_alter_ne by done. by rewrite Qcplus_0_r.
Qed.

Lemma score_of_add_SMOOTH_REV (K : KmerGraph) n s m :
  score_of (update_attrs K n (add_SMOOTH_REV s)) m = score_of K m.
Proof.
  unfold score_of, update_attrs. cbn.
  destruct (decide (n = m)) as [<-|Hne].
  - rewrite lookup_alter_eq. by destruct (node K !! n).
  - by rewrite lookup_alter_ne.
Qed.

Lemma score_of_add_SMOOTH_FWD (K : KmerGraph) n s m :
  score_of (update_attrs K n (add_SMOOTH_FWD s)) m = score_of K m.
Proof.
  unfold score_of, update_attrs. cbn.
  destruct (decide (n = m)) as [<-|Hne].
  - rewrite lookup_alter_eq. by destruct (node K !! n).
  - by rewrite lookup_alter_ne.
Qed.

Lemma nodes_update_attrs (K : KmerGraph) n f :
  nodes (update_attrs K n f) = nodes K.
Proof. unfold nodes, update_attrs. cbn. apply dom_alter_L. Qed.

Lemma credit_cons n m path s :
  credit n (m :: path) s
  = ((if decide (m = n) then s else 0) + credit n path s)%Qc.
Proof. reflexivity. Qed.

Lemma graph_touch_node (K : KmerGraph) n : graph (touch_node K n) = graph K.
Proof. unfold touch_node. by destruct (decide _). Qed.

Lemma edge_touch_node (K : KmerGraph) n : edge (touch_node K n) = edge K.
Proof. unfold touch_node. by destruct (decide _). Qed.

(** One iteration of the loop of [add_path]. *)
Lemma add_path_step_spec (K : KmerGraph) from_id to_id s :
  let K3 := add_edge (update_attrs (touch_node K to_id) to_id
                        (add_NODE_SCORE s)) from_id to_id in
  graph K3 = graph K
  ∧ nodes K3 = nodes K ∪ {[to_id]}
  ∧ edge K3 = edge K ∪ {[ (from_id, to_id) ]}
  ∧ ∀ n, score_of K3 n
         = (score_of K n + if decide (to_id = n) then s else 0)%Qc.
Proof.
  intros K3. split; [apply graph_touch_node|]. split; [|split].
  - change (nodes K3) with (nodes (update_attrs (touch_node K to_id) to_id
                                     (add_NODE_SCORE s))).
    rewrite nodes_update_attrs, nodes_touch_node. apply union_comm_L.
  - change (edge K3) with ({[ (from_id, to_id) ]} ∪ edge (touch_node K to_id)).
    rewrite edge_touch_node. apply union_comm_L.
  - intros n.
    change (score_of K3 n)
      with (score_of (update_attrs (touch_node K to_id) to_id
                        (add_NODE_SCORE s)) n).
    rewrite score_of_add_NODE_SCORE
      by (rewrite nodes_touch_node; apply elem_of_union_l;
          by apply elem_of_singleton).
    by rewrite score_of_touch_node.
Qed.

Lemma add_path_loop_spec rest : ∀ (K : KmerGraph) from_id s K' last_id,
  add_path_loop K from_id rest s = (K', last_id) →
  graph K' = graph K
  ∧ nodes K' = nodes K ∪ list_to_set rest
  ∧ edge K' = edge K ∪ list_to_set (consecutive (from_id :: rest))
  ∧ (∀ n, score_of K' n = (score_of K n + credit n rest s)%Qc)
  ∧ last_id = List.last rest from_id.
Proof.
  induction rest as [|to_id rest IH]; intros K from_id s K' last_id Hl.
  - injection Hl as <- <-. split; [done|].
    split; [cbn [list_to_set]; by rewrite union_empty_r_L|].
    split; [cbn [list_to_set consecutive]; by rewrite union_empty_r_L|].
    split; [|done]. intros n. unfold credit. cbn. by rewrite Qcplus_0_r.
  - cbn [add_path_loop] in Hl. apply IH in Hl as (Hg & Hn & He & Hs & Hlast).
    destruct (add_path_step_spec K from_id to_id s) as (Hg3 & Hn3 & He3 & Hs3).
    cbv zeta in *.
    split; [congruence|]. split; [|split; [|split]].
    + rewrite Hn, Hn3. cbn [list_to_set]. by rewrite <- union_assoc_L.
    + rewrite He, He3.
      replace (consecutive (from_id :: to_id :: rest))
        with ((from_id, to_id) :: consecutive (to_id :: rest)) by done.
      cbn [list_to_set]. by rewrite <- union_assoc_L.
    + intros n. rewrite Hs, Hs3, credit_cons.
      destruct (decide (to_id = n)); by rewrite Qcplus_assoc.
    + rewrite Hlast. destruct rest; [done|]. by rewrite last_cons_cons.
Qed.

Lemma add_path_spec (K : KmerGraph) path s K' :
  add_path K path s = Ok K' →
  path ≠ []
  ∧ graph K' = graph K
  ∧ nodes K' = nodes K ∪ list_to_set path
  ∧ edge K' = edge K ∪ list_to_set (consecutive path)
  ∧ (∀ n, score_of K' n = (score_of K n + credit n path s)%Qc).
Proof.
  destruct path as [|from_id rest]; [discriminate|].
  cbn [add_path].
  destruct (add_path_loop _ from_id rest s) as [K4 last_id] eqn:Hl.
  intros [= <-]. apply add_path_loop_spec in Hl as (Hg & Hn & He & Hs & _).
  split; [done|]. split; [|split; [|split]].
  - change (graph (update_attrs K4 ?n ?f)) with (graph K4). rewrite Hg.
    apply graph_touch_node.
  - rewrite nodes_update_attrs, Hn, !nodes_update_attrs, nodes_touch_node.
    rewrite (union_comm_L {[from_id]}), <- union_assoc_L. done.
  - change (edge (update_attrs K4 ?n ?f)) with (edge K4). rewrite He.
    change (edge (update_attrs ?K1 ?n ?f)) with (edge K1).
    change (edge (update_attrs ?K1 ?n ?f)) with (edge K1).
    by rewrite edge_touch_node.
  - intros n. rewrite score_of_add_SMOOTH_FWD, Hs, credit_cons.
    rewrite score_of_add_SMOOTH_REV.
    rewrite score_of_add_NODE_SCORE
      by (rewrite nodes_touch_node; apply elem_of_union_l;
          by apply elem_of_singleton).
    rewrite score_of_touch_node.
    destruct (decide (from_id = n)); by rewrite Qcplus_assoc.
Qed.

Lemma add_paths_spec kps : ∀ (K K' : KmerGraph),
  add_paths K kps = Ok K' →
  Forall (λ kp : KmerPath, kp.1 ≠ []) kps
  ∧ graph K' = graph K
  ∧ (∀ n, n ∈ nodes K' ↔
          n ∈ nodes K ∨ ∃ kp : KmerPath, kp ∈ kps ∧ n ∈ kp.1)
  ∧ (∀ e, e ∈ edge K' ↔
          e ∈ edge K ∨ ∃ kp : KmerPath, kp ∈ kps ∧ e ∈ consecutive kp.1)
  ∧ (∀ n, score_of K' n = (score_of K n + total_credit n kps)%Qc).
Proof.
  induction kps as [|[path s] kps IH]; intros K K' Ha.
  - injection Ha as <-. split; [constructor|]. split; [done|].
    split; [|split].
    + intros n. split; [by left|]. intros [?|(kp & []%elem_of_nil & _)]; done.
    + intros e. split; [by left|]. intros [?|(kp & []%elem_of_nil & _)]; done.
    + intros n. unfold total_credit. cbn. by rewrite Qcplus_0_r.
  - cbn [add_paths] in Ha.
    destruct (add_path K path s) as [K1|] eqn:H1; [|discriminate].
    cbn [mbind result_bind] in Ha.
    apply add_path_spec in H1 as (Hne & Hg1 & Hn1 & He1 & Hs1).
    apply IH in Ha as (Hnes & Hg & Hn & He & Hs).
    split; [by constructor|]. split; [congruence|]. split; [|split].
    + intros n. rewrite Hn, Hn1, elem_of_union, elem_of_list_to_set. split.
      * intros [[?|Hin]|(kp & Hkp & Hin)]; [by left|right..].
        -- exists (path, s). split; [by left|done].
        -- exists kp. split; [by right|done].
      * intros [?|(kp & [->|Hkp]%elem_of_cons & Hin)].
        -- by left; left.
        -- by left; right.
        -- right. by exists kp.
    + intros e. rewrite He, He1, elem_of_union, elem_of_list_to_set. split.
      * intros [[?|Hin]|(kp & Hkp & Hin)]; [by left|right..].
        -- exists (path, s). split; [by left|done].
        -- exists kp. split; [by right|done].
      * intros [?|(kp & [->|Hkp]%elem_of_cons & Hin)].
        -- by left; left.
        -- by left; right.
        -- right. by exists kp.
    + intros n. rewrite Hs, Hs1. unfold total_credit. cbn.
      by rewrite Qcplus_assoc.
Qed.

(** ** Short paths *)

Lemma mapM_Ok {A B} (f : A → result B) l : ∀ r,
  mapM f l = Ok r → Forall2 (λ x y, f x = Ok y) l r.
Proof.
  induction l as [|x l IH]; intros r Hm.
  - injection Hm as <-. constructor.
  - cbn [mapM] in Hm. destruct (f x) as [y|] eqn:Hx; [|discriminate].
    cbn [mbind result_bind] in Hm.
    destruct (mapM f l) as [r'|]; [|discriminate].
    injection Hm as <-. constructor; [done|]. by apply IH.
Qed.

(** The k-mer paths made for a short path are single vertices of the
    graph. *)
Lemma find_short_path_kmers_single kmer_hash (K : KmerGraph) path s l :
  find_short_path_kmers kmer_hash K path s = Ok l →
  Forall (λ kp : KmerPath, ∃ kmer_id, kp.1 = [kmer_id] ∧ kmer_id ∈ nodes K) l.
Proof.
  unfold find_short_path_kmers. destruct (kmer_hash !! path) as [ids|].
  - destruct (mapM _ (elements ids)) as [matching|] eqn:Hm; [|discriminate].
    cbn [mbind result_bind]. intros Hl.
    apply mapM_Ok in Hm, Hl.
    assert (Forall (λ x : Z * Qc, x.1 ∈ nodes K) matching) as Hin.
    { clear Hl. induction Hm as [|kmer_id [i sc] ids' m' Hx _ IH];
        constructor; [|done].
      destruct (Py.getitem (node K) kmer_id) as [a|] eqn:Ha; [|discriminate].
      injection Hx as <- _. apply getitem_Ok in Ha. cbn.
      apply elem_of_dom. eauto. }
    clear Hm. revert Hin.
    induction Hl as [|[i sc] kp m' l' Hx _ IH]; intros Hin; constructor.
    + destruct (Py.div sc _); [|discriminate]. injection Hx as <-.
      exists i. split; [done|]. by apply Forall_cons in Hin as [? _].
    + apply IH. by apply Forall_cons in Hin as [_ ?].
  - intros [= <-]. constructor.
Qed.

Lemma resolve_bucket_spec kmer_hash (K : KmerGraph) bucket :
  ∀ acc acc', resolve_bucket kmer_hash K acc bucket = Ok acc' →
  (∃ new, acc'.1 = acc.1 ++ new
          ∧ Forall (λ kp : KmerPath,
                      ∃ kmer_id, kp.1 = [kmer_id] ∧ kmer_id ∈ nodes K) new)
  ∧ ∃ lost, acc'.2 = acc.2 ++ lost ∧ lost ⊆ bucket.
Proof.
  induction bucket as [|[path s] bucket IH]; intros acc acc' Hr.
  - injection Hr as <-. split; exists []; rewrite app_nil_r; by split.
  - cbn [resolve_bucket] in Hr. destruct acc as [kps lost0].
    unfold resolve_short_path in Hr at 1.
    destruct (find_short_path_kmers kmer_hash K path s) as [m|] eqn:Hf;
      [|discriminate].
    cbn [mbind result_bind] in Hr.
    apply find_short_path_kmers_single in Hf.
    apply IH in Hr as ((new & Hnew & Hall) & lost & Hlost & Hsub).
    cbn [fst snd] in *. split.
    + exists (m ++ new). rewrite Hnew, <- app_assoc. split; [done|].
      by apply Forall_app.
    + destruct (decide (length m = 0%nat)).
      * exists ((path, s) :: lost). rewrite Hlost, <- app_assoc.
        split; [done|]. intros q [->|Hq]%elem_of_cons; [by left|].
        right. by apply Hsub.
      * exists lost. split; [done|]. intros q Hq. right. by apply Hsub.
Qed.

Lemma resolve_buckets_spec idk k (K : KmerGraph) buckets :
  ∀ acc acc', resolve_buckets idk k K acc buckets = Ok acc' →
  (∃ new, acc'.1 = acc.1 ++ new
          ∧ Forall (λ kp : KmerPath,
                      ∃ kmer_id, kp.1 = [kmer_id] ∧ kmer_id ∈ nodes K) new)
  ∧ ∃ lost, acc'.2 = acc.2 ++ lost
            ∧ ∀ q, q ∈ lost → ∃ b, b ∈ buckets ∧ q ∈ b.2.
Proof.
  induction buckets as [|[ksmall bucket] buckets IH]; intros acc acc' Hr.
  - injection Hr as <-. split; exists []; rewrite app_nil_r; split; try done.
    by intros q ?%elem_of_nil.
  - cbn [resolve_buckets] in Hr.
    destruct (resolve_bucket _ K acc bucket) as [acc1|] eqn:H1;
      [|discriminate].
    cbn [mbind result_bind] in Hr.
    apply resolve_bucket_spec in H1
      as ((new1 & Hnew1 & Hall1) & lost1 & Hlost1 & Hsub1).
    apply IH in Hr as ((new & Hnew & Hall) & lost & Hlost & Hsub).
    split.
    + exists (new1 ++ new). rewrite Hnew, Hnew1, <- app_assoc.
      split; [done|]. by apply Forall_app.
    + exists (lost1 ++ lost). rewrite Hlost, Hlost1, <- app_assoc.
      split; [done|]. intros q [Hq|Hq]%elem_of_app.
      * exists (ksmall, bucket). split; [by left|]. by apply Hsub1.
      * destruct (Hsub q Hq) as (b & Hb & Hqb). exists b.
        split; [by right|done].
Qed.

Lemma resolve_buckets_empty idk k (K : KmerGraph) buckets : ∀ acc,
  Forall (λ b : nat * list PartialPath, b.2 = []) buckets →
  resolve_buckets idk k K acc buckets = Ok acc.
Proof.
  induction buckets as [|[ksmall bucket] buckets IH]; intros acc Hall;
    [done|].
  apply Forall_cons in Hall as [Hb Hall]. cbn in Hb. subst bucket.
  cbn. by apply IH.
Qed.

(** ** What [clip_dangling_ends] keeps *)

Lemma score_of_remove_nodes_from (K : KmerGraph) S n :
  n ∉ S → score_of (remove_nodes_from K S) n = score_of K n.
Proof.
  intros Hn. unfold score_of, remove_nodes_from. cbn.
  destruct (node K !! n) as [a|] eqn:Ha.
  - by rewrite (map_lookup_filter_Some_2 _ _ _ a).
  - by rewrite map_lookup_filter_None_2 by (by left).
Qed.

Lemma protected_not_dangling (K : KmerGraph) n :
  protected K n → ¬ dangling K n.
Proof.
  intros [Hs Ht] (_ & _ & [Hin|Hout]).
  - exact (proj1 (in_degree_0 K n) Hin _ Hs).
  - exact (proj1 (out_degree_0 K n) Hout _ Ht).
Qed.

Lemma clip_step_keeps st :
  let K := clip_K st in
  let K' := clip_K (clip_step st) in
  nodes K' ⊆ nodes K ∧ edge K' ⊆ edge K
  ∧ (∀ n, n ∈ nodes K' → score_of K' n = score_of K n)
  ∧ (∀ n, n ∈ nodes K → protected K n → n ∈ nodes K' ∧ protected K' n)
  ∧ (∀ n, n ∈ clip_nodes (clip_step st) →
          n ∈ clip_nodes st ∨ n ∉ nodes K').
Proof.
  intros K K'. unfold K', clip_step. cbn [clip_K clip_nodes]. fold K.
  set (new_clip := filter (dangling K) (test_nodes st)).
  rewrite nodes_remove_nodes_from.
  assert (∀ n, n ∈ new_clip → dangling K n) as Hd
    by (by intros n [? _]%elem_of_filter).
  split; [apply subseteq_difference_l; done|]. split; [|split; [|split]].
  - intros [u v] Huv. by apply elem_of_edge_remove_nodes_from in Huv as [? _].
  - intros n [_ Hn]%elem_of_difference. by apply score_of_remove_nodes_from.
  - intros n Hn Hp.
    assert (n ∉ new_clip) as Hnc
      by (intros ?%Hd; by apply (protected_not_dangling K n)).
    split; [by apply elem_of_difference|].
    destruct Hp as [Hs Ht]. split.
    + apply elem_of_edge_remove_nodes_from. split; [done|]. split; [|done].
      intros (Hsrc & _)%Hd. done.
    + apply elem_of_edge_remove_nodes_from. split; [done|]. split; [done|].
      intros (_ & Hsnk & _)%Hd. done.
  - intros n [?|Hn]%elem_of_union; [by left|]. right.
    intros [_ ?]%elem_of_difference. done.
Qed.

Lemma clip_loop_keeps fuel : ∀ st,
  let K := clip_K st in
  let K' := clip_K (clip_loop fuel st) in
  nodes K' ⊆ nodes K ∧ edge K' ⊆ edge K
  ∧ (∀ n, n ∈ nodes K' → score_of K' n = score_of K n)
  ∧ (∀ n, n ∈ nodes K → protected K n → n ∈ nodes K' ∧ protected K' n)
  ∧ (∀ n, n ∈ clip_nodes (clip_loop fuel st) →
          n ∈ clip_nodes st ∨ n ∉ nodes K').
Proof.
  induction fuel as [|fuel IH]; intros st; cbn [clip_loop].
  - repeat (split; [by auto|]). by left.
  - destruct (decide (test_nodes st = ∅)).
    + repeat (split; [by auto|]). by left.
    + destruct (IH (clip_step st)) as (Hn & He & Hs & Hp & Hc).
      destruct (clip_step_keeps st) as (Hn1 & He1 & Hs1 & Hp1 & Hc1).
      cbv zeta in *.
      split; [by etrans|]. split; [by etrans|]. split; [|split].
      * intros m Hm. rewrite Hs by done. apply Hs1. by apply Hn.
      * intros m Hm Hpr. destruct (Hp1 m Hm Hpr). by apply Hp.
      * intros m Hm. destruct (Hc m Hm) as [Hm1|?]; [|by right].
        destruct (Hc1 m Hm1) as [?|Hm2]; [by left|].
        right. intros Hm3. by apply Hm2, Hn.
Qed.

Lemma clip_dangling_ends_keeps (K K' : KmerGraph) clips cs :
  clip_dangling_ends K = (K', clips, cs) →
  graph K' = graph K ∧ nodes K' ⊆ nodes K ∧ edge K' ⊆ edge K
  ∧ (∀ n, n ∈ nodes K' → score_of K' n = score_of K n)
  ∧ (∀ n, n ∈ nodes K → protected K n → n ∈ nodes K' ∧ protected K' n)
  ∧ (∀ n, n ∈ clips → n ∉ nodes K').
Proof.
  unfold clip_dangling_ends.
  pose proof (clip_loop_graph (S (size (nodes K)))
                (mkClipState K (nodes K) ∅ 0%Qc)) as Hg.
  destruct (clip_loop_keeps (S (size (nodes K)))
              (mkClipState K (nodes K) ∅ 0%Qc)) as (Hn & He & Hs & Hp & Hc).
  cbv zeta in *. revert Hg Hn He Hs Hp Hc.
  generalize (clip_loop (S (size (nodes K)))
                (mkClipState K (nodes K) ∅ 0%Qc)).
  intros st Hg Hn He Hs Hp Hc Heq. injection Heq as <- <- <-.
  cbn [clip_K clip_nodes] in *. split; [done|].
  repeat (split; [done|]).
  intros n Hn'. destruct (Hc n Hn') as [[]%not_elem_of_empty|]; done.
Qed.

(** ** [create_kmer_graph] *)

(** The graph before clipping, in terms of the result [t] of the first
    loop and the k-mer paths [kps2] made for the short paths. *)
Lemma build_kmer_graph_spec G pp k (K : KmerGraph) lost :
  build_kmer_graph G pp k = Ok (K, lost) →
  ∃ t kps2,
    convert_paths (get_start_end_nodes G).1 (get_start_end_nodes G).2 k
      empty_tables pp = Ok t
    ∧ graph K = mkKmerAttrs (id_kmer_map t) SOURCE SINK
    ∧ (∀ e, e ∈ edge K ↔
            ∃ kp : KmerPath, kp ∈ kmer_paths t ∧ e ∈ consecutive kp.1)
    ∧ (∀ n, n ∈ nodes K ↔ ∃ kp : KmerPath, kp ∈ kmer_paths t ∧ n ∈ kp.1)
    ∧ (∀ n, score_of K n
            = (total_credit n (kmer_paths t) + total_credit n kps2)%Qc)
    ∧ (∀ q, q ∈ lost →
            ∃ n b, short_partial_path_dict t !! n = Some b ∧ q ∈ b)
    ∧ ((∀ n b, short_partial_path_dict t !! n = Some b → b = []) →
       kps2 = [] ∧ lost = []).
Proof.
  unfold build_kmer_graph.
  destruct (get_start_end_nodes G) as [starts ends]. cbn [fst snd].
  destruct (convert_paths starts ends k empty_tables pp) as [t|] eqn:Ht;
    [|discriminate].
  cbn [mbind result_bind].
  destruct (add_paths (new_kmer_graph (id_kmer_map t)) (kmer_paths t))
    as [K1|] eqn:H1; [|discriminate].
  cbn [mbind result_bind].
  destruct (resolve_buckets (id_kmer_map t) k K1 ([], [])
              (map_to_list (short_partial_path_dict t)))
    as [[kps2 lost2]|] eqn:H2; [|discriminate].
  cbn [mbind result_bind].
  destruct (add_paths K1 kps2) as [K2|] eqn:H3; [|discriminate].
  intros [= <- <-]. exists t, kps2. split; [done|].
  apply add_paths_spec in H1 as (_ & Hg1 & Hn1 & He1 & Hs1).
  apply add_paths_spec in H3 as (_ & Hg2 & Hn2 & He2 & Hs2).
  pose proof H2 as H2'.
  apply resolve_buckets_spec in H2
    as ((new & Hnew & Hsingle) & lost' & Hlost & Hin).
  cbn [fst snd app] in Hnew, Hlost. subst new lost'.
  split; [by rewrite Hg2, Hg1|]. split; [|split; [|split; [|split]]].
  - intros e. rewrite He2, He1. split.
    + intros [[[]%not_elem_of_empty|?]|(kp & Hkp & He)]; [done|].
      rewrite Forall_forall in Hsingle.
      destruct (Hsingle kp Hkp) as (i & Hi & _). rewrite Hi in He.
      by apply elem_of_nil in He.
    + intros ?. left. by right.
  - intros n. rewrite Hn2, Hn1. split.
    + intros [[[]%not_elem_of_empty|?]|(kp & Hkp & Hn)]; [done|].
      rewrite Forall_forall in Hsingle.
      destruct (Hsingle kp Hkp) as (i & Hi & Hin1). rewrite Hi in Hn.
      apply list_elem_of_singleton in Hn as ->.
      apply Hn1 in Hin1 as [[]%not_elem_of_empty|?]. done.
    + intros ?. left. by right.
  - intros n. rewrite Hs2, Hs1.
    replace (score_of (new_kmer_graph (id_kmer_map t)) n) with 0%Qc by done.
    by rewrite Qcplus_0_l.
  - intros q Hq. destruct (Hin q Hq) as ([n b] & Hb & Hqb).
    exists n, b. split; [|done]. by apply elem_of_map_to_list in Hb.
  - intros He. rewrite resolve_buckets_empty in H2'.
    + by injection H2' as <- <-.
    + apply Forall_forall. intros [n b] Hb%elem_of_map_to_list.
      exact (He n b Hb).
Qed.

Section converted.
Context (starts ends : gset Exon) (k : Z) (pp : list PartialPath).
Context (t : KmerTables).
Hypothesis Hconv : convert_paths starts ends k empty_tables pp = Ok t.

Lemma converted_inv : tables_inv t.
Proof. by destruct (convert_paths_spec _ _ _ _ _ _ empty_tables_inv Hconv) as (_ & ? & _). Qed.

Lemma converted_nonempty : Forall (λ p : PartialPath, p.1 ≠ []) pp.
Proof. by destruct (convert_paths_spec _ _ _ _ _ _ empty_tables_inv Hconv) as (? & _). Qed.

Lemma converted_kmer_paths :
  Forall2 (kmer_path_of (id_kmer_map t) starts ends k)
    (filter (λ p : PartialPath, deferred starts ends k p.1 = false) pp)
    (kmer_paths t).
Proof.
  destruct (convert_paths_spec _ _ _ _ _ _ empty_tables_inv Hconv)
    as (_ & _ & _ & (new & Hkp & Hnew) & _).
  by rewrite Hkp.
Qed.

(** Every entry of [kmer_paths] comes from a path that is not deferred. *)
Lemma converted_kmer_path kp :
  kp ∈ kmer_paths t →
  ∃ p, p ∈ pp ∧ deferred starts ends k p.1 = false
       ∧ kmer_path_of (id_kmer_map t) starts ends k p kp.
Proof.
  intros [i Hi]%list_elem_of_lookup.
  destruct (Forall2_lookup_r _ _ _ _ _ converted_kmer_paths Hi)
    as (p & Hp & Hkp).
  exists p. apply list_elem_of_lookup_2, list_elem_of_filter in Hp as [? ?].
  done.
Qed.

(** Every path that is not deferred has its entry in [kmer_paths]. *)
Lemma converted_path p :
  p ∈ pp → deferred starts ends k p.1 = false →
  ∃ kp, kp ∈ kmer_paths t ∧ kmer_path_of (id_kmer_map t) starts ends k p kp.
Proof.
  intros Hp Hd.
  assert (p ∈ filter (λ p : PartialPath,
                        deferred starts ends k p.1 = false) pp) as Hin
    by (by apply list_elem_of_filter).
  apply list_elem_of_lookup in Hin as [i Hi].
  destruct (Forall2_lookup_l _ _ _ _ _ converted_kmer_paths Hi)
    as (kp & Hkp & Hrel).
  exists kp. split; [|done]. by eapply list_elem_of_lookup_2.
Qed.

(** Every k-mer of the dictionary is a k-mer of a path that is not
    deferred. *)
Lemma converted_kmer i kmer :
  id_kmer_map t !! i = Some kmer →
  ∃ p : PartialPath, p ∈ pp ∧ deferred starts ends k p.1 = false
                     ∧ kmer ∈ path_kmers p.1 k.
Proof.
  destruct (convert_paths_spec _ _ _ _ _ _ empty_tables_inv Hconv)
    as (_ & _ & _ & _ & Hids & _).
  intros Hi. by destruct (Hids i kmer Hi) as [?|?].
Qed.

(** The buckets hold deferred paths only. *)
Lemma converted_bucket n bucket q :
  short_partial_path_dict t !! n = Some bucket → q ∈ bucket →
  q ∈ pp ∧ deferred starts ends k q.1 = true ∧ length q.1 = n.
Proof.
  destruct (convert_paths_spec _ _ _ _ _ _ empty_tables_inv Hconv)
    as (_ & _ & _ & _ & _ & Hsd).
  intros Hb Hq. destruct (Hsd n bucket Hb) as (extra & -> & He).
  by apply He.
Qed.

Lemma converted_sentinels :
  id_kmer_map t !! SOURCE = None ∧ id_kmer_map t !! SINK = None.
Proof.
  destruct converted_inv as (_ & Hfresh & _).
  split.
  - destruct (id_kmer_map t !! SOURCE) eqn:E; [|done].
    assert (0 ≤ SOURCE) by (apply Hfresh; eauto). done.
  - destruct (id_kmer_map t !! SINK) eqn:E; [|done].
    assert (0 ≤ SINK) by (apply Hfresh; eauto). done.
Qed.

(** A vertex of a k-mer path is a sentinel or the id of a k-mer. *)
Lemma converted_vertex kp n :
  kp ∈ kmer_paths t → n ∈ kp.1 →
  n = SOURCE ∨ n = SINK ∨ is_Some (id_kmer_map t !! n).
Proof.
  intros Hkp Hn.
  destruct (converted_kmer_path kp Hkp) as (p & _ & _ & _ & ids & Hids & Heq).
  rewrite Heq in Hn. unfold kmerpath_of in Hn.
  apply elem_of_app in Hn as [Hn|[Hn|Hn]%elem_of_app].
  - left. destruct (is_start starts p.1); [|by apply elem_of_nil in Hn].
    by apply list_elem_of_singleton in Hn.
  - right. right. apply list_elem_of_lookup in Hn as [i Hi].
    destruct (Forall2_lookup_r _ _ _ _ _ Hids Hi) as (kmer & _ & Hk). eauto.
  - right. left. destruct (is_end ends p.1); [|by apply elem_of_nil in Hn].
    by apply list_elem_of_singleton in Hn.
Qed.

End converted.

Lemma create_kmer_graph_inv G pp k (K' : KmerGraph) lost clips cs :
  create_kmer_graph G pp k = Ok (K', lost, clips, cs) →
  ∃ K, build_kmer_graph G pp k = Ok (K, lost)
       ∧ clip_dangling_ends K = (K', clips, cs).
Proof.
  unfold create_kmer_graph.
  destruct (build_kmer_graph G pp k) as [[K lost0]|]; [|discriminate].
  cbn [mbind result_bind].
  destruct (clip_dangling_ends K) as [[K1 clips1] cs1] eqn:Hclip.
  intros Heq. injection Heq as <- <- <- <-. by exists K.
Qed.

(** *** Scores of the k-mer vertices *)

Lemma credit_app n l1 l2 s :
  credit n (l1 ++ l2) s = (credit n l1 s + credit n l2 s)%Qc.
Proof.
  induction l1 as [|m l1 IH]; [by rewrite Qcplus_0_l|].
  cbn [app]. by rewrite !credit_cons, IH, Qcplus_assoc.
Qed.

Lemma credit_kmerpath_of starts ends path ids n s :
  n ≠ SOURCE → n ≠ SINK →
  credit n (kmerpath_of starts ends path ids) s = credit n ids s.
Proof.
  intros Hs Ht. unfold kmerpath_of. rewrite !credit_app.
  assert (credit n (if is_start starts path then [SOURCE] else []) s = 0%Qc)
    as ->.
  { destruct (is_start starts path); [|done]. unfold credit. cbn.
    by destruct (decide (SOURCE = n)). }
  assert (credit n (if is_end ends path then [SINK] else []) s = 0%Qc) as ->.
  { destruct (is_end ends path); [|done]. unfold credit. cbn.
    by destruct (decide (SINK = n)). }
  by rewrite Qcplus_0_l, Qcplus_0_r.
Qed.

Lemma occurrences_cons w kmer kmers :
  occurrences w (kmer :: kmers)
  = ((if decide (kmer = w) then 1 else 0) + occurrences w kmers)%Qc.
Proof.
  unfold occurrences. destruct (decide (kmer = w)) as [Heq|Hne].
  - rewrite filter_cons_True by done. cbn [length].
    rewrite Nat2Z.inj_succ, <- Z.add_1_l, Z2Qc_inj_add. done.
  - rewrite filter_cons_False by done. by rewrite Qcplus_0_l.
Qed.

Lemma credit_ids_of (idk : gmap Z (list Exon)) kmers ids n w s :
  (∀ i j kmer, idk !! i = Some kmer → idk !! j = Some kmer → i = j) →
  idk !! n = Some w →
  ids_of idk kmers ids →
  credit n ids s = (occurrences w kmers * s)%Qc.
Proof.
  intros Hinj Hn Hids. induction Hids as [|kmer i kmers ids Hi _ IH].
  - change (0 = Qc_of_Z 0 * s)%Qc. rewrite Z2Qc_inj_0. ring.
  - rewrite credit_cons, occurrences_cons, IH.
    destruct (decide (i = n)) as [->|Hne].
    + rewrite decide_True by congruence. ring.
    + rewrite decide_False; [ring|]. intros ->. by apply Hne, (Hinj _ _ w).
Qed.

Lemma total_credit_kmer_paths (idk : gmap Z (list Exon)) starts ends k
    ps kps n w :
  (∀ i j kmer, idk !! i = Some kmer → idk !! j = Some kmer → i = j) →
  n ≠ SOURCE → n ≠ SINK → idk !! n = Some w →
  Forall2 (kmer_path_of idk starts ends k) ps kps →
  total_credit n kps
  = Py.sum ((λ p : PartialPath,
               occurrences w (path_kmers p.1 k) * p.2)%Qc <$> ps).
Proof.
  intros Hinj Hs Ht Hn Hall.
  induction Hall as [|p kp ps kps (Hsc & ids & Hids & Hkp) _ IH]; [done|].
  change (credit n kp.1 kp.2 + total_credit n kps
          = occurrences w (path_kmers p.1 k) * p.2
            + Py.sum ((λ p : PartialPath,
                         occurrences w (path_kmers p.1 k) * p.2) <$> ps))%Qc.
  rewrite IH, Hkp, Hsc, credit_kmerpath_of by done.
  by rewrite (credit_ids_of idk _ _ n w _ Hinj Hn Hids).
Qed.

(** A window of a path of at least [k] nodes. *)
Lemma get_kmers_not_deferred starts ends k path w :
  w ∈ get_kmers path k →
  deferred starts ends k path = false ∧ path_kmers path k = get_kmers path k.
Proof.
  unfold get_kmers, deferred, path_kmers.
  intros (i & _ & Hi%elem_of_xrange)%list_elem_of_fmap.
  destruct (Z.ltb_spec (Z.of_nat (length path)) k); [lia|done].
Qed.

(** The stages of [create_kmer_graph]: the dictionaries [t], the graph [K]
    before clipping and the clipped graph [K']. *)
Lemma create_kmer_graph_stages G pp k (K' : KmerGraph) lost clips cs :
  create_kmer_graph G pp k = Ok (K', lost, clips, cs) →
  ∃ t K,
    convert_paths (get_start_end_nodes G).1 (get_start_end_nodes G).2 k
      empty_tables pp = Ok t
    ∧ build_kmer_graph G pp k = Ok (K, lost)
    ∧ clip_dangling_ends K = (K', clips, cs)
    ∧ graph K = mkKmerAttrs (id_kmer_map t) SOURCE SINK
    ∧ graph K' = mkKmerAttrs (id_kmer_map t) SOURCE SINK.
Proof.
  intros (K & Hb & Hc)%create_kmer_graph_inv.
  destruct (build_kmer_graph_spec _ _ _ _ _ Hb) as (t & kps2 & Ht & Hg & _).
  exists t, K. repeat (split; [done|]).
  apply clip_dangling_ends_keeps in Hc as (-> & _). done.
Qed.

Lemma build_kmer_graph_vertex G pp k (K : KmerGraph) lost n :
  build_kmer_graph G pp k = Ok (K, lost) → n ∈ nodes K →
  n = SOURCE ∨ n = SINK ∨ is_Some (attr_id_kmer_map (graph K) !! n).
Proof.
  intros Hb Hn.
  destruct (build_kmer_graph_spec _ _ _ _ _ Hb)
    as (t & kps2 & Ht & Hg & _ & Hnodes & _).
  destruct (proj1 (Hnodes n) Hn) as (kp & Hkp & Hn'). rewrite Hg. cbn.
  exact (converted_vertex _ _ _ _ _ Ht kp n Hkp Hn').
Qed.

Lemma filter_Forall_id {A} (P : A → Prop) `{!∀ x, Decision (P x)} l :
  Forall P l → filter P l = l.
Proof.
  induction 1 as [|x l Hx _ IH]; [done|].
  by rewrite filter_cons_True, IH.
Qed.

(** The score of the vertex of the k-mer [w] before clipping, when no
    path is deferred. *)
Lemma build_kmer_graph_score G pp k (K : KmerGraph) lost n w :
  build_kmer_graph G pp k = Ok (K, lost) →
  Forall (λ p : PartialPath,
            deferred (get_start_end_nodes G).1 (get_start_end_nodes G).2 k
              p.1 = false) pp →
  attr_id_kmer_map (graph K) !! n = Some w →
  score_of K n
  = Py.sum ((λ p : PartialPath,
               occurrences w (path_kmers p.1 k) * p.2)%Qc <$> pp).
Proof.
  intros Hb Hnd Hn.
  destruct (build_kmer_graph_spec _ _ _ _ _ Hb)
    as (t & kps2 & Ht & Hg & _ & _ & Hscore & _ & Hempty).
  rewrite Hg in Hn. cbn in Hn.
  destruct Hempty as [-> _].
  { intros m b Hb'. destruct b as [|q b]; [done|].
    destruct (converted_bucket _ _ _ _ _ Ht m (q :: b) q Hb')
      as (Hq & Hdq & _); [by left|].
    rewrite Forall_forall in Hnd. by rewrite (Hnd q Hq) in Hdq. }
  rewrite Hscore.
  change (total_credit n []) with 0%Qc. rewrite Qcplus_0_r.
  pose proof (converted_kmer_paths _ _ _ _ _ Ht) as Hall.
  rewrite filter_Forall_id in Hall.
  - destruct (converted_sentinels _ _ _ _ _ Ht) as [Hsrc Hsnk].
    eapply total_credit_kmer_paths; [|..|exact Hall]; try done.
    + intros i j kmer. apply tables_inv_inj.
      by eapply converted_inv.
    + intros ->. congruence.
    + intros ->. congruence.
  - exact Hnd.
Qed.

(** A k-mer of a path that is not deferred is a vertex of the graph before
    clipping. *)
Lemma build_kmer_graph_kmer_vertex G pp k (K : KmerGraph) lost
    (p : PartialPath) w :
  build_kmer_graph G pp k = Ok (K, lost) →
  p ∈ pp →
  deferred (get_start_end_nodes G).1 (get_start_end_nodes G).2 k p.1 = false →
  w ∈ path_kmers p.1 k →
  ∃ n, attr_id_kmer_map (graph K) !! n = Some w ∧ n ∈ nodes K.
Proof.
  intros Hb Hp Hd Hw.
  destruct (build_kmer_graph_spec _ _ _ _ _ Hb)
    as (t & kps2 & Ht & Hg & _ & Hnodes & _).
  destruct (converted_path _ _ _ _ _ Ht p Hp Hd)
    as (kp & Hkp & _ & ids & Hids & Heq).
  apply list_elem_of_lookup in Hw as [i Hi].
  destruct (Forall2_lookup_l _ _ _ _ _ Hids Hi) as (n & Hn & Hnw).
  exists n. rewrite Hg. split; [done|].
  apply Hnodes. exists kp. split; [done|]. rewrite Heq. unfold kmerpath_of.
  apply elem_of_app. right. apply elem_of_app. left.
  by eapply list_elem_of_lookup_2.
Qed.

(** C4: [create_kmer_graph] gives one vertex to a k-mer: two ids of the
    dictionary of the graph with the same tuple are equal, and every vertex
    other than the sentinels has its tuple there.  In particular, when two
    partial paths share a window at [k = 2], that window has a single
    vertex; its score in the graph as built is the sum of what the two
    paths contribute (the score of a path once for each occurrence of the
    window in it), and it still has that score after clipping if it is not
    clipped. *)
Theorem create_kmer_graph_unique_vertices :
  (∀ G pp k (K : KmerGraph) lost clips cs,
     create_kmer_graph G pp k = Ok (K, lost, clips, cs) →
     (∀ i j kmer,
        attr_id_kmer_map (graph K) !! i = Some kmer →
        attr_id_kmer_map (graph K) !! j = Some kmer → i = j)
     ∧ (∀ n, n ∈ nodes K →
          n = SOURCE ∨ n = SINK
          ∨ is_Some (attr_id_kmer_map (graph K) !! n)))
  ∧ (∀ G p1 s1 p2 s2 w (K : KmerGraph) lost clips cs,
       create_kmer_graph G [(p1, s1); (p2, s2)] 2 = Ok (K, lost, clips, cs) →
       w ∈ get_kmers p1 2 → w ∈ get_kmers p2 2 →
       ∃ n,
         attr_id_kmer_map (graph K) !! n = Some w
         ∧ (∀ m, attr_id_kmer_map (graph K) !! m = Some w → m = n)
         ∧ (∃ K0 : KmerGraph,
              build_kmer_graph G [(p1, s1); (p2, s2)] 2 = Ok (K0, lost)
              ∧ n ∈ nodes K0
              ∧ score_of K0 n
                = (occurrences w (get_kmers p1 2) * s1
                   + occurrences w (get_kmers p2 2) * s2)%Qc)
         ∧ (n ∈ nodes K →
            score_of K n
            = (occurrences w (get_kmers p1 2) * s1
               + occurrences w (get_kmers p2 2) * s2)%Qc)).
Proof.
  split.
  - intros G pp k K lost clips cs Hc.
    destruct (create_kmer_graph_stages _ _ _ _ _ _ _ Hc)
      as (t & K0 & Ht & Hb & Hclip & Hg0 & Hg).
    split.
    + rewrite Hg. cbn. intros i j kmer. apply tables_inv_inj.
      exact (converted_inv _ _ _ _ _ Ht).
    + intros n Hn.
      apply clip_dangling_ends_keeps in Hclip as (Hgg & Hnodes & _).
      rewrite Hgg. apply (build_kmer_graph_vertex _ _ _ _ _ _ Hb).
      by apply Hnodes.
  - intros G p1 s1 p2 s2 w K lost clips cs Hc Hw1 Hw2.
    destruct (create_kmer_graph_stages _ _ _ _ _ _ _ Hc)
      as (t & K0 & Ht & Hb & Hclip & Hg0 & Hg).
    set (starts := (get_start_end_nodes G).1) in *.
    set (ends := (get_start_end_nodes G).2) in *.
    destruct (get_kmers_not_deferred starts ends 2 p1 w Hw1) as [Hd1 Hk1].
    destruct (get_kmers_not_deferred starts ends 2 p2 w Hw2) as [Hd2 Hk2].
    destruct (build_kmer_graph_kmer_vertex _ _ _ _ _ (p1, s1) w Hb)
      as (n & Hn & Hin); [by left|done|cbn [fst]; by rewrite Hk1|].
    assert (score_of K0 n
            = (occurrences w (get_kmers p1 2) * s1
               + occurrences w (get_kmers p2 2) * s2)%Qc) as Hscore.
    { rewrite (build_kmer_graph_score _ _ _ _ _ n w Hb);
        [|by repeat constructor|done].
      cbn [fmap list_fmap Py.sum foldr fst snd].
      by rewrite Hk1, Hk2, Qcplus_0_r. }
    exists n. rewrite Hg. rewrite Hg0 in Hn.
    cbn [attr_id_kmer_map] in Hn |- *.
    split; [done|]. split.
    { intros m Hm. by apply (tables_inv_inj t m n w
                               (converted_inv _ _ _ _ _ Ht)). }
    split; [by exists K0|].
    intros Hin'.
    apply clip_dangling_ends_keeps in Hclip as (_ & _ & _ & Hsc & _).
    by rewrite Hsc.
Qed.

Lemma create_kmer_graph_unique_vertices_witness :
  ∃ (K : KmerGraph) lost clips cs n,
    create_kmer_graph scenario_A_graph
      [(scenario_A_path1, Qc_of_Z 2); (scenario_A_path2, Qc_of_Z 5)] 2
    = Ok (K, lost, clips, cs)
    ∧ attr_id_kmer_map (graph K) !! n = Some [mkExon 0 10; mkExon 20 30]
    ∧ n ∈ nodes K
    ∧ score_of K n
      = (occurrences [mkExon 0 10; mkExon 20 30]
           (get_kmers scenario_A_path1 2) * Qc_of_Z 2
         + occurrences [mkExon 0 10; mkExon 20 30]
             (get_kmers scenario_A_path2 2) * Qc_of_Z 5)%Qc.
Proof.
  destruct (create_kmer_graph scenario_A_graph
              [(scenario_A_path1, Qc_of_Z 2); (scenario_A_path2, Qc_of_Z 5)] 2)
    as [[[[K lost] clips] cs]|e] eqn:E; [|vm_compute in E; discriminate].
  exists K, lost, clips, cs.
  destruct (proj2 create_kmer_graph_unique_vertices _ _ _ _ _
              [mkExon 0 10; mkExon 20 30] _ _ _ _ E)
    as (n & Hn & Huniq & _ & Hscore).
  - apply list_elem_of_In. vm_compute. tauto.
  - apply list_elem_of_In. vm_compute. tauto.
  - exists n. split; [done|]. split; [done|].
    assert (0 = n) as <-.
    { apply Huniq. vm_compute in E. injection E as <- _ _ _.
      vm_compute. reflexivity. }
    assert (0 ∈ nodes K) as Hin.
    { vm_compute in E. injection E as <- _ _ _.
      apply (bool_decide_unpack _). vm_compute. reflexivity. }
    split; [done|]. by apply Hscore.
Defined.

(** C8: a partial path shorter than [k] whose first node is a leaf source
    and whose last node is a leaf sink becomes the k-mer path
    [SOURCE, n, SINK], where [n] is the one vertex whose tuple is the whole
    path; it is put in no bucket of short paths, it is not among the lost
    paths, and its vertex is in the clipped graph between [SOURCE] and
    [SINK]. *)
Theorem short_full_length_path (G : SpliceGraph) (pp : list PartialPath)
    (k : Z) (K : KmerGraph) lost clips cs (path : list Exon) (score : Qc) :
  create_kmer_graph G pp k = Ok (K, lost, clips, cs) →
  (path, score) ∈ pp →
  Z.of_nat (length path) < k →
  full_length (get_start_end_nodes G).1 (get_start_end_nodes G).2 path
    = true →
  ∃ n,
    attr_id_kmer_map (graph K) !! n = Some path
    ∧ (∀ m, attr_id_kmer_map (graph K) !! m = Some path → m = n)
    ∧ n ∈ nodes K ∧ (SOURCE, n) ∈ edge K ∧ (n, SINK) ∈ edge K
    ∧ (n ∉ clips)
    ∧ ((path, score) ∉ lost)
    ∧ ∃ t,
        convert_paths (get_start_end_nodes G).1 (get_start_end_nodes G).2 k
          empty_tables pp = Ok t
        ∧ ([SOURCE; n; SINK], score) ∈ kmer_paths t
        ∧ ∀ m bucket, short_partial_path_dict t !! m = Some bucket →
                      (path, score) ∉ bucket.
Proof.
  intros Hc Hp Hlen Hfull.
  destruct (create_kmer_graph_stages _ _ _ _ _ _ _ Hc)
    as (t & K0 & Ht & Hb & Hclip & Hg0 & Hg).
  set (starts := (get_start_end_nodes G).1) in *.
  set (ends := (get_start_end_nodes G).2) in *.
  assert (deferred starts ends k path = false) as Hd
    by (unfold deferred; rewrite Hfull; apply andb_false_r).
  assert (path_kmers path k = [path]) as Hk.
  { unfold path_kmers. by rewrite (proj2 (Z.ltb_lt _ _) Hlen). }
  destruct (converted_path _ _ _ _ _ Ht (path, score) Hp Hd)
    as ([kp s] & Hkp & Hs & ids & Hids & Heq).
  cbn [fst snd] in Hs, Hids, Heq. subst s. rewrite Hk in Hids.
  apply Forall2_cons_inv_l in Hids as (n & ids' & Hn & Hnil & ->).
  apply Forall2_nil_inv_l in Hnil as ->.
  unfold kmerpath_of in Heq. unfold full_length in Hfull.
  apply andb_true_iff in Hfull as [Hst Hen]. rewrite Hst, Hen in Heq.
  cbn [app] in Heq. subst kp.
  destruct (build_kmer_graph_spec _ _ _ _ _ Hb)
    as (t' & kps2 & Ht' & _ & Hedges & Hnodes & _ & Hlost & _).
  fold starts ends in Ht'. rewrite Ht in Ht'. injection Ht' as <-.
  assert (n ∈ nodes K0) as Hin.
  { apply Hnodes. eexists. split; [exact Hkp|]. cbn. set_solver. }
  assert (protected K0 n) as Hprot.
  { unfold protected. rewrite Hg0. cbn [attr_source attr_sink]. split.
    - apply Hedges. eexists. split; [exact Hkp|]. cbn. set_solver.
    - apply Hedges. eexists. split; [exact Hkp|]. cbn. set_solver. }
  apply clip_dangling_ends_keeps in Hclip as (_ & _ & _ & _ & Hkeep & Hnc).
  destruct (Hkeep n Hin Hprot) as [Hin' [Hsrc Hsnk]].
  rewrite Hg in Hsrc, Hsnk |- *. cbn [attr_source attr_sink] in Hsrc, Hsnk.
  cbn [attr_id_kmer_map].
  assert (∀ m bucket, short_partial_path_dict t !! m = Some bucket →
                      (path, score) ∉ bucket) as Hbuckets.
  { intros m bucket Hm Hin''.
    destruct (converted_bucket _ _ _ _ _ Ht m bucket _ Hm Hin'')
      as (_ & Hd' & _).
    cbn [fst] in Hd'. congruence. }
  exists n. split; [done|]. split.
  { intros m Hm. by apply (tables_inv_inj t m n path
                             (converted_inv _ _ _ _ _ Ht)). }
  repeat (split; [done|]). split; [by intros ?%Hnc|]. split.
  { intros (m & bucket & Hm & Hin'')%Hlost. by apply (Hbuckets m bucket). }
  by exists t.
Qed.

Lemma short_full_length_path_witness :
  ∃ (K : KmerGraph) lost clips cs n,
    create_kmer_graph scenario_B_graph [([mkExon 40 50], Qc_of_Z 1)] 2
    = Ok (K, lost, clips, cs)
    ∧ attr_id_kmer_map (graph K) !! n = Some [mkExon 40 50]
    ∧ n ∈ nodes K ∧ (SOURCE, n) ∈ edge K ∧ (n, SINK) ∈ edge K
    ∧ ([mkExon 40 50], Qc_of_Z 1) ∉ lost.
Proof.
  destruct (create_kmer_graph scenario_B_graph
              [([mkExon 40 50], Qc_of_Z 1)] 2)
    as [[[[K lost] clips] cs]|e] eqn:E; [|vm_compute in E; discriminate].
  destruct (short_full_length_path _ _ _ _ _ _ _ [mkExon 40 50] (Qc_of_Z 1) E)
    as (n & Hn & _ & Hin & Hsrc & Hsnk & _ & Hlost & _).
  - by left.
  - simpl. lia.
  - vm_compute. reflexivity.
  - by exists K, lost, clips, cs, n.
Defined.

(** ** Windows of a path *)

Lemma slice_window {A} (l : list A) (i k : Z) :
  0 ≤ i → 0 ≤ k →
  Py.slice l i (i + k) = take (Z.to_nat k) (drop (Z.to_nat i) l).
Proof.
  intros Hi Hk. unfold Py.slice, Py.slice_index.
  destruct (Z.ltb_spec i 0) as [|_]; [lia|].
  destruct (Z.ltb_spec (i + k) 0) as [|_]; [lia|].
  destruct (Z.le_gt_cases i (Z.of_nat (length l))) as [Hle|Hgt].
  - rewrite (Z.min_l i) by done.
    destruct (Z.le_gt_cases (i + k) (Z.of_nat (length l))) as [Hle'|Hgt'].
    + rewrite Z.min_l by done. f_equal. lia.
    + rewrite Z.min_r by lia.
      rewrite !take_ge; [done|rewrite length_drop; lia..].
  - rewrite !(Z.min_r _ (Z.of_nat (length l))) by lia.
    rewrite !drop_ge by lia. by rewrite !take_nil.
Qed.

Lemma windows_seq {A} (kk : nat) (l : list A) :
  (1 ≤ kk)%nat →
  windows kk l
  = (λ i, take kk (drop i l)) <$> seq 0 (length l + 1 - kk).
Proof.
  intros Hkk. induction l as [|x l IH].
  - cbn [windows length]. by replace (0 + 1 - kk)%nat with 0%nat by lia.
  - cbn [windows]. destruct (decide (length (x :: l) < kk)%nat) as [Hlt|Hge].
    + by replace (length (x :: l) + 1 - kk)%nat with 0%nat by lia.
    + cbn [length] in *.
      replace (S (length l) + 1 - kk)%nat
        with (S (length l + 1 - kk)) by lia.
      cbn [seq fmap list_fmap]. rewrite drop_0. f_equal.
      rewrite IH, <- seq_shift, <- list_fmap_compose. done.
Qed.

Lemma get_kmers_windows (path : list Exon) (k : Z) :
  1 ≤ k → get_kmers path k = windows (Z.to_nat k) path.
Proof.
  intros Hk. rewrite windows_seq by lia. unfold get_kmers, Py.xrange.
  rewrite <- list_fmap_compose.
  replace (Z.to_nat (Z.of_nat (length path) - (k - 1) - 0))
    with (length path + 1 - Z.to_nat k)%nat by lia.
  apply list_fmap_ext. intros _ i _. cbn.
  rewrite slice_window by lia. do 2 f_equal. lia.
Qed.

Lemma windows_short {A} (kk : nat) (l : list A) :
  (length l < kk)%nat → windows kk l = [].
Proof.
  intros Hlt. destruct l as [|x l]; [done|].
  cbn [windows]. by rewrite decide_True.
Qed.

Lemma windows_long {A} (kk : nat) (x : A) (l : list A) :
  (kk ≤ length (x :: l))%nat →
  windows kk (x :: l) = take kk (x :: l) :: windows kk l.
Proof. intros Hle. cbn [windows]. rewrite decide_False; [done|lia]. Qed.

Lemma windows_exact {A} (kk : nat) (l : list A) :
  (1 ≤ kk)%nat → length l = kk → windows kk l = [l].
Proof.
  intros Hkk Hlen. destruct l as [|x l]; [cbn in Hlen; lia|].
  rewrite windows_long by lia. rewrite take_ge by lia.
  rewrite windows_short; [done|]. cbn in Hlen. lia.
Qed.

Lemma snoc_last {A} (l : list A) :
  l ≠ [] → ∃ x, last l = Some x ∧ l = take (length l - 1) l ++ [x].
Proof.
  destruct l as [|x l _] using rev_ind; [done|]. intros _.
  exists x. rewrite last_snoc, length_app. cbn [length].
  replace (length l + 1 - 1)%nat with (length l) by lia.
  by rewrite take_app_length.
Qed.

Lemma omap_last_cons {A} (v : list A) rest lv :
  last v = Some lv → omap last (v :: rest) = lv :: omap last rest.
Proof. intros Hv. cbn. by rewrite Hv. Qed.

Lemma windows_chained (kk : nat) (l : list Exon) :
  (1 ≤ kk)%nat → chained kk (windows kk l).
Proof.
  intros Hkk. induction l as [|x l IH]; [done|].
  destruct (decide (length (x :: l) < kk)%nat) as [Hlt|Hge].
  { by rewrite windows_short. }
  rewrite windows_long by lia.
  destruct l as [|y l]; [done|].
  destruct (decide (length (y :: l) < kk)%nat) as [Hlt'|Hge'].
  { by rewrite windows_short. }
  rewrite windows_long in IH |- * by lia.
  split; [|exact IH]. unfold overlapping.
  rewrite !length_take. split; [cbn [length] in *; lia|].
  split; [cbn [length] in *; lia|].
  rewrite take_take. replace ((kk - 1) `min` kk)%nat with (kk - 1)%nat by lia.
  destruct kk as [|kk']; [lia|].
  replace (S kk' - 1)%nat with kk' by lia.
  change (take (S kk') (x :: y :: l)) with (x :: take kk' (y :: l)).
  reflexivity.
Qed.

(** From the windows back to the path: the first window followed by the
    last node of each of the others. *)
Lemma windows_reconstruct (kk : nat) (l : list Exon) :
  (1 ≤ kk)%nat → (kk ≤ length l)%nat →
  ∃ w ws, windows kk l = w :: ws ∧ w ++ omap last ws = l.
Proof.
  intros Hkk. induction l as [|x l IH]; intros Hlen; [cbn in Hlen; lia|].
  rewrite windows_long by done.
  destruct (decide (length l < kk)%nat) as [Hlt|Hge].
  - rewrite windows_short by done. eexists _, []. split; [done|].
    cbn [omap]. rewrite app_nil_r. apply take_ge. cbn [length] in *. lia.
  - destruct IH as (w & ws & Hw & Hl); [lia|].
    eexists _, _. split; [by rewrite Hw|].
    assert (w = take kk l) as Hwk.
    { destruct l as [|y l]; [done|].
      rewrite windows_long in Hw by lia. congruence. }
    assert (length w = kk) as Hwlen by (rewrite Hwk, length_take; lia).
    destruct (snoc_last w) as (lw & Hlast & Hsnoc).
    { intros ->. cbn in Hwlen. lia. }
    rewrite (omap_last_cons _ _ _ Hlast).
    destruct kk as [|kk']; [lia|].
    change (take (S kk') (x :: l)) with (x :: take kk' l).
    cbn [app]. f_equal.
    assert (take kk' w = take kk' l) as Ht
      by (rewrite Hwk, take_take; f_equal; lia).
    assert (w = take kk' l ++ [lw]) as Hw'.
    { rewrite <- Ht. replace kk' with (length w - 1)%nat by lia.
      exact Hsnoc. }
    etrans; [|exact Hl]. rewrite Hw'. by rewrite <- app_assoc.
Qed.

(** From a chain of overlapping k-mers to the path whose windows they
    are. *)
Lemma chained_windows (kk : nat) (rest : list (list Exon)) : ∀ k1,
  (1 ≤ kk)%nat → chained kk (k1 :: rest) →
  rest ≠ [] ∨ length k1 = kk →
  windows kk (k1 ++ omap last rest) = k1 :: rest
  ∧ length (omap last rest) = length rest.
Proof.
  induction rest as [|v rest IH]; intros k1 Hkk Hch Hlen.
  - destruct Hlen as [|Hlen]; [done|]. cbn [omap]. rewrite app_nil_r.
    split; [by apply windows_exact|done].
  - destruct Hch as [(Hl1 & Hlv & Hov) Hch].
    destruct (snoc_last v) as (lv & Hlast & Hsnoc).
    { intros ->. cbn in Hlv. lia. }
    destruct (IH v Hkk Hch (or_intror Hlv)) as [IHw IHl].
    rewrite (omap_last_cons _ _ _ Hlast). cbn [length].
    split; [|by rewrite IHl].
    destruct k1 as [|x t]; [cbn in Hl1; lia|].
    cbn [drop] in Hov. rewrite drop_0 in Hov.
    assert (v = t ++ [lv]) as Hv'.
    { rewrite Hov. replace (kk - 1)%nat with (length v - 1)%nat by lia.
      exact Hsnoc. }
    assert (t ++ lv :: omap last rest = v ++ omap last rest) as Heq.
    { rewrite Hv'. by rewrite <- app_assoc. }
    cbn [app]. rewrite Heq, windows_long
      by (cbn [length]; rewrite length_app; lia).
    rewrite IHw. f_equal.
    destruct kk as [|kk']; [lia|].
    change (take (S kk') (x :: v ++ omap last rest))
      with (x :: take kk' (v ++ omap last rest)).
    f_equal. rewrite take_app_le by lia.
    rewrite Hov. f_equal. lia.
Qed.

Lemma windows_length {A} (kk : nat) (l w : list A) :
  (1 ≤ kk)%nat → w ∈ windows kk l → length w = kk.
Proof.
  intros Hkk. rewrite windows_seq by done.
  intros (i & -> & Hi%elem_of_seq)%list_elem_of_fmap.
  rewrite length_take, length_drop. lia.
Qed.

Lemma path_kmers_chained (path : list Exon) (k : Z) :
  1 ≤ k → chained (Z.to_nat k) (path_kmers path k).
Proof.
  intros Hk. unfold path_kmers.
  destruct (Z.of_nat (length path) <? k); [done|].
  rewrite get_kmers_windows by done. apply windows_chained. lia.
Qed.

(** ** The edges of the k-mer graph *)

Lemma consecutive_cons_elem x l e :
  e ∈ consecutive (x :: l) →
  (∃ y, head l = Some y ∧ e = (x, y)) ∨ e ∈ consecutive l.
Proof.
  destruct l as [|y l]; [by intros ?%elem_of_nil|].
  intros [->|He]%elem_of_cons; [left; by exists y|by right].
Qed.

Lemma consecutive_snoc_elem l x e :
  e ∈ consecutive (l ++ [x]) →
  e ∈ consecutive l ∨ ∃ y, last l = Some y ∧ e = (y, x).
Proof.
  induction l as [|y l IH]; [by intros ?%elem_of_nil|].
  destruct l as [|z l].
  - intros [->|[]%elem_of_nil]%elem_of_cons. right. by exists y.
  - intros [->|He]%elem_of_cons; [left; by left|].
    destruct (IH He) as [?|(y' & Hl & ->)]; [left; by right|].
    right. by exists y'.
Qed.

Lemma ids_of_is_Some idk kmers ids n :
  ids_of idk kmers ids → n ∈ ids → is_Some (idk !! n).
Proof.
  intros Hids [i Hi]%list_elem_of_lookup.
  destruct (Forall2_lookup_r _ _ _ _ _ Hids Hi) as (kmer & _ & Hk). eauto.
Qed.

Lemma ids_of_overlapping idk kk kmers ids e :
  ids_of idk kmers ids → chained kk kmers → e ∈ consecutive ids →
  ∃ u v, idk !! e.1 = Some u ∧ idk !! e.2 = Some v ∧ overlapping kk u v.
Proof.
  intros Hids. revert e.
  induction Hids as [|u i kmers ids Hi Hids IH]; intros e Hch He;
    [by apply elem_of_nil in He|].
  destruct Hids as [|v j kmers ids Hj Hids]; [by apply elem_of_nil in He|].
  destruct Hch as [Hov Hch].
  apply elem_of_cons in He as [->|He]; [by exists u, v|].
  by apply IH.
Qed.

Lemma kmer_path_edges_ok idk starts ends k p kp e :
  1 ≤ k →
  kmer_path_of idk starts ends k p kp →
  e ∈ consecutive kp.1 → edge_ok idk (Z.to_nat k) e.
Proof.
  intros Hk (_ & ids & Hids & ->) He. unfold kmerpath_of in He.
  pose proof (path_kmers_chained p.1 k Hk) as Hch.
  assert (∀ e, e ∈ consecutive
                     (ids ++ (if is_end ends p.1 then [SINK] else [])) →
               edge_ok idk (Z.to_nat k) e) as Hmid.
  { intros e' He'. destruct (is_end ends p.1).
    - apply consecutive_snoc_elem in He' as [He'|(y & Hy & ->)].
      + right; right. by eapply ids_of_overlapping.
      + right; left. split; [|done]. cbn.
        eapply ids_of_is_Some; [done|]. by apply last_Some_elem_of.
    - rewrite app_nil_r in He'. right; right. by eapply ids_of_overlapping. }
  destruct (is_start starts p.1); [|by apply Hmid].
  cbn [app] in He.
  apply consecutive_cons_elem in He as [(y & Hy & ->)|He]; [|by apply Hmid].
  left. split; [done|]. cbn. destruct ids as [|i ids].
  - destruct (is_end ends p.1); [|done]. left. cbn in Hy. congruence.
  - right. cbn in Hy. injection Hy as <-.
    eapply ids_of_is_Some; [done|]. by left.
Qed.

(** The tuples of the dictionary are not empty and have at most [k]
    nodes. *)
Lemma converted_tuple starts ends k pp t i kmer :
  1 ≤ k →
  convert_paths starts ends k empty_tables pp = Ok t →
  id_kmer_map t !! i = Some kmer →
  kmer ≠ [] ∧ (length kmer ≤ Z.to_nat k)%nat.
Proof.
  intros Hk Ht Hi.
  destruct (converted_kmer _ _ _ _ _ Ht i kmer Hi) as (p & Hp & _ & Hin).
  pose proof (converted_nonempty _ _ _ _ _ Ht) as Hne.
  rewrite Forall_forall in Hne. specialize (Hne p Hp).
  unfold path_kmers in Hin.
  destruct (Z.ltb_spec (Z.of_nat (length p.1)) k) as [Hlt|Hge].
  - apply list_elem_of_singleton in Hin as ->. split; [done|lia].
  - rewrite get_kmers_windows in Hin by done.
    apply windows_length in Hin; [|lia].
    split; [|lia]. intros ->. cbn in Hin. lia.
Qed.

(** Every edge of the graph [create_kmer_graph] returns is of one of the
    three kinds. *)
Lemma create_kmer_graph_edges G pp k (K : KmerGraph) lost clips cs e :
  1 ≤ k →
  create_kmer_graph G pp k = Ok (K, lost, clips, cs) →
  e ∈ edge K → edge_ok (attr_id_kmer_map (graph K)) (Z.to_nat k) e.
Proof.
  intros Hk Hc He.
  destruct (create_kmer_graph_stages _ _ _ _ _ _ _ Hc)
    as (t & K0 & Ht & Hb & Hclip & Hg0 & Hg).
  apply clip_dangling_ends_keeps in Hclip as (_ & _ & Hedges & _).
  apply Hedges in He.
  destruct (build_kmer_graph_spec _ _ _ _ _ Hb)
    as (t' & kps2 & Ht' & _ & Hedges0 & _).
  rewrite Ht in Ht'. injection Ht' as <-.
  destruct (proj1 (Hedges0 e) He) as (kp & Hkp & He').
  destruct (converted_kmer_path _ _ _ _ _ Ht kp Hkp) as (p & _ & _ & Hrel).
  rewrite Hg. cbn [attr_id_kmer_map].
  by eapply kmer_path_edges_ok.
Qed.

(** ** [reconstruct_path] *)

Lemma slice_interior {A} (a b c : A) (l : list A) :
  Py.slice (a :: b :: l ++ [c]) 2 (-1) = l.
Proof.
  unfold Py.slice, Py.slice_index. cbn [length]. rewrite length_app.
  cbn [length].
  change (2 <? 0) with false. change (-1 <? 0) with true. cbv iota.
  replace (Z.min 2 (Z.of_nat (S (S (length l + 1))))) with 2 by lia.
  replace (Z.to_nat (Z.max 0 (-1 + Z.of_nat (S (S (length l + 1)))) - 2))
    with (length l) by lia.
  change (Z.to_nat 2) with 2%nat. cbn [drop].
  by rewrite drop_0, take_app_length.
Qed.

Lemma mapM_last_nodes (idk : gmap Z (list Exon)) kmers ids :
  ids_of idk kmers ids → Forall (λ kmer, kmer ≠ []) kmers →
  mapM (λ n, kmer ← Py.getitem idk n; Py.index kmer (-1)) ids
  = Ok (omap last kmers)
  ∧ length (omap last kmers) = length kmers.
Proof.
  intros Hids. induction Hids as [|kmer n kmers ids Hn _ IH]; intros Hne.
  - done.
  - apply Forall_cons in Hne as [Hk Hne]. destruct (IH Hne) as [IHm IHl].
    destruct (snoc_last kmer Hk) as (x & Hx & _).
    rewrite (omap_last_cons _ _ _ Hx). cbn [mapM length].
    rewrite (getitem_Some _ _ _ Hn). cbn [mbind result_bind].
    rewrite index_last, Hx, IHm. split; [done|]. by rewrite IHl.
Qed.

Lemma reconstruct_path_spec (idk : gmap Z (list Exon)) n1 rest k1 kmers :
  ids_of idk (k1 :: kmers) (n1 :: rest) →
  Forall (λ kmer, kmer ≠ []) kmers →
  reconstruct_path idk (SOURCE :: n1 :: rest ++ [SINK])
  = Ok (k1 ++ omap last kmers).
Proof.
  intros Hids Hne. apply Forall2_cons in Hids as [Hn1 Hids].
  unfold reconstruct_path. rewrite slice_interior.
  change (Py.index (SOURCE :: n1 :: rest ++ [SINK]) 1) with (Ok n1).
  cbn [mbind result_bind]. rewrite (getitem_Some _ _ _ Hn1).
  cbn [mbind result_bind].
  by destruct (mapM_last_nodes idk kmers rest Hids Hne) as [-> _].
Qed.

(** The vertices between [SOURCE] and [SINK] of a path along edges of the
    three kinds are k-mers, each overlapping with the next one. *)
Lemma interior_chain (idk : gmap Z (list Exon)) kk rest : ∀ n1,
  idk !! SOURCE = None → idk !! SINK = None →
  (∀ e, e ∈ consecutive (n1 :: rest ++ [SINK]) → edge_ok idk kk e) →
  is_Some (idk !! n1) →
  ∃ k1 kmers, ids_of idk (k1 :: kmers) (n1 :: rest)
              ∧ chained kk (k1 :: kmers).
Proof.
  induction rest as [|n2 rest IH]; intros n1 Hsrc Hsnk Hwalk [k1 Hk1].
  - exists k1, []. split; [|done]. by repeat constructor.
  - assert (edge_ok idk kk (n1, n2)) as Hedge by (apply Hwalk; by left).
    assert (∀ e, e ∈ consecutive (n2 :: rest ++ [SINK]) → edge_ok idk kk e)
      as Hwalk' by (intros e He; apply Hwalk; by right).
    assert (∃ x, (n2, x) ∈ consecutive (n2 :: rest ++ [SINK])) as [x Hx].
    { destruct rest as [|n3 rest]; eexists; by left. }
    destruct Hedge as [[Heq _]|[[_ Heq]|(u & v & Hu & Hv & Hov)]];
      cbn [fst snd] in *.
    + subst n1. congruence.
    + subst n2.
      destruct (Hwalk' _ Hx) as [[Heq _]|[[[? Hs] _]|(u & v & Hu & _)]];
        cbn [fst snd] in *; [done|congruence..].
    + destruct (IH n2 Hsrc Hsnk Hwalk') as (k2 & kmers & Hids & Hch); [eauto|].
      pose proof Hids as Hids'.
      apply Forall2_cons in Hids' as [Hk2 _].
      assert (k2 = v) as -> by congruence. assert (k1 = u) as -> by congruence.
      exists u, (v :: kmers). split; [by constructor|by split].
Qed.

(** X1: for a path [SOURCE, n1, ..., nm, SINK] ([m ≥ 1]) along edges of
    the graph [create_kmer_graph] returns ([k ≥ 1]), the reconstruction
    of [assemble_transcript_graph] is the whole tuple of [n1] followed by
    the last node of each of [n2, ..., nm], without the sentinels.  It is
    the underlying node sequence: consecutive k-mers of the path (indeed
    the two ends of any edge between k-mers) overlap in all but one
    position, the k-mers of the reconstructed sequence are exactly the
    tuples of [n1, ..., nm], and no other sequence has these k-mers. *)
Theorem reconstruct_path_underlying_nodes (G : SpliceGraph)
    (pp : list PartialPath) (k : Z) (K : KmerGraph) lost clips cs
    (n1 : Z) (rest : list Z) :
  1 ≤ k →
  create_kmer_graph G pp k = Ok (K, lost, clips, cs) →
  (∀ e, e ∈ consecutive (SOURCE :: n1 :: rest ++ [SINK]) → e ∈ edge K) →
  (∀ u v, (u, v) ∈ edge K → u ≠ SOURCE → v ≠ SINK →
     ∃ tu tv, attr_id_kmer_map (graph K) !! u = Some tu
              ∧ attr_id_kmer_map (graph K) !! v = Some tv
              ∧ overlapping (Z.to_nat k) tu tv)
  ∧ ∃ k1 kmers,
      ids_of (attr_id_kmer_map (graph K)) (k1 :: kmers) (n1 :: rest)
      ∧ chained (Z.to_nat k) (k1 :: kmers)
      ∧ reconstruct_path (attr_id_kmer_map (graph K))
          (SOURCE :: n1 :: rest ++ [SINK])
        = Ok (k1 ++ omap last kmers)
      ∧ length (omap last kmers) = length kmers
      ∧ path_kmers (k1 ++ omap last kmers) k = k1 :: kmers
      ∧ ∀ p, path_kmers p k = k1 :: kmers → p = k1 ++ omap last kmers.
Proof.
  intros Hk Hc Hwalk.
  destruct (create_kmer_graph_stages _ _ _ _ _ _ _ Hc)
    as (t & K0 & Ht & _ & _ & _ & Hg).
  destruct (converted_sentinels _ _ _ _ _ Ht) as [Hsrc Hsnk].
  pose proof (λ e, create_kmer_graph_edges _ _ _ _ _ _ _ e Hk Hc) as Hedges.
  rewrite Hg in Hedges |- *. cbn [attr_id_kmer_map] in Hedges |- *.
  set (idk := id_kmer_map t) in *. set (kk := Z.to_nat k) in *.
  split.
  { intros u v Huv Hu Hv.
    destruct (Hedges _ Huv) as [[? _]|[[_ ?]|?]]; done. }
  assert (∀ e, e ∈ consecutive (SOURCE :: n1 :: rest ++ [SINK]) →
               edge_ok idk kk e) as Hok by (intros e He; by apply Hedges, Hwalk).
  assert (∀ e, e ∈ consecutive (n1 :: rest ++ [SINK]) → edge_ok idk kk e)
    as Hok' by (intros e He; apply Hok; by right).
  assert (∃ x, (n1, x) ∈ consecutive (n1 :: rest ++ [SINK])) as [x Hx].
  { destruct rest as [|n2 rest]; eexists; by left. }
  assert (is_Some (idk !! n1)) as Hn1.
  { destruct (Hok (SOURCE, n1)) as [[_ [Heq|?]]|[[[? Hs] _]|(u & v & Hu & _)]];
      cbn [fst snd] in *; [by left| |done|congruence..].
    subst n1.
    destruct (Hok' _ Hx) as [[Heq _]|[[[? Hs] _]|(u & v & Hu & _)]];
      cbn [fst snd] in *; [done|congruence..]. }
  destruct (interior_chain idk kk rest n1 Hsrc Hsnk Hok' Hn1)
    as (k1 & kmers & Hids & Hch).
  assert (∀ i kmer, idk !! i = Some kmer → kmer ≠ [] ∧ (length kmer ≤ kk)%nat)
    as Hbounds by (intros i kmer; by apply (converted_tuple _ _ _ _ _ _ _ Hk Ht)).
  assert (Forall (λ kmer, kmer ≠ []) (k1 :: kmers)) as Hne.
  { apply Forall_forall. intros kmer [i Hi]%list_elem_of_lookup.
    destruct (Forall2_lookup_l _ _ _ _ _ Hids Hi) as (n & _ & Hn).
    by destruct (Hbounds n kmer Hn). }
  apply Forall_cons in Hne as [Hne1 Hne].
  assert (path_kmers (k1 ++ omap last kmers) k = k1 :: kmers
          ∧ length (omap last kmers) = length kmers) as [Hkmers Hlen].
  { pose proof Hids as Hids'. apply Forall2_cons in Hids' as [Hk1 _].
    destruct (Hbounds n1 k1 Hk1) as [_ Hle].
    destruct kmers as [|v kmers].
    - cbn [omap list_omap]. rewrite app_nil_r. split; [|done].
      unfold path_kmers.
      destruct (Z.ltb_spec (Z.of_nat (length k1)) k) as [|Hge]; [done|].
      rewrite get_kmers_windows by done. apply windows_exact; lia.
    - destruct (chained_windows kk (v :: kmers) k1) as [Hw Hl];
        [lia|done|by left|].
      split; [|done]. unfold path_kmers. destruct Hch as [(Hl1 & _) _].
      rewrite length_app.
      destruct (Z.ltb_spec (Z.of_nat (length k1 + length (omap last (v :: kmers)))) k)
        as [|_]; [lia|].
      by rewrite get_kmers_windows. }
  exists k1, kmers. split; [done|]. split; [done|].
  split; [by apply reconstruct_path_spec|]. split; [done|]. split; [done|].
  intros p Hp. unfold path_kmers in Hp.
  destruct (Z.ltb_spec (Z.of_nat (length p)) k) as [Hlt|Hge].
  - injection Hp as <- <-. cbn [omap list_omap]. by rewrite app_nil_r.
  - rewrite get_kmers_windows in Hp by done.
    destruct (windows_reconstruct kk p) as (w & ws & Hw & <-); [lia..|].
    fold kk in Hp. rewrite Hw in Hp. by injection Hp as <- <-.
Qed.

Lemma scenario_A_built_eq :
  create_kmer_graph scenario_A_graph scenario_A_paths 2
  = Ok (scenario_A_built.1.1.1, scenario_A_built.1.1.2,
        scenario_A_built.1.2, scenario_A_built.2).
Proof. vm_compute. reflexivity. Qed.

Lemma reconstruct_path_underlying_nodes_witness :
  ∃ k1 kmers,
    ids_of (attr_id_kmer_map (graph scenario_A_built.1.1.1))
      (k1 :: kmers) [0; 1]
    ∧ reconstruct_path (attr_id_kmer_map (graph scenario_A_built.1.1.1))
        [SOURCE; 0; 1; SINK]
      = Ok (k1 ++ omap last kmers)
    ∧ path_kmers (k1 ++ omap last kmers) 2 = k1 :: kmers.
Proof.
  assert (1 ≤ 2) as Hk by lia.
  assert ({[ (SOURCE, 0); (0, 1); (1, SINK) ]}
          ⊆ edge scenario_A_built.1.1.1) as Hsub.
  { apply (bool_decide_unpack _). vm_compute. reflexivity. }
  destruct (reconstruct_path_underlying_nodes _ _ _ _ _ _ _ 0 [1] Hk
              scenario_A_built_eq)
    as (_ & k1 & kmers & Hids & _ & Hrec & _ & Hkmers & _).
  - intros e He. apply Hsub. cbn [consecutive app] in He.
    repeat (apply elem_of_cons in He as [->|He]; [set_solver|]).
    by apply elem_of_nil in He.
  - by exists k1, kmers.
Defined.

(** ** More on [clip_dangling_ends] *)

Lemma sum_app xs ys : Py.sum (xs ++ ys) = (Py.sum xs + Py.sum ys)%Qc.
Proof.
  induction xs as [|x xs IH]; [by rewrite Qcplus_0_l|].
  cbn [app]. change (x + Py.sum (xs ++ ys) = x + Py.sum xs + Py.sum ys)%Qc.
  by rewrite IH, Qcplus_assoc.
Qed.

Lemma sum_Permutation xs ys : xs ≡ₚ ys → Py.sum xs = Py.sum ys.
Proof.
  induction 1 as [|x xs ys _ IH|x y xs|xs ys zs _ IH1 _ IH2].
  - done.
  - change (x + Py.sum xs = x + Py.sum ys)%Qc. by rewrite IH.
  - change (y + (x + Py.sum xs) = x + (y + Py.sum xs))%Qc. ring.
  - by rewrite IH1.
Qed.

Lemma sum_scores_union (f : Z → Qc) (A B : gset Z) :
  A ## B →
  Py.sum (f <$> elements (A ∪ B))
  = (Py.sum (f <$> elements A) + Py.sum (f <$> elements B))%Qc.
Proof.
  intros Hdisj. rewrite <- sum_app, <- fmap_app.
  apply sum_Permutation, fmap_Permutation. by apply elements_disj_union.
Qed.

Section remove_nodes_from_facts.
Context {N : Type} {EqN : EqDecision N} {CountN : Countable N} {A GA : Type}.

Lemma remove_nodes_from_union (G : DiGraph N A GA) (S1 S2 : gset N) :
  remove_nodes_from (remove_nodes_from G S1) S2
  = remove_nodes_from G (S1 ∪ S2).
Proof.
  unfold remove_nodes_from. cbn. f_equal.
  - apply map_eq. intros i. apply option_eq. intros a.
    rewrite !map_lookup_filter_Some. cbn. rewrite not_elem_of_union. tauto.
  - apply set_eq. intros [u v]. rewrite !elem_of_filter. cbn.
    rewrite !not_elem_of_union. tauto.
Qed.
End remove_nodes_from_facts.


Lemma clip_step_acc K0 st :
  clip_inv st → clip_acc K0 st → clip_acc K0 (clip_step st).
Proof.
  intros (_ & Hsub & _) (HK & Hcn & Hsent & Hcs).
  assert (graph (clip_K st) = graph K0) as Hg by (by rewrite HK).
  assert (nodes (clip_K st) = nodes K0 ∖ clip_nodes st) as Hn
    by (by rewrite HK, nodes_remove_nodes_from).
  unfold clip_acc, clip_step. cbn [clip_K clip_nodes clip_score].
  set (new_clip := filter (dangling (clip_K st)) (test_nodes st)).
  assert (new_clip ⊆ nodes K0 ∖ clip_nodes st) as Hnew.
  { intros n [_ Hn']%elem_of_filter. rewrite <- Hn. by apply Hsub. }
  split; [by rewrite HK at 1; rewrite remove_nodes_from_union|].
  split; [set_solver|]. split.
  - intros n [Hn'|Hn']%elem_of_union; [by apply Hsent|].
    apply elem_of_filter in Hn' as [(Hs & Ht & _) _]. by rewrite <- Hg.
  - rewrite sum_scores_union by set_solver. rewrite Hcs. f_equal.
    f_equal. apply list_fmap_ext. intros _ n Hin%list_elem_of_lookup_2.
    apply elem_of_elements in Hin. rewrite HK.
    apply score_of_remove_nodes_from. set_solver.
Qed.

Lemma clip_loop_acc K0 fuel : ∀ st,
  clip_inv st → clip_acc K0 st → clip_acc K0 (clip_loop fuel st).
Proof.
  induction fuel as [|fuel IH]; intros st Hinv Hacc; cbn [clip_loop]; [done|].
  destruct (decide (test_nodes st = ∅)); [done|].
  apply IH; [by apply clip_step_inv|by apply clip_step_acc].
Qed.

Lemma clip_loop_more_fuel fuel : ∀ st fuel',
  clip_inv st → (size (nodes (clip_K st)) < fuel)%nat → (fuel ≤ fuel')%nat →
  clip_loop fuel' st = clip_loop fuel st.
Proof.
  induction fuel as [|fuel IH]; intros st fuel' Hinv Hlt Hle; [lia|].
  destruct fuel' as [|fuel']; [lia|]. cbn [clip_loop].
  destruct (decide (test_nodes st = ∅)) as [|Hne]; [done|].
  pose proof (clip_step_inv _ Hinv) as Hinv'.
  destruct (decide (test_nodes (clip_step st) = ∅)) as [He|Hne'].
  { destruct fuel, fuel'; cbn [clip_loop]; by rewrite ?decide_True. }
  apply IH; [done| |lia].
  destruct Hinv as (Hwf & Hsub & Hok).
  unfold clip_step in Hne' |- *. cbn [clip_K test_nodes] in Hne' |- *.
  set (new_clip := filter (dangling (clip_K st)) (test_nodes st)) in *.
  destruct (decide (new_clip = ∅)) as [He|Hne''].
  { exfalso. apply Hne'. rewrite He. apply set_eq. intros n.
    rewrite elem_of_difference, elem_of_set_bind.
    split; [|by intros ?%not_elem_of_empty].
    by intros [(m & Hm%not_elem_of_empty & _) _]. }
  rewrite nodes_remove_nodes_from.
  apply set_choose_L in Hne'' as [m Hm].
  assert (m ∈ nodes (clip_K st)) as Hmn.
  { apply Hsub. by apply elem_of_filter in Hm as [_ ?]. }
  assert (nodes (clip_K st) ∖ new_clip ⊂ nodes (clip_K st)) as Hsub'.
  { split; [set_solver|]. intros Hs. specialize (Hs m Hmn). set_solver. }
  apply subset_size in Hsub'. lia.
Qed.

(** X2: on a well-formed graph [clip_dangling_ends] returns the graph
    without the clipped vertices (and their edges), all attributes
    unchanged; the clipped vertices are vertices of the graph, never the
    source or the sink, and the clipped score is the sum of their
    scores. *)
Theorem clip_dangling_ends_induced (K K' : KmerGraph) clips cs :
  DiGraph_wf K →
  clip_dangling_ends K = (K', clips, cs) →
  clips ⊆ nodes K
  ∧ (attr_source (graph K) ∉ clips) ∧ (attr_sink (graph K) ∉ clips)
  ∧ K' = remove_nodes_from K clips
  ∧ cs = Py.sum (score_of K <$> elements clips).
Proof.
  intros Hwf. unfold clip_dangling_ends.
  pose proof (clip_loop_acc K (S (size (nodes K)))
                (mkClipState K (nodes K) ∅ 0%Qc) (clip_initial_inv K Hwf))
    as Hacc.
  revert Hacc.
  generalize (clip_loop (S (size (nodes K)))
                (mkClipState K (nodes K) ∅ 0%Qc)).
  intros st Hacc Heq. injection Heq as <- <- <-.
  destruct Hacc as (HK & Hcn & Hsent & Hcs).
  { split; [|split; [done|split; [by intros n ?%not_elem_of_empty|done]]].
    cbn [clip_K clip_nodes]. by rewrite remove_nodes_from_empty. }
  split; [done|]. split; [by intros [? _]%Hsent|].
  split; [by intros [_ ?]%Hsent|]. done.
Qed.

Lemma clip_dangling_ends_induced_witness :
  (clip_dangling_ends branch_graph).1.1
  = remove_nodes_from branch_graph {[ 2; 3 ]}
  ∧ (clip_dangling_ends branch_graph).2
    = Py.sum (score_of branch_graph <$> elements ({[ 2; 3 ]} : gset Z)).
Proof.
  assert ((clip_dangling_ends branch_graph).1.2 = {[ 2; 3 ]}) as Hclips
    by (apply (bool_decide_unpack _); vm_compute; reflexivity).
  rewrite <- Hclips.
  destruct (clip_dangling_ends_induced branch_graph
              (clip_dangling_ends branch_graph).1.1
              (clip_dangling_ends branch_graph).1.2
              (clip_dangling_ends branch_graph).2)
    as (_ & _ & _ & HK & Hcs).
  - apply (bool_decide_unpack _). vm_compute. reflexivity.
  - by destruct (clip_dangling_ends branch_graph) as [[? ?] ?].
  - by split.
Defined.

(** X3: on a well-formed graph the loop of [clip_dangling_ends] ends
    through its condition ([test_nodes] is empty) within one iteration more
    than there are vertices: running it with any larger bound gives the
    same state. *)
Theorem clip_dangling_ends_terminates (K : KmerGraph) :
  DiGraph_wf K →
  let st0 := mkClipState K (nodes K) ∅ 0%Qc in
  test_nodes (clip_loop (S (size (nodes K))) st0) = ∅
  ∧ ∀ fuel, (S (size (nodes K)) ≤ fuel)%nat →
            clip_loop fuel st0 = clip_loop (S (size (nodes K))) st0.
Proof.
  intros Hwf st0. pose proof (clip_initial_inv K Hwf) as Hinv.
  split.
  - apply clip_loop_exits; [done|]. right. cbn. lia.
  - intros fuel Hle. apply clip_loop_more_fuel; [done|cbn; lia|done].
Qed.

Lemma clip_dangling_ends_terminates_witness :
  test_nodes (clip_loop (S (size (nodes branch_graph)))
                (mkClipState branch_graph (nodes branch_graph) ∅ 0%Qc)) = ∅.
Proof.
  apply clip_dangling_ends_terminates.
  apply (bool_decide_unpack _). vm_compute. reflexivity.
Defined.

(** ** [connect_dangling_ends] *)

Lemma add_edges_spec (es : list (Z * Z)) : ∀ K : KmerGraph,
  let K' := foldl (λ K e, add_edge K e.1 e.2) K es in
  graph K' = graph K ∧ node K' = node K
  ∧ edge K' = edge K ∪ list_to_set es.
Proof.
  induction es as [|[u v] es IH]; intros K; cbv zeta; cbn [foldl fst snd].
  - split; [done|]. split; [done|]. cbn. by rewrite union_empty_r_L.
  - destruct (IH (add_edge K u v)) as (Hg & Hn & He). cbv zeta in *.
    rewrite Hg, Hn, He. split; [done|]. split; [done|]. cbn.
    by rewrite (union_comm_L {[(u, v)]}), <- union_assoc_L.
Qed.

Lemma elem_of_edges_to_add (K : KmerGraph) u v :
  (u, v) ∈ edges_to_add K ↔
  ∃ n, n ∈ nodes K ∧ n ≠ attr_source (graph K) ∧ n ≠ attr_sink (graph K)
       ∧ ((u = attr_source (graph K) ∧ v = n ∧ in_degree K n = 0%nat)
          ∨ (u = n ∧ v = attr_sink (graph K) ∧ out_degree K n = 0%nat)).
Proof.
  unfold edges_to_add. rewrite list_elem_of_bind. split.
  - intros (n & Hin & Hn%elem_of_elements). exists n. split; [done|].
    destruct (decide (n = attr_source (graph K) ∨ n = attr_sink (graph K)))
      as [|Hns]; [by apply elem_of_nil in Hin|].
    split; [tauto|]. split; [tauto|].
    apply elem_of_app in Hin as [Hin|Hin].
    + destruct (decide (in_degree K n = 0%nat)); [|by apply elem_of_nil in Hin].
      apply list_elem_of_singleton in Hin. injection Hin as -> ->. by left.
    + destruct (decide (out_degree K n = 0%nat)); [|by apply elem_of_nil in Hin].
      apply list_elem_of_singleton in Hin. injection Hin as -> ->. by right.
  - intros (n & Hn & Hs & Ht & Hcase). exists n.
    split; [|by apply elem_of_elements].
    rewrite decide_False by tauto. apply elem_of_app.
    destruct Hcase as [(-> & -> & Hd)|(-> & -> & Hd)]; [left|right];
      rewrite decide_True by done; by apply list_elem_of_singleton.
Qed.

Lemma edges_to_add_nil (K : KmerGraph) :
  (∀ n, n ∈ nodes K → ¬ dangling K n) → edges_to_add K = [].
Proof.
  intros Hok. destruct (edges_to_add K) as [|[u v] es] eqn:E; [done|].
  assert ((u, v) ∈ edges_to_add K) as Hin by (rewrite E; by left).
  apply elem_of_edges_to_add in Hin as (n & Hn & Hs & Ht & Hcase).
  destruct (Hok n Hn). split; [done|]. split; [done|].
  destruct Hcase as [(_ & _ & ?)|(_ & _ & ?)]; tauto.
Qed.

(** X4: [connect_dangling_ends] on a well-formed graph that contains its
    source and its sink keeps the vertices and their attributes; the edges
    of the result are the edges of the graph together with exactly the
    edges [(source, n)] for the vertices [n], other than the source and the
    sink, without predecessor and [(n, sink)] for the vertices [n], other
    than the source and the sink, without successor; afterwards every
    vertex but the source and the sink has a predecessor and a successor,
    a second call adds nothing, and [clip_dangling_ends] clips nothing. *)
Theorem connect_dangling_ends_connects (K : KmerGraph) :
  DiGraph_wf K →
  attr_source (graph K) ∈ nodes K → attr_sink (graph K) ∈ nodes K →
  let K' := connect_dangling_ends K in
  graph K' = graph K ∧ node K' = node K ∧ edge K ⊆ edge K'
  ∧ DiGraph_wf K'
  ∧ (∀ u v, (u, v) ∈ edge K' ↔
       (u, v) ∈ edge K
       ∨ ∃ n, n ∈ nodes K
              ∧ n ≠ attr_source (graph K) ∧ n ≠ attr_sink (graph K)
              ∧ ((u = attr_source (graph K) ∧ v = n
                  ∧ in_degree K n = 0%nat)
                 ∨ (u = n ∧ v = attr_sink (graph K)
                    ∧ out_degree K n = 0%nat)))
  ∧ (∀ n, n ∈ nodes K' →
       n ≠ attr_source (graph K) → n ≠ attr_sink (graph K) →
       (0 < in_degree K' n)%nat ∧ (0 < out_degree K' n)%nat)
  ∧ connect_dangling_ends K' = K'
  ∧ clip_dangling_ends K' = (K', ∅, 0%Qc).
Proof.
  intros Hwf Hsrc Hsnk K'.
  destruct (add_edges_spec (edges_to_add K) K) as (Hg & Hn & He).
  fold (connect_dangling_ends K) in Hg, Hn, He. fold K' in Hg, Hn, He.
  assert (nodes K' = nodes K) as Hnodes by (unfold nodes; by rewrite Hn).
  assert (∀ n, n ∈ nodes K' → ¬ dangling K' n) as Hok.
  { intros n Hin (Hs & Ht & Hd). rewrite Hg in Hs, Ht. rewrite Hnodes in Hin.
    destruct Hd as [Hd|Hd].
    - destruct (decide (in_degree K n = 0%nat)) as [H0|H0].
      + apply (proj1 (in_degree_0 K' n) Hd (attr_source (graph K))).
        rewrite He. apply elem_of_union_r, elem_of_list_to_set.
        apply elem_of_edges_to_add. exists n. tauto.
      + assert (0 < in_degree K n)%nat as [u Hu]%in_degree_pos by lia.
        apply (proj1 (in_degree_0 K' n) Hd u). rewrite He. by apply elem_of_union_l.
    - destruct (decide (out_degree K n = 0%nat)) as [H0|H0].
      + apply (proj1 (out_degree_0 K' n) Hd (attr_sink (graph K))).
        rewrite He. apply elem_of_union_r, elem_of_list_to_set.
        apply elem_of_edges_to_add. exists n. tauto.
      + assert (0 < out_degree K n)%nat as [v Hv]%out_degree_pos by lia.
        apply (proj1 (out_degree_0 K' n) Hd v). rewrite He. by apply elem_of_union_l. }
  split; [done|]. split; [done|].
  split; [rewrite He; apply union_subseteq_l|]. split.
  { intros u v. rewrite He, Hnodes, elem_of_union, elem_of_list_to_set.
    intros [Huv|Huv]; [by apply Hwf|].
    apply elem_of_edges_to_add in Huv
      as (n & Hin & _ & _ & [(-> & -> & _)|(-> & -> & _)]); done. }
  split.
  { intros u v.
    by rewrite He, elem_of_union, elem_of_list_to_set, elem_of_edges_to_add. }
  split.
  { intros n Hin Hs Ht.
    destruct (in_degree K' n) eqn:Ei;
      [destruct (Hok n Hin); unfold dangling; rewrite Hg; tauto|].
    destruct (out_degree K' n) eqn:Eo;
      [destruct (Hok n Hin); unfold dangling; rewrite Hg; tauto|]. lia. }
  split; [|by apply clip_dangling_ends_noop].
  unfold connect_dangling_ends at 1. by rewrite (edges_to_add_nil K' Hok).
Qed.

Lemma connect_dangling_ends_connects_witness :
  let K' := connect_dangling_ends branch_graph in
  (3, SINK) ∈ edge K' ∧ (SOURCE, SINK) ∉ edge K'
  ∧ node K' = node branch_graph
  ∧ clip_dangling_ends K' = (K', ∅, 0%Qc).
Proof.
  destruct (connect_dangling_ends_connects branch_graph)
    as (_ & Hn & _ & _ & He & _ & _ & Hclip).
  - apply (bool_decide_unpack _). vm_compute. reflexivity.
  - apply (bool_decide_unpack _). vm_compute. reflexivity.
  - apply (bool_decide_unpack _). vm_compute. reflexivity.
  - split; [apply (bool_decide_unpack _); vm_compute; reflexivity|].
    split; [|by split].
    intros [Hin|(n & _ & Hs & Ht & [(_ & Hv & _)|(Hu & _ & _)])]%He.
    + revert Hin. apply (bool_decide_unpack _). vm_compute. reflexivity.
    + by apply Ht.
    + by apply Hs.
Defined.

(** ** More on [find_short_path_kmers] *)

Lemma sum_scale c xs :
  Py.sum ((λ x, c * x)%Qc <$> xs) = (c * Py.sum xs)%Qc.
Proof.
  induction xs as [|x xs IH]; [by rewrite Qcmult_0_r|].
  change (c * x + Py.sum ((λ x, c * x)%Qc <$> xs) = c * (x + Py.sum xs))%Qc.
  rewrite IH. ring.
Qed.

Lemma score_of_lookup (K : KmerGraph) n a :
  node K !! n = Some a → score_of K n = NODE_SCORE a.
Proof. unfold score_of. by intros ->. Qed.

Lemma mapM_node_scores (K : KmerGraph) (ids : list Z) matching :
  mapM (λ kmer_id,
          attrs ← Py.getitem (node K) kmer_id;
          Ok (kmer_id, NODE_SCORE attrs)) ids = Ok matching →
  matching = (λ kmer_id, (kmer_id, score_of K kmer_id)) <$> ids
  ∧ ∀ kmer_id, kmer_id ∈ ids → kmer_id ∈ nodes K.
Proof.
  revert matching. induction ids as [|i ids IH]; intros matching Hm.
  - injection Hm as <-. split; [done|]. by intros ? ?%elem_of_nil.
  - cbn [mapM] in Hm.
    destruct (Py.getitem (node K) i) as [a|] eqn:Ha; [|discriminate].
    apply getitem_Ok in Ha. cbn [mbind result_bind] in Hm.
    destruct (mapM _ ids) as [m'|] eqn:Hm'; [|discriminate].
    injection Hm as <-. destruct (IH m' eq_refl) as [-> Hin].
    split.
    + cbn [fmap list_fmap]. by rewrite (score_of_lookup _ _ _ Ha).
    + intros j [->|Hj]%elem_of_cons; [|by apply Hin].
      apply elem_of_dom. eauto.
Qed.

Lemma mapM_fractions (score total : Qc) (matching : list (Z * Qc)) l :
  mapM (λ '(kmer_id, kmer_score),
          frac ← Py.div kmer_score total;
          Ok ([kmer_id], (score * frac)%Qc)) matching = Ok l →
  (matching ≠ [] → total ≠ 0%Qc)
  ∧ l = (λ m : Z * Qc, ([m.1], (score * (m.2 / total))%Qc)) <$> matching.
Proof.
  revert l. induction matching as [|[i sc] matching IH]; intros l Hm.
  - injection Hm as <-. done.
  - cbn [mapM] in Hm.
    destruct (Py.div sc total) as [frac|] eqn:Hd; [|discriminate].
    unfold Py.div in Hd.
    destruct (decide (total = 0%Qc)) as [|Hne]; [discriminate|].
    injection Hd as <-. cbn [mbind result_bind] in Hm.
    destruct (mapM _ matching) as [l'|] eqn:Hl'; [|discriminate].
    injection Hm as <-. destruct (IH l' eq_refl) as [_ ->]. done.
Qed.

(** X5: when [find_short_path_kmers] returns, a path that is not a key
    of the hash gives no k-mer path; otherwise every matching k-mer is a
    vertex of the graph and gets, in the order of iteration, the
    single-vertex path [[kmer_id]] with the share
    [score * (kmer_score / total_score)], where [total_score] is the sum
    of the scores of the matching k-mers, which is not zero when there is
    a matching k-mer. *)
Theorem find_short_path_kmers_shares kmer_hash (K : KmerGraph) path score l :
  find_short_path_kmers kmer_hash K path score = Ok l →
  match kmer_hash !! path with
  | None => l = []
  | Some ids =>
      let total := Py.sum (score_of K <$> elements ids) in
      ids ⊆ nodes K
      ∧ l = (λ kmer_id, ([kmer_id], (score * (score_of K kmer_id / total))%Qc))
              <$> elements ids
      ∧ (ids ≠ ∅ → total ≠ 0%Qc)
  end.
Proof.
  unfold find_short_path_kmers.
  destruct (kmer_hash !! path) as [ids|]; [|by intros [= <-]].
  destruct (mapM _ (elements ids)) as [matching|] eqn:Hm; [|discriminate].
  cbn [mbind result_bind]. intros Hl.
  apply mapM_node_scores in Hm as [-> Hin].
  assert (Py.sum (((λ kmer_id, (kmer_id, score_of K kmer_id))
                     <$> elements ids).*2)
          = Py.sum (score_of K <$> elements ids)) as Htot
    by (by rewrite <- list_fmap_compose).
  rewrite Htot in Hl. apply mapM_fractions in Hl as [Hne ->].
  cbv zeta. set (total := Py.sum (score_of K <$> elements ids)) in *.
  split; [intros i Hi; by apply Hin, elem_of_elements|].
  split; [by rewrite <- list_fmap_compose|]. intros Hids.
  apply Hne. intros He%fmap_nil_inv. apply elements_empty_inv in He.
  by apply leibniz_equiv in He.
Qed.

Lemma find_short_path_kmers_shares_witness :
  ∃ l, find_short_path_kmers {[ [mkExon 0 10] := {[ 0; 1 ]} ]}
         (mkDiGraph (mkKmerAttrs ∅ SOURCE SINK)
            {[ 0 := mkNodeAttrs (Qc_of_Z 1) 0%Qc 0%Qc 0%Qc;
               1 := mkNodeAttrs (Qc_of_Z 3) 0%Qc 0%Qc 0%Qc ]} ∅)
         [mkExon 0 10] (Qc_of_Z 8) = Ok l
       ∧ l.*1 = (λ kmer_id, [kmer_id]) <$> elements ({[ 0; 1 ]} : gset Z).
Proof.
  destruct (find_short_path_kmers {[ [mkExon 0 10] := {[ 0; 1 ]} ]}
         (mkDiGraph (mkKmerAttrs ∅ SOURCE SINK)
            {[ 0 := mkNodeAttrs (Qc_of_Z 1) 0%Qc 0%Qc 0%Qc;
               1 := mkNodeAttrs (Qc_of_Z 3) 0%Qc 0%Qc 0%Qc ]} ∅)
         [mkExon 0 10] (Qc_of_Z 8)) as [l|e] eqn:E;
    [|exfalso; revert E; vm_compute; discriminate].
  exists l. split; [done|].
  pose proof (find_short_path_kmers_shares _ _ _ _ _ E) as Hp.
  rewrite lookup_singleton_eq in Hp. destruct Hp as (_ & -> & _).
  by rewrite <- list_fmap_compose.
Defined.

(** ** [hash_kmers] *)

Lemma elem_of_hash_add kmer_hash key kmer_id key' kmer_id' :
  kmer_id' ∈ default ∅ (hash_add kmer_hash key kmer_id !! key')
  ↔ kmer_id' ∈ default ∅ (kmer_hash !! key')
    ∨ (key' = key ∧ kmer_id' = kmer_id).
Proof.
  unfold hash_add. destruct (decide (key = key')) as [<-|Hne].
  - rewrite lookup_insert_eq. simpl. set_solver.
  - rewrite lookup_insert_ne by done. naive_solver.
Qed.

Lemma hash_add_nonempty kmer_hash key kmer_id :
  (∀ key' ids, kmer_hash !! key' = Some ids → ids ≠ ∅) →
  ∀ key' ids, hash_add kmer_hash key kmer_id !! key' = Some ids → ids ≠ ∅.
Proof.
  intros Hne key' ids. unfold hash_add.
  destruct (decide (key = key')) as [<-|Hne'].
  - rewrite lookup_insert_eq. intros [= <-]. set_solver.
  - rewrite lookup_insert_ne by done. apply Hne.
Qed.

Lemma hash_kmer_spec (kmer : list Exon) kmer_id ksmall (idxs : list Z) :
  ∀ kmer_hash : gmap (list Exon) (gset Z),
  let kmer_hash' :=
    foldl (λ kmer_hash i,
             hash_add kmer_hash (Py.slice kmer i (i + ksmall)) kmer_id)
          kmer_hash idxs in
  (∀ key kmer_id',
     kmer_id' ∈ default ∅ (kmer_hash' !! key)
     ↔ kmer_id' ∈ default ∅ (kmer_hash !! key)
       ∨ (kmer_id' = kmer_id
          ∧ ∃ i, i ∈ idxs ∧ key = Py.slice kmer i (i + ksmall)))
  ∧ ((∀ key ids, kmer_hash !! key = Some ids → ids ≠ ∅) →
     ∀ key ids, kmer_hash' !! key = Some ids → ids ≠ ∅).
Proof.
  induction idxs as [|i idxs IH]; intros kmer_hash; cbv zeta; cbn [foldl].
  - split; [|done]. intros key kmer_id'. split; [by left|].
    by intros [?|(_ & i & ?%elem_of_nil & _)].
  - destruct (IH (hash_add kmer_hash (Py.slice kmer i (i + ksmall)) kmer_id))
      as [Hin Hne]. cbv zeta in *. split.
    + intros key kmer_id'. rewrite Hin, elem_of_hash_add. split.
      * intros [[?|[-> ->]]|(-> & j & Hj & ->)]; [by left|right..].
        -- split; [done|]. exists i. split; [by left|done].
        -- split; [done|]. exists j. split; [by right|done].
      * intros [?|(-> & j & [->|Hj]%elem_of_cons & ->)].
        -- by left; left.
        -- by left; right.
        -- right. split; [done|]. by exists j.
    + intros Hne0. apply Hne. by apply hash_add_nonempty.
Qed.

Lemma hash_kmers_list_spec k ksmall (l : list (Z * list Exon)) :
  ∀ kmer_hash : gmap (list Exon) (gset Z),
  let kmer_hash' :=
    foldl (λ kmer_hash '(kmer_id, kmer),
             foldl (λ kmer_hash i,
                      hash_add kmer_hash (Py.slice kmer i (i + ksmall))
                        kmer_id)
                   kmer_hash (Py.xrange 0 (k - (ksmall - 1))))
          kmer_hash l in
  (∀ key kmer_id,
     kmer_id ∈ default ∅ (kmer_hash' !! key)
     ↔ kmer_id ∈ default ∅ (kmer_hash !! key)
       ∨ ∃ kmer i, (kmer_id, kmer) ∈ l ∧ 0 ≤ i < k - (ksmall - 1)
                   ∧ key = Py.slice kmer i (i + ksmall))
  ∧ ((∀ key ids, kmer_hash !! key = Some ids → ids ≠ ∅) →
     ∀ key ids, kmer_hash' !! key = Some ids → ids ≠ ∅).
Proof.
  induction l as [|[kmer_id kmer] l IH]; intros kmer_hash; cbv zeta;
    cbn [foldl].
  - split; [|done]. intros key kmer_id'. split; [by left|].
    by intros [?|(kmer & i & ?%elem_of_nil & _)].
  - destruct (hash_kmer_spec kmer kmer_id ksmall
                (Py.xrange 0 (k - (ksmall - 1))) kmer_hash) as [Hin1 Hne1].
    cbv zeta in *.
    destruct (IH (foldl (λ kmer_hash i,
                           hash_add kmer_hash (Py.slice kmer i (i + ksmall))
                             kmer_id)
                        kmer_hash (Py.xrange 0 (k - (ksmall - 1)))))
      as [Hin Hne]. cbv zeta in *. split.
    + intros key kmer_id'. rewrite Hin, Hin1. split.
      * intros [[?|(-> & i & Hi%elem_of_xrange & ->)]
               |(kmer' & i & Hl & Hi & ->)]; [by left|right..].
        -- exists kmer, i. split; [by left|]. split; [lia|done].
        -- exists kmer', i. split; [by right|done].
      * intros [?|(kmer' & i & [[= -> ->]|Hl]%elem_of_cons & Hi & ->)].
        -- by left; left.
        -- left; right. split; [done|]. exists i.
           split; [apply elem_of_xrange; lia|done].
        -- right. by exists kmer', i.
    + intros Hne0. by apply Hne, Hne1.
Qed.

Lemma hash_kmers_spec idk k ksmall :
  (∀ key kmer_id,
     kmer_id ∈ default ∅ (hash_kmers idk k ksmall !! key)
     ↔ ∃ kmer i, idk !! kmer_id = Some kmer ∧ 0 ≤ i < k - (ksmall - 1)
                 ∧ key = Py.slice kmer i (i + ksmall))
  ∧ ∀ key ids, hash_kmers idk k ksmall !! key = Some ids → ids ≠ ∅.
Proof.
  destruct (hash_kmers_list_spec k ksmall (map_to_list idk) ∅) as [Hin Hne].
  cbv zeta in *. fold (hash_kmers idk k ksmall) in Hin, Hne. split.
  - intros key kmer_id. rewrite Hin, lookup_empty. cbn [default]. split.
    + intros [[]%not_elem_of_empty|(kmer & i & Hl%elem_of_map_to_list & ?)].
      by exists kmer, i.
    + intros (kmer & i & Hl & ?). right. exists kmer, i.
      split; [by apply elem_of_map_to_list|done].
  - apply Hne. intros key ids. by rewrite lookup_empty.
Qed.

(** A window of [ksmall] nodes of a tuple of at most [k] nodes. *)
Lemma slice_infix (kmer path : list Exon) (k ksmall : Z) :
  1 ≤ ksmall → Z.of_nat (length kmer) ≤ k →
  Z.of_nat (length path) = ksmall →
  (∃ i, 0 ≤ i < k - (ksmall - 1) ∧ path = Py.slice kmer i (i + ksmall))
  ↔ ∃ l1 l2, kmer = l1 ++ path ++ l2.
Proof.
  intros Hks Hlen Hpath. split.
  - intros (i & Hi & Hp). rewrite slice_window in Hp by lia.
    exists (take (Z.to_nat i) kmer),
           (drop (Z.to_nat ksmall) (drop (Z.to_nat i) kmer)).
    by rewrite Hp, take_drop, take_drop.
  - intros (l1 & l2 & ->). exists (Z.of_nat (length l1)).
    rewrite !length_app in Hlen. split; [lia|].
    rewrite slice_window by lia. rewrite Nat2Z.id, drop_app_length.
    rewrite <- Hpath, Nat2Z.id. by rewrite take_app_length.
Qed.

(** X6: no key of the hash [hash_kmers] returns has an empty set of ids,
    whatever the arguments are; and for [1 <= ksmall] and k-mers of at
    most [k] nodes, the hash maps a tuple of [ksmall] nodes to exactly the
    ids of the k-mers that contain it as a contiguous run of nodes. *)
Theorem hash_kmers_infix (idk : gmap Z (list Exon)) (k ksmall : Z) :
  (∀ key ids, hash_kmers idk k ksmall !! key = Some ids → ids ≠ ∅)
  ∧ (1 ≤ ksmall →
     (∀ i kmer, idk !! i = Some kmer → Z.of_nat (length kmer) ≤ k) →
     ∀ (path : list Exon) (kmer_id : Z),
       Z.of_nat (length path) = ksmall →
       (kmer_id ∈ default ∅ (hash_kmers idk k ksmall !! path)
        ↔ ∃ kmer l1 l2,
            idk !! kmer_id = Some kmer ∧ kmer = l1 ++ path ++ l2)).
Proof.
  destruct (hash_kmers_spec idk k ksmall) as [Hin Hne].
  split; [exact Hne|]. intros Hks Hlen path kmer_id Hpath.
  rewrite Hin. split.
  - intros (kmer & i & Hk & Hi & Hp). exists kmer.
    destruct (proj1 (slice_infix kmer path k ksmall Hks (Hlen _ _ Hk) Hpath))
      as (l1 & l2 & ?); [by exists i|]. by exists l1, l2.
  - intros (kmer & l1 & l2 & Hk & Heq).
    destruct (proj2 (slice_infix kmer path k ksmall Hks (Hlen _ _ Hk) Hpath))
      as (i & Hi & ?); [by exists l1, l2|]. by exists kmer, i.
Qed.

Lemma hash_kmers_infix_witness :
  0 ∈ default ∅ (hash_kmers {[ 0 := scenario_A_path1 ]} 3 2
                   !! [mkExon 20 30; mkExon 40 50]).
Proof.
  destruct (hash_kmers_infix {[ 0 := scenario_A_path1 ]} 3 2) as [_ Hin].
  apply (Hin ltac:(lia)) with (path := [mkExon 20 30; mkExon 40 50]).
  - intros i kmer [<- <-]%lookup_singleton_Some. cbn. lia.
  - reflexivity.
  - exists scenario_A_path1, [mkExon 0 10], []. split; [|done].
    apply lookup_singleton_eq.
Defined.

(** ** What [optimize_k] returns *)

Lemma optimize_k_body_inv G pp total k (K : KmerGraph) s :
  optimize_k_body G pp total k = Ok (K, s) →
  ∃ lost clips cs,
    create_kmer_graph G pp k = Ok (K, lost, clips, cs)
    ∧ total ≠ 0%Qc
    ∧ s = ((total - (weighted_score lost + cs)) / total)%Qc.
Proof.
  unfold optimize_k_body.
  destruct (create_kmer_graph G pp k) as [[[[K0 lost] clips] cs]|];
    [|discriminate].
  cbn [mbind result_bind]. unfold Py.div.
  destruct (decide (total = 0%Qc)) as [|Hne]; cbn [mbind result_bind];
    [discriminate|].
  repeat match goal with
         | |- context [decide (?a = ?b)] => destruct (decide (a = b))
         end; cbn [mbind result_bind]; try discriminate.
  intros [= <- <-]. by exists lost, clips, cs.
Qed.

(** X7: when [optimize_k] returns a pair [(K, k)], then [kmin <= k <= kmax],
    [K] is the graph [create_kmer_graph] builds at [k], every value from
    [kmin] to [k] was evaluated with a sensitivity that is not below the
    threshold, and [k] is [kmax] or [k + 1] is the value at which the
    sensitivity fell below the threshold and the loop stopped; the values
    evaluated are [kmin, ..., min(k + 1, kmax)].  The result is the end of
    the first run of accepted values: values above [k + 1] are never
    tried. *)
Theorem optimize_k_returns (G : SpliceGraph) (partial_paths : list PartialPath)
    (kmin kmax : Z) (threshold : Qc) (K : KmerGraph) (k : Z) :
  optimize_k G partial_paths kmin kmax threshold = Ok (Some (K, k)) →
  kmin ≤ k ≤ kmax
  ∧ accepted G partial_paths threshold k K
  ∧ (∃ lost clips cs,
       create_kmer_graph G partial_paths k = Ok (K, lost, clips, cs))
  ∧ (∀ k', kmin ≤ k' ≤ k → ∃ K', accepted G partial_paths threshold k' K')
  ∧ (k = kmax ∨ rejected G partial_paths threshold (k + 1))
  ∧ optimize_k_log G partial_paths kmin kmax threshold
    = Py.xrange kmin (Z.min (k + 2) (kmax + 1)).
Proof.
  unfold optimize_k, optimize_k_log, optimize_k_run.
  assert (∀ k0 K0, accepted G partial_paths threshold k0 K0 →
            ∃ lost clips cs,
              create_kmer_graph G partial_paths k0 = Ok (K0, lost, clips, cs))
    as Hcreate.
  { intros k0 K0 (s & Hs & _).
    apply optimize_k_body_inv in Hs as (lost & clips & cs & ? & _).
    by exists lost, clips, cs. }
  destruct (loop_cases G partial_paths threshold (Py.xrange kmin (kmax + 1)))
    as [Hall|(ks1 & k0 & ks2 & Hx & Hall & [Hrej|[e He]])].
  - rewrite (loop_accepted _ _ _ _ None [] Hall). cbn [fst snd app].
    destruct (Z.lt_ge_cases kmax kmin) as [Hlt|Hge].
    { rewrite xrange_nil by lia. discriminate. }
    rewrite xrange_snoc in * by done.
    pose proof Hall as Hall'.
    apply Forall_app in Hall' as [_ [K' HK']%Forall_singleton].
    rewrite (last_accepted_snoc _ _ _ _ _ K' None HK').
    intros [= <- <-]. split; [lia|]. split; [done|].
    split; [by apply Hcreate|]. split; [|split; [by left|]].
    + intros k' Hk'. rewrite Forall_forall in Hall. apply Hall.
      rewrite <- xrange_snoc by done. apply elem_of_xrange. lia.
    + rewrite <- xrange_snoc by done. f_equal. lia.
  - rewrite Hx, (loop_rejected _ _ _ _ _ _ None [] Hall Hrej).
    cbn [fst snd app]. apply xrange_split in Hx as (-> & -> & Hk0).
    destruct (decide (k0 = kmin)) as [->|Hne].
    { rewrite xrange_nil by lia. discriminate. }
    assert (Py.xrange kmin k0 = Py.xrange kmin (k0 - 1) ++ [k0 - 1]) as Hsnoc.
    { rewrite <- xrange_snoc by lia. f_equal. lia. }
    pose proof Hall as Hall'. rewrite Hsnoc in Hall'.
    apply Forall_app in Hall' as [_ [K' HK']%Forall_singleton].
    rewrite Hsnoc at 1. rewrite (last_accepted_snoc _ _ _ _ _ K' None HK').
    intros [= <- <-]. split; [lia|]. split; [done|].
    split; [by apply Hcreate|]. split; [|split].
    + intros k' Hk'. rewrite Forall_forall in Hall. apply Hall.
      apply elem_of_xrange. lia.
    + right. by replace (k0 - 1 + 1) with k0 by lia.
    + rewrite <- xrange_snoc by lia. f_equal. lia.
  - rewrite Hx, (loop_raised _ _ _ _ _ _ _ None [] Hall He). discriminate.
Qed.

Lemma overlap_best_eq :
  optimize_k overlap_graph overlap_paths 1 3 three_quarters
  = Ok (Some (overlap_best, 1)).
Proof. vm_compute. reflexivity. Qed.

Lemma optimize_k_returns_witness :
  1 ≤ 1 ≤ 3
  ∧ accepted overlap_graph overlap_paths three_quarters 1 overlap_best
  ∧ (∃ lost clips cs,
       create_kmer_graph overlap_graph overlap_paths 1
       = Ok (overlap_best, lost, clips, cs))
  ∧ (∀ k', 1 ≤ k' ≤ 1 →
       ∃ K', accepted overlap_graph overlap_paths three_quarters k' K')
  ∧ (1 = 3 ∨ rejected overlap_graph overlap_paths three_quarters (1 + 1))
  ∧ optimize_k_log overlap_graph overlap_paths 1 3 three_quarters
    = Py.xrange 1 (Z.min (1 + 2) (3 + 1)).
Proof.
  apply (optimize_k_returns overlap_graph overlap_paths 1 3 three_quarters
           overlap_best 1).
  vm_compute. reflexivity.
Defined.

(** X8: [optimize_k] returns [None] exactly when the range of [k] is
    empty ([kmax < kmin]) or the sensitivity at [kmin] is below the
    threshold. *)
Theorem optimize_k_none_iff (G : SpliceGraph)
    (partial_paths : list PartialPath) (kmin kmax : Z) (threshold : Qc) :
  optimize_k G partial_paths kmin kmax threshold = Ok None
  ↔ kmax < kmin ∨ rejected G partial_paths threshold kmin.
Proof.
  unfold optimize_k, optimize_k_run. split.
  - destruct (loop_cases G partial_paths threshold (Py.xrange kmin (kmax + 1)))
      as [Hall|(ks1 & k0 & ks2 & Hx & Hall & [Hrej|[e He]])].
    + rewrite (loop_accepted _ _ _ _ None [] Hall). cbn [fst snd app].
      destruct (Z.lt_ge_cases kmax kmin) as [Hlt|Hge]; [by left|].
      rewrite xrange_snoc in * by done.
      apply Forall_app in Hall as [_ [K' HK']%Forall_singleton].
      by rewrite (last_accepted_snoc _ _ _ _ _ K' None HK').
    + rewrite Hx, (loop_rejected _ _ _ _ _ _ None [] Hall Hrej).
      cbn [fst snd app]. apply xrange_split in Hx as (-> & -> & Hk0).
      destruct (decide (k0 = kmin)) as [->|Hne]; [by right|].
      assert (Py.xrange kmin k0 = Py.xrange kmin (k0 - 1) ++ [k0 - 1])
        as Hsnoc.
      { rewrite <- xrange_snoc by lia. f_equal. lia. }
      rewrite Hsnoc in *.
      apply Forall_app in Hall as [_ [K' HK']%Forall_singleton].
      by rewrite (last_accepted_snoc _ _ _ _ _ K' None HK').
    + by rewrite Hx, (loop_raised _ _ _ _ _ _ _ None [] Hall He).
  - intros [Hlt|Hrej].
    + by rewrite xrange_nil by lia.
    + destruct (Z.lt_ge_cases kmax kmin) as [Hlt|Hge].
      { by rewrite xrange_nil by lia. }
      rewrite xrange_cons by lia.
      by rewrite (loop_rejected G partial_paths threshold [] kmin
                    (Py.xrange (kmin + 1) (kmax + 1)) None []
                    (Forall_nil_2 _) Hrej : optimize_k_loop _ _ _ _
                      (kmin :: _) _ _ = _).
Qed.

(** ** Empty input and a zero total score *)

Lemma optimize_k_body_zero_total G pp k :
  optimize_k_body G pp 0%Qc k
  = match create_kmer_graph G pp k with
    | Ok _ => Raise ZeroDivisionError
    | Raise e => Raise e
    end.
Proof.
  unfold optimize_k_body.
  by destruct (create_kmer_graph G pp k) as [[[[K0 lost] clips] cs]|].
Qed.

Lemma optimize_k_run_zero_total G pp kmin kmax threshold :
  weighted_score pp = 0%Qc → kmin ≤ kmax →
  optimize_k_run G pp kmin kmax threshold
  = ([], match create_kmer_graph G pp kmin with
         | Ok _ => Raise ZeroDivisionError
         | Raise e => Raise e
         end).
Proof.
  intros Hz Hle. unfold optimize_k_run.
  rewrite Hz, xrange_cons by lia. cbn [optimize_k_loop].
  rewrite optimize_k_body_zero_total.
  by destruct (create_kmer_graph G pp kmin).
Qed.

(** X9: when the weighted total score of the partial paths is zero and
    the range of [k] is not empty, [optimize_k] never returns: the first
    iteration raises before anything is logged, with the error of
    [create_kmer_graph] at [kmin] if that call fails and with
    [ZeroDivisionError], from [kept_score / total_score], if it
    succeeds. *)
Theorem optimize_k_zero_total (G : SpliceGraph)
    (partial_paths : list PartialPath) (kmin kmax : Z) (threshold : Qc) :
  weighted_score partial_paths = 0%Qc → kmin ≤ kmax →
  optimize_k_log G partial_paths kmin kmax threshold = []
  ∧ (∀ e, create_kmer_graph G partial_paths kmin = Raise e →
          optimize_k G partial_paths kmin kmax threshold = Raise e)
  ∧ (is_Ok (create_kmer_graph G partial_paths kmin) →
     optimize_k G partial_paths kmin kmax threshold
     = Raise ZeroDivisionError)
  ∧ ∃ e, optimize_k G partial_paths kmin kmax threshold = Raise e.
Proof.
  intros Hz Hle. unfold optimize_k, optimize_k_log.
  rewrite (optimize_k_run_zero_total _ _ _ _ _ Hz Hle). cbn [fst snd].
  destruct (create_kmer_graph G partial_paths kmin) as [r|e].
  - split; [done|]. split; [done|]. split; [done|].
    by exists ZeroDivisionError.
  - split; [done|]. split; [by intros ? [= <-]|].
    split; [by intros [? [=]]|]. by exists e.
Qed.

Lemma create_kmer_graph_no_paths G k :
  create_kmer_graph G [] k = Ok (new_kmer_graph ∅, [], ∅, 0%Qc).
Proof.
  unfold create_kmer_graph, build_kmer_graph.
  destruct (get_start_end_nodes G) as [starts ends].
  cbn [convert_paths mbind result_bind empty_tables id_kmer_map kmer_paths
       short_partial_path_dict add_paths].
  rewrite map_to_list_empty. cbn [resolve_buckets add_paths mbind result_bind].
  reflexivity.
Qed.

Lemma optimize_k_zero_total_witness :
  optimize_k scenario_B_graph [([], Qc_of_Z 1)] 1 3 one_half
  = Raise IndexError
  ∧ optimize_k scenario_B_graph [([mkExon 40 50], 0%Qc)] 1 3 one_half
    = Raise ZeroDivisionError.
Proof.
  split.
  - destruct (optimize_k_zero_total scenario_B_graph [([], Qc_of_Z 1)] 1 3
                one_half) as (_ & He & _).
    + apply (bool_decide_unpack _). vm_compute. reflexivity.
    + lia.
    + apply He. vm_compute. reflexivity.
  - destruct (optimize_k_zero_total scenario_B_graph
                [([mkExon 40 50], 0%Qc)] 1 3 one_half) as (_ & _ & Hz & _).
    + apply (bool_decide_unpack _). vm_compute. reflexivity.
    + lia.
    + apply Hz. eexists. vm_compute. reflexivity.
Defined.

(** X10: with no partial paths [assemble_transcript_graph] always raises:
    [ValueError] from [max] of an empty sequence when [user_kmax <= 0],
    and otherwise [ZeroDivisionError] from the first iteration of
    [optimize_k], whatever the graph and the other parameters are. *)
Theorem assemble_transcript_graph_no_paths
    (smooth_graph : KmerGraph → KmerGraph)
    (find_suboptimal_paths : KmerGraph → Z → Z → Qc → Z → list (list Z * Qc))
    (G : SpliceGraph) (strand : Strand) (user_kmax : Z)
    (ksensitivity fraction_major_path : Qc) (max_paths : Z) :
  assemble_transcript_graph smooth_graph find_suboptimal_paths G strand []
    user_kmax ksensitivity fraction_major_path max_paths
  = Raise (if 0 <? user_kmax then ZeroDivisionError else ValueError).
Proof.
  unfold assemble_transcript_graph.
  destruct (Z.ltb_spec 0 user_kmax) as [Hpos|Hle]; [|reflexivity].
  cbn [mbind result_bind].
  set (ks := py_min (py_max 0%Qc ksensitivity) 1%Qc).
  set (kmin := if decide (0 < ks)%Qc then 1 else user_kmax).
  assert (kmin ≤ user_kmax) as Hk
    by (unfold kmin; destruct (decide (0 < ks)%Qc); lia).
  unfold optimize_k.
  rewrite (optimize_k_run_zero_total G [] kmin user_kmax ks eq_refl Hk).
  by rewrite create_kmer_graph_no_paths.
Qed.

(** ** The exons [expand_path_chains] returns *)

Lemma touching_run_snoc cur : ∀ v w,
  touching_run (v :: cur) → end_ (List.last cur v) = start w →
  touching_run (v :: cur ++ [w]).
Proof.
  induction cur as [|u cur IH]; intros v w Hrun Hend.
  - by split.
  - destruct Hrun as [Hvu Hrun]. split; [done|].
    apply IH; [done|]. destruct cur as [|z cur]; [done|].
    by rewrite last_cons_cons in Hend.
Qed.

Lemma last_snoc_default {A} (l : list A) x d : List.last (l ++ [x]) d = x.
Proof. apply last_last. Qed.

Lemma last_run {A} (v : A) cur : last (v :: cur) = Some (List.last cur v).
Proof.
  revert v. induction cur as [|u cur IH]; intros v; [done|].
  change (last (v :: u :: cur)) with (last (u :: cur)). rewrite IH.
  destruct cur as [|z cur]; [done|]. by rewrite last_cons_cons.
Qed.

Lemma last_spans runs : ∀ v cur,
  end_ <$> last (span <$> (v, cur) :: runs)
  = end_ <$> last (concat (run_list <$> (v, cur) :: runs)).
Proof.
  induction runs as [|[w cur2] runs IH]; intros v cur.
  - cbn [fmap list_fmap concat]. rewrite app_nil_r.
    unfold run_list. cbn [fst snd]. by rewrite !last_run.
  - rewrite !fmap_cons. cbn [concat].
    change (span (v, cur) :: span (w, cur2) :: (span <$> runs))
      with ([span (v, cur)] ++ span (w, cur2) :: (span <$> runs)).
    unfold run_list at 1 2. cbn [fst snd].
    change ((w :: cur2) ++ concat (run_list <$> runs))
      with (w :: (cur2 ++ concat (run_list <$> runs))).
    rewrite !last_app_cons.
    specialize (IH w cur2). rewrite !fmap_cons in IH. cbn [concat] in IH.
    exact IH.
Qed.

Lemma merge_from_runs rest : ∀ v cur,
  touching_run (v :: cur) →
  ∃ cur' runs,
    (v :: cur) ++ rest = concat (run_list <$> (v, cur') :: runs)
    ∧ Forall (λ run, touching_run (run_list run)) ((v, cur') :: runs)
    ∧ merge_from (start v) (end_ (List.last cur v)) rest
      = span <$> (v, cur') :: runs
    ∧ no_touching (span <$> (v, cur') :: runs).
Proof.
  induction rest as [|w rest IH]; intros v cur Hrun.
  - exists cur, []. cbn. rewrite !app_nil_r. repeat split; by constructor.
  - cbn [merge_from].
    destruct (decide (end_ (List.last cur v) ≠ start w)) as [Hne|Heq].
    + destruct (IH w [] I) as (cur' & runs & Hcat & Hall & Hm & Hnt).
      exists cur, ((w, cur') :: runs). split; [|split; [|split]].
      * rewrite fmap_cons. cbn [concat]. unfold run_list at 1. cbn [fst snd].
        f_equal. exact Hcat.
      * by constructor.
      * cbn [List.last] in Hm. rewrite Hm. reflexivity.
      * split; [|exact Hnt]. exact Hne.
    + apply dec_stable in Heq.
      destruct (IH v (cur ++ [w]) (touching_run_snoc _ _ _ Hrun Heq))
        as (cur' & runs & Hcat & Hall & Hm & Hnt).
      exists cur', runs. rewrite last_snoc_default in Hm.
      split; [|done]. rewrite <- Hcat. cbn. by rewrite <- app_assoc.
Qed.

(** X11: when [expand_path_chains] returns, the expanded node sequence
    (chains substituted, after the reversal of a negative-strand path) is
    cut into consecutive non-empty runs in which each exon's end is the
    next one's start, and the result has one exon per run, from the start
    of the run's first exon to the end of its last.  No two neighbouring
    exons of the result touch, so the runs are maximal; the result is not
    empty, starts where the expanded sequence starts and ends where it
    ends. *)
Theorem expand_path_chains_maximal_runs (G : SpliceGraph) (strand : Strand)
    (path r : list Exon) :
  expand_path_chains G strand path = Ok r →
  ∃ l runs,
    expand_chains G (oriented strand path) = Ok l
    ∧ l = concat (run_list <$> runs)
    ∧ Forall (λ run, touching_run (run_list run)) runs
    ∧ r = span <$> runs
    ∧ no_touching r
    ∧ r ≠ []
    ∧ (start <$> head r) = (start <$> head l)
    ∧ (end_ <$> last r) = (end_ <$> last l).
Proof.
  assert (expand_path_chains G strand path
          = expand_path_chains G POS_STRAND (oriented strand path)) as ->.
  { unfold oriented. destruct strand; [done|]. apply expand_path_chains_neg. }
  generalize (oriented strand path). clear path. intros path Hr.
  destruct (expand_chains G path) as [l|e] eqn:Hl.
  - rewrite (expand_path_chains_pos _ _ _ Hl) in Hr.
    destruct l as [|v rest]; [discriminate|]. injection Hr as <-.
    destruct (merge_from_runs rest v [] I)
      as (cur' & runs & Hcat & Hall & Hm & Hnt).
    cbn [List.last] in Hm. exists (v :: rest), ((v, cur') :: runs).
    split; [done|]. split; [done|]. split; [done|]. split; [done|].
    rewrite Hm. split; [done|]. split; [done|]. split; [done|].
    rewrite last_spans. by rewrite <- Hcat.
  - unfold expand_path_chains in Hr.
    destruct (decide (POS_STRAND = NEG_STRAND)); [done|].
    by rewrite Hl in Hr.
Qed.

Lemma expand_path_chains_maximal_runs_witness :
  ∃ l runs,
    expand_chains scenario_D_graph (oriented POS_STRAND scenario_D_path)
    = Ok l
    ∧ l = concat (run_list <$> runs)
    ∧ Forall (λ run, touching_run (run_list run)) runs
    ∧ [mkExon 100 160] = span <$> runs
    ∧ no_touching [mkExon 100 160]
    ∧ [mkExon 100 160] ≠ []
    ∧ (start <$> head [mkExon 100 160]) = (start <$> head l)
    ∧ (end_ <$> last [mkExon 100 160]) = (end_ <$> last l).
Proof.
  apply (expand_path_chains_maximal_runs scenario_D_graph POS_STRAND
           scenario_D_path [mkExon 100 160]).
  vm_compute. reflexivity.
Defined.

(** ** The errors of [expand_path_chains] *)

Lemma expand_chains_cases G path :
  (expand_chains G path = Raise KeyError
   ∧ ∃ n, n ∈ path ∧ node G !! n = None)
  ∨ ((∀ n, n ∈ path → is_Some (node G !! n))
     ∧ ∃ l, expand_chains G path = Ok l
            ∧ (l = [] ↔ ∀ n, n ∈ path →
                 ∃ nd, node G !! n = Some nd ∧ CHAIN_NODES nd = Some [])).
Proof.
  induction path as [|n path IH].
  - right. split; [by intros n ?%elem_of_nil|]. exists []. split; [done|].
    split; [by intros _ n ?%elem_of_nil|done].
  - cbn [expand_chains]. unfold Py.getitem.
    destruct (node G !! n) as [nd|] eqn:Hn; cbn [mbind result_bind].
    + destruct IH as [[-> (m & Hm & Hnone)]|(Hall & l & -> & Hnil)];
        cbn [mbind result_bind].
      * left. split; [done|]. exists m. split; [by right|done].
      * right. split.
        { intros m [->|Hm]%elem_of_cons; [by rewrite Hn|by apply Hall]. }
        eexists. split; [done|]. split.
        -- intros [Hc Hl]%app_eq_nil m [->|Hm]%elem_of_cons.
           ++ exists nd. split; [done|]. by destruct (CHAIN_NODES nd); subst.
           ++ by apply Hnil.
        -- intros Hall'. apply app_nil. split.
           ++ destruct (Hall' n) as (nd' & Hnd' & Hc); [by left|].
              rewrite Hn in Hnd'. injection Hnd' as <-. by rewrite Hc.
           ++ apply Hnil. intros m Hm. apply Hall'. by right.
    + left. split; [done|]. exists n. split; [by left|done].
Qed.

(** X12: [expand_path_chains] raises [KeyError] exactly when some node of
    the path is not a node of the graph, and [IndexError] exactly when
    every node of the path is a node with an empty chain (in particular
    when the path is empty); it raises nothing else. *)
Theorem expand_path_chains_errors (G : SpliceGraph) (strand : Strand)
    (path : list Exon) :
  (expand_path_chains G strand path = Raise KeyError
   ↔ ∃ n, n ∈ path ∧ n ∉ nodes G)
  ∧ (expand_path_chains G strand path = Raise IndexError
     ↔ ∀ n, n ∈ path →
         ∃ nd, node G !! n = Some nd ∧ CHAIN_NODES nd = Some [])
  ∧ (∀ e, expand_path_chains G strand path = Raise e →
          e = KeyError ∨ e = IndexError).
Proof.
  assert (expand_path_chains G strand path
          = expand_path_chains G POS_STRAND (oriented strand path)) as ->.
  { unfold oriented. destruct strand; [done|]. apply expand_path_chains_neg. }
  assert (∀ n, n ∈ oriented strand path ↔ n ∈ path) as Hmem.
  { intros n. unfold oriented. destruct (decide _); [|done].
    apply elem_of_reverse. }
  destruct (expand_chains_cases G (oriented strand path))
    as [[He (m & Hm & Hnone)]|(Hall & l & Hl & Hnil)].
  - assert (expand_path_chains G POS_STRAND (oriented strand path)
            = Raise KeyError) as ->.
    { unfold expand_path_chains.
      destruct (decide (POS_STRAND = NEG_STRAND)); [done|]. by rewrite He. }
    split; [|split].
    + split; [|done]. intros _. exists m. split; [by apply Hmem|].
      by apply not_elem_of_dom.
    + split; [done|]. intros Hall. destruct (Hall m) as (nd & Hnd & _).
      { by apply Hmem. }
      by rewrite Hnone in Hnd.
    + intros e [= <-]. by left.
  - rewrite (expand_path_chains_pos _ _ _ Hl).
    assert (¬ ∃ n, n ∈ path ∧ n ∉ nodes G) as Hno.
    { intros (n & Hn & Hnin). apply Hnin, elem_of_dom, Hall. by apply Hmem. }
    destruct l as [|v rest].
    + split; [|split].
      * split; [done|]. intros ?. by destruct Hno.
      * split; [|done]. intros _ n Hn. apply (proj1 Hnil eq_refl).
        by apply Hmem.
      * intros e [= <-]. by right.
    + split; [|split].
      * split; [done|]. intros ?. by destruct Hno.
      * split; [done|]. intros Hall'.
        assert (v :: rest = []) as [=]. apply Hnil. intros n Hn.
        apply Hall'. by apply Hmem.
      * by intros e [=].
Qed.

(** ** The graph [create_kmer_graph] returns *)

Lemma clip_dangling_ends_spec (K K' : KmerGraph) clips cs :
  DiGraph_wf K →
  clip_dangling_ends K = (K', clips, cs) →
  clips ⊆ nodes K
  ∧ (∀ n, n ∈ clips →
       n ≠ attr_source (graph K) ∧ n ≠ attr_sink (graph K))
  ∧ K' = remove_nodes_from K clips
  ∧ cs = Py.sum (score_of K <$> elements clips).
Proof.
  intros Hwf. unfold clip_dangling_ends.
  pose proof (clip_loop_acc K (S (size (nodes K)))
                (mkClipState K (nodes K) ∅ 0%Qc) (clip_initial_inv K Hwf))
    as Hacc.
  revert Hacc.
  generalize (clip_loop (S (size (nodes K)))
                (mkClipState K (nodes K) ∅ 0%Qc)).
  intros st Hacc Heq. injection Heq as <- <- <-.
  destruct Hacc as (HK & Hcn & Hsent & Hcs); [|done].
  split; [|split; [done|split; [by intros n ?%not_elem_of_empty|done]]].
  cbn [clip_K clip_nodes]. by rewrite remove_nodes_from_empty.
Qed.

Lemma consecutive_elem l : ∀ e, e ∈ consecutive l → e.1 ∈ l ∧ e.2 ∈ l.
Proof.
  induction l as [|x l IH]; intros e He; [by apply elem_of_nil in He|].
  apply consecutive_cons_elem in He as [(y & Hy & ->)|He].
  - split; [by left|]. right. destruct l; [done|].
    injection Hy as ->. by left.
  - destruct (IH e He). split; by right.
Qed.

Lemma build_kmer_graph_wf G pp k (K : KmerGraph) lost :
  build_kmer_graph G pp k = Ok (K, lost) → DiGraph_wf K.
Proof.
  intros Hb u v Huv.
  destruct (build_kmer_graph_spec _ _ _ _ _ Hb)
    as (t & kps2 & Ht & Hg & Hedges & Hnodes & _).
  destruct (proj1 (Hedges (u, v)) Huv) as (kp & Hkp & He).
  apply consecutive_elem in He as [Hu Hv].
  split; apply Hnodes; by exists kp.
Qed.

(** X13: for [k >= 1] the graph [create_kmer_graph] returns is well
    formed, has [SOURCE] and [SINK] as its source and sink, which are not
    ids of k-mers; every other vertex is the id of a k-mer of
    [id_kmer_map] and has a predecessor and a successor; no edge enters
    [SOURCE] or leaves [SINK]; and a clipped vertex is no longer in the
    graph while its k-mer stays in [id_kmer_map]. *)
Theorem create_kmer_graph_wellformed (G : SpliceGraph)
    (partial_paths : list PartialPath) (k : Z) (K : KmerGraph)
    (lost : list PartialPath) (clips : gset Z) (cs : Qc) :
  1 ≤ k →
  create_kmer_graph G partial_paths k = Ok (K, lost, clips, cs) →
  let idk := attr_id_kmer_map (graph K) in
  attr_source (graph K) = SOURCE ∧ attr_sink (graph K) = SINK
  ∧ idk !! SOURCE = None ∧ idk !! SINK = None
  ∧ DiGraph_wf K
  ∧ (∀ n, n ∈ nodes K → n ≠ SOURCE → n ≠ SINK →
       is_Some (idk !! n)
       ∧ (∃ u, (u, n) ∈ edge K) ∧ (∃ v, (n, v) ∈ edge K))
  ∧ (∀ u v, (u, v) ∈ edge K → v ≠ SOURCE ∧ u ≠ SINK)
  ∧ (∀ n, n ∈ clips → n ∉ nodes K ∧ is_Some (idk !! n)).
Proof.
  intros Hk Hc idk.
  destruct (create_kmer_graph_stages _ _ _ _ _ _ _ Hc)
    as (t & K0 & Ht & Hb & Hclip & Hg0 & Hg).
  pose proof (build_kmer_graph_wf _ _ _ _ _ Hb) as Hwf0.
  destruct (clip_dangling_ends_no_dangling K0 Hwf0) as (Hwf & _ & Hnd).
  rewrite Hclip in Hwf, Hnd. cbn [fst] in Hwf, Hnd.
  destruct (converted_sentinels _ _ _ _ _ Ht) as [Hsrc Hsnk].
  destruct (clip_dangling_ends_keeps _ _ _ _ Hclip)
    as (_ & Hsub & _ & _ & _ & Hgone).
  destruct (clip_dangling_ends_spec _ _ _ _ Hwf0 Hclip)
    as (Hclips & Hsent & _ & _).
  assert (idk = id_kmer_map t) as Hidk by (unfold idk; by rewrite Hg).
  assert (∀ n, n ∈ nodes K0 → n ≠ SOURCE → n ≠ SINK → is_Some (idk !! n))
    as Htuple.
  { intros n Hn Hs Ht'.
    destruct (build_kmer_graph_vertex _ _ _ _ _ n Hb Hn) as [?|[?|Hsome]];
      [done..|].
    by rewrite Hg0 in Hsome; rewrite Hidk. }
  rewrite Hg. cbn [attr_source attr_sink attr_id_kmer_map].
  rewrite Hidk.
  split; [done|]. split; [done|]. split; [done|]. split; [done|].
  split; [done|]. split; [|split].
  - intros n Hn Hs Ht'. split; [rewrite <- Hidk; apply Htuple; auto|].
    assert (¬ dangling K n) as Hd by (by apply Hnd).
    unfold dangling in Hd. rewrite Hg in Hd.
    cbn [attr_source attr_sink] in Hd.
    assert ((0 < in_degree K n)%nat ∧ (0 < out_degree K n)%nat) as [Hi Ho].
    { destruct (in_degree K n) eqn:Ei; [tauto|].
      destruct (out_degree K n) eqn:Eo; [tauto|]. lia. }
    split; [by apply in_degree_pos|by apply out_degree_pos].
  - intros u v Huv.
    pose proof (create_kmer_graph_edges _ _ _ _ _ _ _ (u, v) Hk Hc Huv) as He.
    fold idk in He. rewrite Hidk in He. unfold edge_ok in He. cbn [fst snd] in He.
    destruct He as [[-> [->|Hv]]|[[Hu ->]|(a & b & Ha & Hb' & _)]].
    + done.
    + split; [|done]. intros ->. rewrite Hsrc in Hv. by destruct Hv.
    + split; [done|]. intros ->. rewrite Hsnk in Hu. by destruct Hu.
    + split; intros ->; congruence.
  - intros n Hn. split; [by apply Hgone|]. rewrite <- Hidk.
    destruct (Hsent n Hn) as [Hs Ht']. rewrite Hg0 in Hs, Ht'.
    apply Htuple; auto.
Qed.

Lemma create_kmer_graph_wellformed_witness :
  let K := scenario_A_built.1.1.1 in
  let idk := attr_id_kmer_map (graph K) in
  attr_source (graph K) = SOURCE ∧ attr_sink (graph K) = SINK
  ∧ idk !! SOURCE = None ∧ idk !! SINK = None
  ∧ DiGraph_wf K
  ∧ (∀ n, n ∈ nodes K → n ≠ SOURCE → n ≠ SINK →
       is_Some (idk !! n)
       ∧ (∃ u, (u, n) ∈ edge K) ∧ (∃ v, (n, v) ∈ edge K))
  ∧ (∀ u v, (u, v) ∈ edge K → v ≠ SOURCE ∧ u ≠ SINK)
  ∧ (∀ n, n ∈ scenario_A_built.1.2 → n ∉ nodes K ∧ is_Some (idk !! n)).
Proof.
  apply (create_kmer_graph_wellformed scenario_A_graph scenario_A_paths 2
           scenario_A_built.1.1.1 scenario_A_built.1.1.2
           scenario_A_built.1.2 scenario_A_built.2).
  - lia.
  - exact scenario_A_built_eq.
Defined.

(** ** The lost paths *)











(** ** An iteration of [optimize_k] that ends in the log message *)

Lemma optimize_k_body_sensitivity G pp total k (K : KmerGraph) s :
  optimize_k_body G pp total k = Ok (K, s) →
  score_sensitivity G pp total k = Ok (K, s).
Proof.
  unfold optimize_k_body, score_sensitivity.
  destruct (create_kmer_graph G pp k) as [[[[K0 lost] clips] cs]|];
    [|discriminate].
  cbn [mbind result_bind]. unfold Py.div.
  destruct (decide (total = 0%Qc)) as [|Hne]; cbn [mbind result_bind];
    [discriminate|].
  repeat match goal with
         | |- context [decide (?a = ?b)] => destruct (decide (a = b))
         end; cbn [mbind result_bind]; try discriminate.
  done.
Qed.

(** When the clipped graph has no vertex, the argument
    [100*float(len(clip_nodes))/len(K)] of the log message divides by
    zero. *)
Lemma optimize_k_body_empty_graph G pp total k (K : KmerGraph) s :
  score_sensitivity G pp total k = Ok (K, s) → nodes K = ∅ →
  optimize_k_body G pp total k = Raise ZeroDivisionError.
Proof.
  unfold optimize_k_body, score_sensitivity.
  destruct (create_kmer_graph G pp k) as [[[[K0 lost] clips] cs]|];
    [|discriminate].
  cbn [mbind result_bind]. unfold Py.div.
  destruct (decide (total = 0%Qc)) as [|Hne]; cbn [mbind result_bind];
    [discriminate|].
  intros [= -> <-] Hempty. rewrite Hempty, size_empty.
  change (Z.of_nat 0) with 0. rewrite Z2Qc_inj_0.
  by destruct (decide (0%Qc = 0%Qc)).
Qed.

Lemma xrange_app a k b :
  a ≤ k ≤ b → Py.xrange a b = Py.xrange a k ++ Py.xrange k b.
Proof.
  intros Hk. unfold Py.xrange.
  replace (Z.to_nat (b - a))
    with (Z.to_nat (k - a) + Z.to_nat (b - k))%nat by lia.
  rewrite seq_app, fmap_app. f_equal. cbn [Nat.add].
  rewrite <- (Nat.add_0_r (Z.to_nat (k - a))), <- fmap_add_seq.
  rewrite <- list_fmap_compose. apply list_fmap_ext. intros _ i _. cbn. lia.
Qed.

Lemma optimize_k_raises_empty_graph G pp kmin kmax threshold k
    (K : KmerGraph) s :
  kmin ≤ k ≤ kmax →
  (∀ k', kmin ≤ k' < k → ∃ K', accepted G pp threshold k' K') →
  score_sensitivity G pp (weighted_score pp) k = Ok (K, s) →
  nodes K = ∅ →
  optimize_k_run G pp kmin kmax threshold
  = (Py.xrange kmin k, Raise ZeroDivisionError).
Proof.
  intros Hk Hacc Hs Hempty. unfold optimize_k_run.
  rewrite (xrange_app kmin k (kmax + 1)), (xrange_cons k) by lia.
  rewrite (loop_raised G pp threshold (Py.xrange kmin k) k
             (Py.xrange (k + 1) (kmax + 1)) ZeroDivisionError None []).
  - done.
  - apply Forall_forall. intros k' Hk'%elem_of_xrange. by apply Hacc.
  - by eapply optimize_k_body_empty_graph.
Qed.

Lemma overlap_at_1_eq :
  optimize_k_body overlap_graph overlap_paths (weighted_score overlap_paths) 1
  = Ok (overlap_at_1.1, overlap_at_1.2).
Proof. vm_compute. reflexivity. Qed.

Lemma overlap_at_2_eq :
  optimize_k_body overlap_graph overlap_paths (weighted_score overlap_paths) 2
  = Ok (overlap_at_2.1, overlap_at_2.2).
Proof. vm_compute. reflexivity. Qed.

Lemma overlap_at_3_eq :
  score_sensitivity overlap_graph overlap_paths
    (weighted_score overlap_paths) 3
  = Ok (overlap_at_3.1, overlap_at_3.2).
Proof. vm_compute. reflexivity. Qed.

Lemma overlap_at_3_empty :
  (overlap_at_3.2 < two_fifths)%Qc ∧ nodes overlap_at_3.1 = ∅.
Proof.
  split; [reflexivity|]. apply (bool_decide_unpack _). vm_compute. reflexivity.
Qed.

Lemma overlap_accepted k' :
  1 ≤ k' < 3 → ∃ K', accepted overlap_graph overlap_paths two_fifths k' K'.
Proof.
  intros Hk'. assert (k' = 1 ∨ k' = 2) as [-> | ->] by lia.
  - exists overlap_at_1.1, overlap_at_1.2. split; [exact overlap_at_1_eq|].
    vm_compute. discriminate.
  - exists overlap_at_2.1, overlap_at_2.2. split; [exact overlap_at_2_eq|].
    vm_compute. discriminate.
Qed.

(** C5 fails on the code: the sensitivity computed at [k] can be below
    the threshold, with every smaller value accepted, and [optimize_k]
    still does not return the pair of the largest accepted value.  When
    the graph clipped at [k] has no vertex left, the log message of the
    iteration divides by [len(K) = 0] before the threshold is tested, and
    [optimize_k] raises [ZeroDivisionError]: so it is with the two
    overlapping fragments, [kmin = 1], [kmax = 3] and the threshold 2/5,
    where [k = 2] is accepted, the sensitivity at [k = 3] is 0 and the
    result should be the pair of 2.  And when the sensitivity is below
    the threshold at [kmin], the result is [None], not a pair. *)
Theorem optimize_k_early_stop_raises :
  (∀ G pp kmin kmax threshold k (K : KmerGraph) s,
     kmin ≤ k ≤ kmax →
     (∀ k', kmin ≤ k' < k → ∃ K', accepted G pp threshold k' K') →
     score_sensitivity G pp (weighted_score pp) k = Ok (K, s) →
     (s < threshold)%Qc →
     nodes K = ∅ →
     optimize_k G pp kmin kmax threshold = Raise ZeroDivisionError
     ∧ optimize_k_log G pp kmin kmax threshold = Py.xrange kmin k)
  ∧ (∃ K2, accepted overlap_graph overlap_paths two_fifths 2 K2)
  ∧ (∃ K3 s3,
       score_sensitivity overlap_graph overlap_paths
         (weighted_score overlap_paths) 3 = Ok (K3, s3)
       ∧ (s3 < two_fifths)%Qc ∧ nodes K3 = ∅)
  ∧ optimize_k overlap_graph overlap_paths 1 3 two_fifths
    = Raise ZeroDivisionError
  ∧ (∀ G pp kmin kmax threshold,
       kmin ≤ kmax → rejected G pp threshold kmin →
       optimize_k G pp kmin kmax threshold = Ok None
       ∧ ∀ (K : KmerGraph) k,
           optimize_k G pp kmin kmax threshold ≠ Ok (Some (K, k))).
Proof.
  split; [|split; [|split; [|split]]].
  - intros G pp kmin kmax threshold k K s Hk Hacc Hs _ Hempty.
    unfold optimize_k, optimize_k_log.
    by rewrite (optimize_k_raises_empty_graph _ _ _ _ _ _ _ _ Hk Hacc Hs
                  Hempty).
  - apply overlap_accepted. lia.
  - exists overlap_at_3.1, overlap_at_3.2. split; [exact overlap_at_3_eq|].
    exact overlap_at_3_empty.
  - unfold optimize_k.
    rewrite (optimize_k_raises_empty_graph overlap_graph overlap_paths 1 3
               two_fifths 3 overlap_at_3.1 overlap_at_3.2); [done|lia| |
               exact overlap_at_3_eq|apply overlap_at_3_empty].
    apply overlap_accepted.
  - intros G pp kmin kmax threshold Hle Hrej.
    assert (optimize_k G pp kmin kmax threshold = Ok None) as ->.
    { unfold optimize_k, optimize_k_run. rewrite xrange_cons by lia.
      by rewrite (loop_rejected G pp threshold [] kmin
                    (Py.xrange (kmin + 1) (kmax + 1)) None []
                    (Forall_nil_2 _) Hrej : optimize_k_loop _ _ _ _
                      (kmin :: _) _ _ = _). }
    split; [done|]. by intros K k.
Qed.

Lemma optimize_k_early_stop_raises_witness :
  optimize_k overlap_graph overlap_paths 1 3 two_fifths
  = Raise ZeroDivisionError
  ∧ optimize_k_log overlap_graph overlap_paths 1 3 two_fifths
    = Py.xrange 1 3.
Proof.
  destruct optimize_k_early_stop_raises as (Hgen & _).
  apply (Hgen overlap_graph overlap_paths 1 3 two_fifths 3
           overlap_at_3.1 overlap_at_3.2).
  - lia.
  - apply overlap_accepted.
  - exact overlap_at_3_eq.
  - reflexivity.
  - apply (bool_decide_unpack _). vm_compute. reflexivity.
Defined.

Lemma chain_sensitivity :
  score_sensitivity chain_graph chain_paths (weighted_score chain_paths) 1
  = Ok (chain_at_1.1, chain_at_1.2).
Proof. vm_compute. reflexivity. Qed.

Lemma chain_at_1_empty : nodes chain_at_1.1 = ∅.
Proof. apply (bool_decide_unpack _). vm_compute. reflexivity. Qed.

(** C6 fails on the code: a call with [kmin = kmax = k] does not always
    return [k].  The single iteration raises [ZeroDivisionError] when no
    vertex of the graph survives the clipping, whatever the threshold is
    (so it is with the locus [x → a → y] and the fragment [(a)], also
    through [assemble_transcript_graph] with [user_kmax = 1]), and the
    threshold is still tested: [None] is returned when the sensitivity
    at [k] is below it. *)
Theorem optimize_k_single_k_fails :
  (∀ G pp k threshold (K : KmerGraph) s,
     score_sensitivity G pp (weighted_score pp) k = Ok (K, s) →
     nodes K = ∅ →
     optimize_k G pp k k threshold = Raise ZeroDivisionError)
  ∧ (∀ G pp k threshold,
       rejected G pp threshold k → optimize_k G pp k k threshold = Ok None)
  ∧ chain_paths ≠ []
  ∧ (∀ threshold,
       optimize_k chain_graph chain_paths 1 1 threshold
       = Raise ZeroDivisionError)
  ∧ (∀ smooth_graph find_suboptimal_paths strand ksensitivity
       fraction_major_path max_paths,
       assemble_transcript_graph smooth_graph find_suboptimal_paths
         chain_graph strand chain_paths 1 ksensitivity
         fraction_major_path max_paths
       = Raise ZeroDivisionError)
  ∧ fragment_paths ≠ []
  ∧ optimize_k fragment_graph fragment_paths 1 1 one_half = Ok None.
Proof.
  assert (∀ G pp k threshold (K : KmerGraph) s,
            score_sensitivity G pp (weighted_score pp) k = Ok (K, s) →
            nodes K = ∅ →
            optimize_k G pp k k threshold = Raise ZeroDivisionError) as Hgen.
  { intros G pp k threshold K s Hs Hempty. unfold optimize_k.
    rewrite (optimize_k_raises_empty_graph G pp k k threshold k K s);
      [done|lia| |done..].
    intros k' ?. lia. }
  assert (∀ threshold,
            optimize_k chain_graph chain_paths 1 1 threshold
            = Raise ZeroDivisionError) as Hchain.
  { intros threshold.
    apply (Hgen _ _ _ _ _ _ chain_sensitivity). exact chain_at_1_empty. }
  split; [exact Hgen|]. split; [|split; [done|split; [exact Hchain|split]]].
  - intros G pp k threshold Hrej. unfold optimize_k, optimize_k_run.
    rewrite xrange_cons, xrange_nil by lia.
    by rewrite (loop_rejected G pp threshold [] k [] None []
                  (Forall_nil_2 _) Hrej : optimize_k_loop _ _ _ _
                    [k] _ _ = _).
  - intros. unfold assemble_transcript_graph.
    change (0 <? 1) with true. cbn [mbind result_bind].
    destruct (decide (0 < py_min (py_max 0 ksensitivity) 1)%Qc);
      by rewrite Hchain.
  - split; [done|]. vm_compute. reflexivity.
Qed.

Lemma optimize_k_single_k_fails_witness :
  optimize_k chain_graph chain_paths 1 1 0%Qc = Raise ZeroDivisionError.
Proof.
  destruct optimize_k_single_k_fails as (Hgen & _).
  apply (Hgen chain_graph chain_paths 1 0%Qc chain_at_1.1 chain_at_1.2).
  - exact chain_sensitivity.
  - apply (bool_decide_unpack _). vm_compute. reflexivity.
Defined.

(** ** The reconstruction in [assemble_transcript_graph] *)






